(** * NAVIGATOR v1.0: the scoring and decision engine of [NAV_v1.py]

    The engine is a handful of pure functions over Python floats:
    [clamp01], the three domain scorers, [navigator_index], [bucket],
    [primary_limiting_domain] and the rule tree [suggest_path].

    The functions are written once, over an interface [PyNum] of the
    arithmetic and comparisons the source uses, and read at two number
    types:
    - [Q], exact rational arithmetic, the reading of the specification's
      "for all real inputs" (every finite binary64 value is a rational);
    - [float], Rocq's primitive binary64 numbers, the arithmetic the Python
      interpreter runs: evaluated at concrete inputs, and reasoned about
      through the specification of the primitive operations.

    Every property is stated at both: over [Q], and over [float] with the
    code's own comparisons. For the latter the operations of the binary64
    specification are shown to round their exact result to nearest, which
    makes them monotone and bounds their error. The two readings agree on
    ranges, monotonicity, the limiting domain, the buckets and the
    suggested path; they part where a result is rounded
    (100.0 * (1.0 - 0.7) is not 30.0 in binary64). *)

From Stdlib Require Import QArith Qabs Qminmax Qpower Lqa ZArith Lia Bool List String Ascii.
From Stdlib Require Import DecimalString Floats.
Import ListNotations.

Set Warnings "-inexact-float".

Local Open Scope string_scope.

(** ** Numbers *)

(** What a number looks like to the formatter: not a number, an infinity,
    or a sign and an exact magnitude. *)
Inductive shape : Type :=
  | Nan
  | Inf (neg : bool)
  | Fin (neg : bool) (mag : Q).

(** The operations of Python's [float] that the engine uses. [lit q] is the
    value of the numeric literal whose decimal reading is [q]. *)
Class PyNum (T : Type) : Type := {
  lit : Q -> T;
  add : T -> T -> T;
  sub : T -> T -> T;
  mul : T -> T -> T;
  div : T -> T -> T;
  lt : T -> T -> bool;
  le : T -> T -> bool;
  shape_of : T -> shape
}.

Arguments lit {T _} q%_Q.

Definition isnan {T : Type} `{PyNum T} (x : T) : bool :=
  match shape_of x with Nan => true | _ => false end.

(** The laws of [<] and [<=] the engine relies on: a total preorder on the
    values that are numbers, and no comparison with a NaN holds. *)
Class PyOrd (T : Type) `{PyNum T} : Prop := {
  num_lt_le : forall a b : T, lt a b = true -> le a b = true;
  num_lt_asym : forall a b : T, lt a b = true -> le b a = false;
  num_le_total : forall a b : T,
      isnan a = false -> isnan b = false -> lt a b = false -> le b a = true;
  num_le_trans : forall a b c : T, le a b = true -> le b c = true -> le a c = true;
  num_le_number : forall a b : T,
      le a b = true -> isnan a = false /\ isnan b = false
}.

Declare Scope py_scope.
Delimit Scope py_scope with py.
Notation "x + y" := (add x y) : py_scope.
Notation "x - y" := (sub x y) : py_scope.
Notation "x * y" := (mul x y) : py_scope.
Notation "x / y" := (div x y) : py_scope.
Notation "x <? y" := (lt x y) : py_scope.
Notation "x >? y" := (lt y x) : py_scope.
Notation "x >=? y" := (le y x) : py_scope.

(** *** Exact rationals *)

Definition Qlt_bool (x y : Q) : bool := negb (Qle_bool y x).

Definition Qneg (x : Q) : bool := (Qnum x <? 0)%Z.

#[global] Instance PyNum_Q : PyNum Q := {
  lit q := q;
  add := Qplus;
  sub := Qminus;
  mul := Qmult;
  div := Qdiv;
  lt := Qlt_bool;
  le := Qle_bool;
  shape_of x := Fin (Qneg x) (Qabs x)
}.

(** *** Binary64 *)

(** An integer as a float; exact below 2^53. *)
Definition float_of_Z (z : Z) : float :=
  if (z <? 0)%Z
  then PrimFloat.opp (PrimFloat.of_uint63 (Uint63.of_Z (- z)))
  else PrimFloat.of_uint63 (Uint63.of_Z z).

(** A decimal literal [n/d] is read as the binary64 value nearest to it:
    with [n] and [d] below 2^53 that is the correctly rounded quotient. *)
Definition float_of_literal (q : Q) : float :=
  PrimFloat.div (float_of_Z (Qnum q)) (float_of_Z (Zpos (Qden q))).

Definition float_shape (x : float) : shape :=
  match Prim2SF x with
  | S754_nan => Nan
  | S754_infinity s => Inf s
  | S754_zero s => Fin s 0
  | S754_finite s m e =>
      Fin s (match e with
             | Zneg p => Zpos m # (2 ^ p)
             | _ => inject_Z (Zpos m * 2 ^ e)
             end)
  end.

#[global] Instance PyNum_float : PyNum float := {
  lit := float_of_literal;
  add := PrimFloat.add;
  sub := PrimFloat.sub;
  mul := PrimFloat.mul;
  div := PrimFloat.div;
  lt := PrimFloat.ltb;
  le := PrimFloat.leb;
  shape_of := float_shape
}.

(** ** Formatting: the [f"{x:.1f}"] and [f"{x:.0f}"] of the bullets *)

Definition string_of_N (n : N) : string :=
  NilZero.string_of_uint (N.to_uint n).

Fixpoint zeros (n : nat) : string :=
  match n with
  | O => ""
  | S n' => "0" ++ zeros n'
  end.

(** [s] on at least [width] characters, zero-padded on the left. *)
Definition pad_left (width : nat) (s : string) : string :=
  zeros (width - String.length s) ++ s.

(** The integer nearest to a non-negative rational, ties to even. *)
Definition round_half_even (q : Q) : Z :=
  let n := Qnum q in
  let d := Zpos (Qden q) in
  let fl := (n / d)%Z in
  match (2 * (n mod d) ?= d)%Z with
  | Lt => fl
  | Gt => (fl + 1)%Z
  | Eq => if Z.even fl then fl else (fl + 1)%Z
  end.

(** Fixed-point rendering with [digits] decimals, as [format(x, ".<digits>f")]. *)
Definition format_f {T} `{PyNum T} (digits : nat) (x : T) : string :=
  match shape_of x with
  | Nan => "nan"
  | Inf neg => if neg then "-inf" else "inf"
  | Fin neg mag =>
      let scale := (10 ^ Z.of_nat digits)%Z in
      let n := round_half_even (mag * inject_Z scale) in
      let whole := string_of_N (Z.to_N (n / scale)) in
      let frac := pad_left digits (string_of_N (Z.to_N (n mod scale))) in
      (if neg then "-" else "") ++ whole ++
      match digits with O => "" | _ => "." ++ frac end
  end.

(** ** Python lists *)

(** [xs.append(x)], as the list it leaves. *)
Definition append {A : Type} (xs : list A) (x : A) : list A :=
  (xs ++ [x])%list.

(** [not xs]. *)
Definition is_empty {A : Type} (xs : list A) : bool :=
  match xs with
  | [] => true
  | _ :: _ => false
  end.

(** ** The engine *)

Section Engine.

Context {T : Type} `{PyNum T}.
Local Open Scope py_scope.

(** [np.clip(x, lo, hi)] is [minimum(maximum(x, lo), hi)]. With bounds that
    are numbers, a value below [lo] becomes [lo], a value above [hi] becomes
    [hi], and any other value is returned as it is: a NaN goes through and
    a zero within the bounds keeps its sign. *)
Definition np_maximum (a b : T) : T :=
  if a <? b then b else a.

Definition np_minimum (a b : T) : T :=
  if a >? b then b else a.

Definition np_clip (x lo hi : T) : T :=
  np_minimum (np_maximum x lo) hi.

Definition clamp01 (x : T) : T :=
  np_clip x (lit 0.0) (lit 1.0).

Definition score_systemic (age bmi : T) : T :=
  let age_r := clamp01 ((age - lit 30.0) / lit 15.0) in
  let bmi_r := clamp01 ((bmi - lit 22.0) / lit 18.0) in
  let sbs := lit 100.0 * (lit 0.55 * age_r + lit 0.45 * bmi_r) in
  np_clip sbs (lit 0) (lit 100).

Definition score_endometrial (emt_mm prog_ng_ml : T) : T :=
  let emt_r := clamp01 ((lit 7.0 - emt_mm) / lit 3.0) in
  let prog_r := clamp01 ((lit 9.5 - prog_ng_ml) / lit 6.0) in
  let eps := lit 100.0 * (lit 0.60 * emt_r + lit 0.40 * prog_r) in
  np_clip eps (lit 0) (lit 100).

Definition score_embryo (euploid good_grade : bool) : T :=
  let competence :=
    lit 0.70 * (if euploid then lit 1.0 else lit 0.0)
    + lit 0.30 * (if good_grade then lit 1.0 else lit 0.0) in
  let emb_r := lit 1.0 - clamp01 competence in
  let egs := lit 100.0 * emb_r in
  np_clip egs (lit 0) (lit 100).

Definition navigator_index (age bmi emt_mm prog_ng_ml : T)
    (euploid good_grade : bool) : T * T * T * T :=
  let sbs := score_systemic age bmi in
  let eps := score_endometrial emt_mm prog_ng_ml in
  let egs := score_embryo euploid good_grade in
  let gni := lit 0.45 * egs + lit 0.35 * eps + lit 0.20 * sbs in
  (sbs, eps, egs, np_clip gni (lit 0) (lit 100)).

Definition bucket (score : T) : string :=
  if score <? lit 30 then "Low"
  else if score <? lit 60 then "Moderate"
  else "High".

(** A dict literal, in insertion order. *)
Definition dict : Type := list (string * T).

Fixpoint get (d : dict) (k : string) : option T :=
  match d with
  | [] => None
  | (k', v) :: d' => if String.eqb k k' then Some v else get d' k
  end.

Definition keys (d : dict) : list string := map fst d.

(** [a > b] on the values [d.get] returns; every key scanned is in the dict. *)
Definition key_gt (a b : option T) : bool :=
  match a, b with
  | Some x, Some y => x >? y
  | _, _ => false
  end.

(** [max(xs, key=key)]: the running maximum is replaced only by an item whose
    key is strictly greater, so the first maximal item wins. *)
Fixpoint max_scan (key : string -> option T) (best : string)
    (rest : list string) : string :=
  match rest with
  | [] => best
  | k :: rest' =>
      max_scan key (if key_gt (key k) (key best) then k else best) rest'
  end.

Definition py_max (key : string -> option T) (xs : list string) : option string :=
  match xs with
  | [] => None
  | x :: xs' => Some (max_scan key x xs')
  end.

Definition primary_limiting_domain (sbs eps egs : T) : string :=
  let d := [("Embryo", egs); ("Endometrium", eps); ("Systemic", sbs)] in
  match py_max (get d) (keys d) with
  | Some k => k
  | None => ""
  end.

(** A section of the suggested path: a title and its bullets. *)
Definition section : Type := (string * list string)%type.

Definition embryo_gate (euploid : bool) : section :=
  if negb euploid then
    ("Primary focus: Embryo competence",
     [ "If PGT-A is available/appropriate, prioritize transferring a euploid embryo to reduce embryo-related uncertainty.";
       "If no euploid embryos are available, focus on optimizing stimulation strategy and embryo selection (lab + morphology).";
       "Consider deferring endometrial optimization steps until embryo competence is addressed." ])
  else
    ("Embryo gate passed (euploid = Yes)",
     [ "Proceed to endometrial and systemic optimization checks before transfer." ]).

Definition endo_actions (emt_mm prog_ng_ml : T) : list string :=
  let a := [] in
  let a :=
    if emt_mm <? lit 7.0 then
      append
        (append a
           ("Endometrium thickness is low (EMT " ++ format_f 1 emt_mm ++ " mm). Optimize endometrial preparation (standard protocol adjustments) before transfer."))
        "If thin endometrium persists, consider uterine cavity evaluation (e.g., sonohysterography/hysteroscopy) per clinic practice."
    else a in
  let a :=
    if prog_ng_ml <? lit 9.5 then
      append a
        ("Progesterone appears low (P4 " ++ format_f 1 prog_ng_ml ++ " ng/mL). Consider confirming progesterone on the day of transfer (or mid-luteal depending on protocol) and adjusting luteal support per clinic standards.")
    else a in
  if is_empty a then
    append a
      "Endometrial readiness markers (EMT and progesterone) look acceptable for proceeding within standard workflows."
  else a.

Definition sys_actions (age bmi : T) : list string :=
  let a := [] in
  let a :=
    if bmi >=? lit 30 then
      append a
        ("BMI is elevated (BMI " ++ format_f 1 bmi ++ "). Consider a pre-transfer optimization window focusing on weight, sleep, and activity—especially if repeated failures.")
    else if bmi >=? lit 27 then
      append a
        ("BMI is moderately elevated (BMI " ++ format_f 1 bmi ++ "). Lifestyle optimization may improve systemic environment before transfer.")
    else a in
  let a :=
    if age >=? lit 38 then
      append a
        ("Age is " ++ format_f 0 age ++ ". Consider prioritizing embryo genetics/selection and minimizing delays to transfer once readiness is confirmed.")
    else a in
  if is_empty a then
    append a
      "Systemic risk signals (age/BMI) are not strongly elevated; proceed with standard preparation."
  else a.

Definition summary (sbs eps egs gni : T) : section :=
  let dom := primary_limiting_domain sbs eps egs in
  ("NAVIGATOR summary path",
   [ "Global NAVIGATOR Index (0–100): " ++ format_f 1 gni ++ " → " ++ bucket gni ++ " overall risk";
     "Primary limiting domain: " ++ dom;
     "Suggested sequence: Address the primary limiting domain first, then re-check readiness and proceed to transfer." ]).

Definition suggest_path (age bmi emt_mm prog_ng_ml : T)
    (euploid good_grade : bool) (sbs eps egs gni : T) : list section :=
  let suggestions := [] in
  let suggestions := append suggestions (embryo_gate euploid) in
  let suggestions :=
    append suggestions
      ("Endometrial phenotype actions", endo_actions emt_mm prog_ng_ml) in
  let suggestions :=
    append suggestions ("Systemic biology actions", sys_actions age bmi) in
  append suggestions (summary sbs eps egs gni).

End Engine.

(** ** The clamp of the specification *)

(** The nearest point of [[lo, hi]]. *)
Definition clamped (x lo hi : Q) : Q := Qmax lo (Qmin x hi).

(** ** Binary64 values by their specification *)

Definition sf_nan (f : spec_float) : bool :=
  match f with S754_nan => true | _ => false end.

(** A zero or a finite value. *)
Definition SFfinite (f : spec_float) : bool :=
  match f with
  | S754_zero _ | S754_finite _ _ _ => true
  | _ => false
  end.

(** Powers of two with an integer exponent, and the rational [m * 2^e]. *)
Definition pow2 (e : Z) : Q := Qpower 2 e.

Definition val (m e : Z) : Q := (inject_Z m * pow2 e)%Q.

(** The rational a binary64 value denotes; 0 where it denotes none. *)
Definition SFval (f : spec_float) : Q :=
  match f with
  | S754_finite s m e => if s then (- val (Zpos m) e)%Q else val (Zpos m) e
  | _ => 0%Q
  end.

Definition value (x : float) : Q := SFval (Prim2SF x).

Definition finite (x : float) : bool := SFfinite (Prim2SF x).

(** Two positive finite values with the same exponent and consecutive
    mantissas: no binary64 value lies strictly between them. *)
Definition neighbours (lo hi : float) : bool :=
  match Prim2SF lo, Prim2SF hi with
  | S754_finite false m e, S754_finite false m' e' =>
      Pos.eqb (Pos.succ m) m' && Z.eqb e e'
  | _, _ => false
  end.

(** A literal that is a positive finite value. *)
Definition positive_literal (c : float) : Prop :=
  exists m e, Prim2SF c = S754_finite false m e.

(** A binary64 score: a number within [[0, 100]]. *)
Definition score (s : float) : Prop :=
  PrimFloat.leb 0 s = true /\ PrimFloat.leb s 100 = true.

(** *** Rounding to nearest, ties to even *)

(** [locates y m l]: the integer [m] is the floor of the rational [y], and
    [l] tells where [y] sits between [m] and [m + 1]. *)
Definition locates (y : Q) (m : Z) (l : location) : Prop :=
  match l with
  | loc_Exact => (y == inject_Z m)%Q
  | loc_Inexact Lt => (inject_Z m < y /\ y < inject_Z m + (1 # 2))%Q
  | loc_Inexact Eq => (y == inject_Z m + (1 # 2))%Q
  | loc_Inexact Gt => (inject_Z m + (1 # 2) < y /\ y < inject_Z m + 1)%Q
  end.

Definition locates_record (y : Q) (mrs : shr_record) : Prop :=
  locates y (shr_m mrs) (loc_of_shr_record mrs).

(** The exponent at which binary64 rounds a non-negative rational: that of
    the subnormal numbers below 2^-1021, and 52 below the leading bit
    above. *)
Definition round_exp (x : Q) (E : Z) : Prop :=
  (E = (-1074)%Z /\ (x < pow2 (-1021))%Q) \/
  ((-1074 < E)%Z /\ (pow2 (E + 52) <= x)%Q /\ (x < pow2 (E + 53))%Q).

(** What [binary_round_aux] returns for the rounded mantissa [k] at the
    exponent [E]: a zero, the value [k * 2^E], or an infinity when that
    value is 2^1024 or more. *)
Definition outcome (s : bool) (k E : Z) (r : spec_float) : Prop :=
  (k = 0%Z /\ r = S754_zero s) \/
  ((0 < k)%Z /\
   ((r = S754_infinity s /\ (pow2 1024 <= val k E)%Q) \/
    exists m e, r = S754_finite s m e /\ (val (Zpos m) e == val k E)%Q)).

(** [rounds s x r]: [r] is the binary64 rounding, with the sign [s], of the
    magnitude [x]. *)
Definition rounds (s : bool) (x : Q) (r : spec_float) : Prop :=
  exists E m l,
    round_exp x E /\ (0 <= m)%Z /\ locates (x * pow2 (- E)) m l /\
    outcome s (round_nearest_even m l) E r.

(** [rounds_to x r]: [r] is the binary64 rounding of the rational [x]. *)
Definition rounds_to (x : Q) (r : spec_float) : Prop :=
  ((0 < x)%Q /\ rounds false x r) \/
  ((x < 0)%Q /\ rounds true (- x) r) \/
  ((x == 0)%Q /\ exists s, r = S754_zero s).

(** ** The script around the engine *)

(** The script computes the four scores and hands them, with the raw inputs,
    to [suggest_path]. *)
Definition run {T : Type} `{PyNum T} (age bmi emt_mm prog_ng_ml : T)
    (euploid good_grade : bool) : list section :=
  let '(sbs, eps, egs, gni) :=
    navigator_index age bmi emt_mm prog_ng_ml euploid good_grade in
  suggest_path age bmi emt_mm prog_ng_ml euploid good_grade sbs eps egs gni.

(** ** Vocabulary of the further properties *)

(** The buckets in their order of severity. *)
Definition bucket_rank (b : string) : nat :=
  if String.eqb b "Low" then 0
  else if String.eqb b "Moderate" then 1
  else 2.

(** A bullet of the systemic section that reports the BMI. *)
Definition is_bmi_bullet (b : string) : bool := String.prefix "BMI is " b.

Definition count_bmi_bullets (bullets : list string) : nat :=
  List.length (filter is_bmi_bullet bullets).

(** ** The scan of [primary_limiting_domain], at any number type *)

Lemma primary_limiting_domain_scan {T : Type} `{PyNum T} (sbs eps egs : T) :
  primary_limiting_domain sbs eps egs =
  if lt egs eps
  then (if lt eps sbs then "Systemic" else "Endometrium")
  else (if lt egs sbs then "Systemic" else "Embryo").
Proof.
  unfold primary_limiting_domain, py_max, keys. cbn.
  destruct (lt egs eps); cbn; reflexivity.
Qed.

(** ** What the order laws give, at any number type *)

Ltac split_hyps :=
  repeat match goal with Hc : _ /\ _ |- _ => destruct Hc end.

Section Ordered.

Context {T : Type} `{PyOrd T}.

Lemma num_lt_irrefl (a : T) : lt a a = false.
Proof.
  destruct (lt a a) eqn:E; [ | reflexivity ].
  pose proof (num_lt_le _ _ E) as Hle. pose proof (num_lt_asym _ _ E) as Hnle.
  congruence.
Qed.

Lemma num_le_refl (a : T) : isnan a = false -> le a a = true.
Proof.
  intro Ha. apply num_le_total; [ assumption | assumption | apply num_lt_irrefl ].
Qed.

Lemma le_lt_false (a b : T) : le a b = true -> lt b a = false.
Proof.
  intro Hle. destruct (lt b a) eqn:E; [ | reflexivity ].
  apply num_lt_asym in E. congruence.
Qed.

Lemma le_lt_trans (a b c : T) :
  le a b = true -> lt b c = true -> lt a c = true.
Proof.
  intros Hab Hbc. destruct (lt a c) eqn:E; [ reflexivity | exfalso ].
  destruct (num_le_number _ _ Hab) as [Ha _].
  destruct (num_le_number _ _ (num_lt_le _ _ Hbc)) as [_ Hc].
  pose proof (num_le_total _ _ Ha Hc E) as Hca.
  pose proof (num_le_trans _ _ _ Hca Hab) as Hcb.
  apply num_lt_asym in Hbc. congruence.
Qed.

Lemma lt_le_trans (a b c : T) :
  lt a b = true -> le b c = true -> lt a c = true.
Proof.
  intros Hab Hbc. destruct (lt a c) eqn:E; [ reflexivity | exfalso ].
  destruct (num_le_number _ _ (num_lt_le _ _ Hab)) as [Ha _].
  destruct (num_le_number _ _ Hbc) as [_ Hc].
  pose proof (num_le_total _ _ Ha Hc E) as Hca.
  pose proof (num_le_trans _ _ _ Hbc Hca) as Hba.
  apply num_lt_asym in Hab. congruence.
Qed.

(** No comparison with a NaN holds. *)
Lemma nan_lt_false (a b : T) :
  isnan a = true -> lt a b = false /\ lt b a = false.
Proof.
  intro Ha. split.
  - destruct (lt a b) eqn:E; [ | reflexivity ].
    destruct (num_le_number _ _ (num_lt_le _ _ E)). congruence.
  - destruct (lt b a) eqn:E; [ | reflexivity ].
    destruct (num_le_number _ _ (num_lt_le _ _ E)). congruence.
Qed.

(** A NaN goes through the clip. *)
Lemma np_clip_nan (x lo hi : T) : isnan x = true -> np_clip x lo hi = x.
Proof.
  intro Hx. unfold np_clip, np_maximum, np_minimum.
  destruct (nan_lt_false x lo Hx) as [-> _].
  destruct (nan_lt_false x hi Hx) as [_ ->]. reflexivity.
Qed.

(** The clip of a number lands in [[lo, hi]]. *)
Lemma np_clip_between (x lo hi : T) :
  isnan x = false -> le lo hi = true ->
  le lo (np_clip x lo hi) = true /\ le (np_clip x lo hi) hi = true.
Proof.
  intros Hx Hlh. destruct (num_le_number _ _ Hlh) as [Hlo Hhi].
  unfold np_clip, np_maximum, np_minimum.
  destruct (lt x lo) eqn:E1.
  - rewrite (le_lt_false _ _ Hlh).
    split; [ apply num_le_refl | ]; assumption.
  - pose proof (num_le_total _ _ Hx Hlo E1) as Hge.
    destruct (lt hi x) eqn:E2.
    + split; [ assumption | apply num_le_refl; assumption ].
    + split; [ assumption | apply num_le_total; assumption ].
Qed.

(** The clip returns its argument or one of the bounds. *)
Lemma np_clip_cases (x lo hi : T) :
  le lo hi = true ->
  (lt x lo = true /\ np_clip x lo hi = lo) \/
  (lt x lo = false /\ lt hi x = true /\ np_clip x lo hi = hi) \/
  (lt x lo = false /\ lt hi x = false /\ np_clip x lo hi = x).
Proof.
  intro Hlh. unfold np_clip, np_maximum, np_minimum.
  destruct (lt x lo) eqn:E1.
  - left. rewrite (le_lt_false _ _ Hlh). auto.
  - right. destruct (lt hi x) eqn:E2; auto.
Qed.

(** The clip is non-decreasing. *)
Lemma np_clip_le (x y lo hi : T) :
  isnan lo = false -> isnan hi = false -> le x y = true ->
  le (np_clip x lo hi) (np_clip y lo hi) = true.
Proof.
  intros Hlo Hhi Hxy. destruct (num_le_number _ _ Hxy) as [Hx Hy].
  unfold np_clip.
  assert (Hmax : le (np_maximum x lo) (np_maximum y lo) = true).
  { unfold np_maximum.
    destruct (lt x lo) eqn:E1, (lt y lo) eqn:E2.
    - apply num_le_refl, Hlo.
    - apply num_le_total; assumption.
    - rewrite (le_lt_trans _ _ _ Hxy E2) in E1. discriminate.
    - exact Hxy. }
  destruct (num_le_number _ _ Hmax) as [Hx' Hy'].
  set (x' := np_maximum x lo) in *. set (y' := np_maximum y lo) in *.
  unfold np_minimum.
  destruct (lt hi x') eqn:E1, (lt hi y') eqn:E2.
  - apply num_le_refl, Hhi.
  - rewrite (lt_le_trans _ _ _ E1 Hmax) in E2. discriminate.
  - apply num_le_total; assumption.
  - exact Hmax.
Qed.

(** The domain returned carries a greatest score, and the first such in the
    order Embryo, Endometrium, Systemic. *)
Lemma primary_limiting_domain_max (sbs eps egs : T) :
  isnan sbs = false -> isnan eps = false -> isnan egs = false ->
  let dom := primary_limiting_domain sbs eps egs in
  (dom = "Embryo" /\ le eps egs = true /\ le sbs egs = true) \/
  (dom = "Endometrium" /\ lt egs eps = true /\ le sbs eps = true) \/
  (dom = "Systemic" /\ lt egs sbs = true /\ lt eps sbs = true).
Proof.
  intros Hs Hp He dom. subst dom. rewrite primary_limiting_domain_scan.
  destruct (lt egs eps) eqn:E1; destruct (lt _ sbs) eqn:E2.
  - right; right. repeat split.
    destruct (lt egs sbs) eqn:E3; [ reflexivity | exfalso ].
    apply num_le_total in E3; [ | assumption | assumption ].
    pose proof (num_le_trans _ _ _ (num_lt_le _ _ E2) E3) as Hpe.
    apply num_lt_asym in E1. congruence.
  - right; left. repeat split. apply num_le_total; assumption.
  - right; right. repeat split.
    destruct (lt eps sbs) eqn:E3; [ reflexivity | exfalso ].
    apply num_le_total in E3; [ | assumption | assumption ].
    apply num_le_total in E1; [ | assumption | assumption ].
    pose proof (num_le_trans _ _ _ E3 E1) as Hse.
    apply num_lt_asym in E2. congruence.
  - left. repeat split; apply num_le_total; assumption.
Qed.

(** The three bands of [bucket], by the code's own comparisons. *)
Lemma bucket_bands (s : T) :
  isnan s = false -> lt (lit 30) (lit 60) = true ->
  (bucket s = "Low" <-> lt s (lit 30) = true) /\
  (bucket s = "Moderate" <-> le (lit 30) s = true /\ lt s (lit 60) = true) /\
  (bucket s = "High" <-> le (lit 60) s = true).
Proof.
  intros Hs Hlit.
  destruct (num_le_number _ _ (num_lt_le _ _ Hlit)) as [H30 H60].
  assert (Hbelow : lt s (lit 30) = true -> le (lit 60) s = false).
  { intro Hlt. destruct (le (lit 60) s) eqn:E; [ exfalso | reflexivity ].
    pose proof (num_le_trans _ _ _ E (num_lt_le _ _ Hlt)) as Hle.
    apply num_lt_asym in Hlit. congruence. }
  unfold bucket.
  destruct (lt s (lit 30)) eqn:E1; [ | destruct (lt s (lit 60)) eqn:E2 ].
  - specialize (Hbelow eq_refl). apply num_lt_asym in E1.
    repeat split; intros; try reflexivity; try discriminate;
      try (split_hyps; congruence); congruence.
  - pose proof (num_le_total _ _ Hs H30 E1) as Hge. pose proof (num_lt_asym _ _ E2).
    repeat split; intros; try reflexivity; try assumption; try discriminate;
      congruence.
  - pose proof (num_le_total _ _ Hs H60 E2) as Hge.
    repeat split; intros; try reflexivity; try assumption; try discriminate;
      try (split_hyps; congruence).
Qed.

End Ordered.

(** ** Exact arithmetic: the comparisons and the clip *)

Module Exact.

Local Open Scope Q_scope.

Lemma Qlt_bool_iff (x y : Q) : Qlt_bool x y = true <-> x < y.
Proof.
  unfold Qlt_bool. rewrite negb_true_iff.
  split; intro Hxy.
  - apply Qnot_le_lt. intro Hle. apply Qle_bool_iff in Hle. congruence.
  - destruct (Qle_bool y x) eqn:E; [ | reflexivity ].
    apply Qle_bool_iff in E. apply Qle_not_lt in E. contradiction.
Qed.

Lemma Qlt_bool_false_iff (x y : Q) : Qlt_bool x y = false <-> y <= x.
Proof.
  unfold Qlt_bool. rewrite negb_false_iff. apply Qle_bool_iff.
Qed.

Lemma Qle_bool_false_iff (x y : Q) : Qle_bool x y = false <-> y < x.
Proof.
  rewrite <- Qlt_bool_iff. unfold Qlt_bool.
  destruct (Qle_bool x y); simpl; intuition congruence.
Qed.

(** The comparisons of the source as propositions. *)
Ltac py_cmp :=
  repeat match goal with
  | H : Qlt_bool _ _ = true |- _ => apply Qlt_bool_iff in H
  | H : Qlt_bool _ _ = false |- _ => apply Qlt_bool_false_iff in H
  | H : Qle_bool _ _ = true |- _ => apply Qle_bool_iff in H
  | H : Qle_bool _ _ = false |- _ => apply Qle_bool_false_iff in H
  end.

(** Case analysis on every comparison the goal branches on, innermost first. *)
Ltac py_plain t :=
  lazymatch t with
  | context [ Qlt_bool _ _ ] => fail
  | context [ Qle_bool _ _ ] => fail
  | _ => idtac
  end.

Ltac py_case :=
  match goal with
  | |- context [ Qlt_bool ?a ?b ] =>
      py_plain a; py_plain b; destruct (Qlt_bool a b) eqn:?
  | |- context [ Qle_bool ?a ?b ] =>
      py_plain a; py_plain b; destruct (Qle_bool a b) eqn:?
  end.

Ltac py_cases := repeat (py_case; cbv beta iota); py_cmp.

(** Linear arithmetic; a division by a literal becomes a product first. *)
Ltac qlra := unfold Qdiv in *; cbn [Qinv Qnum Qden] in *; lra.

Ltac py_unfold :=
  unfold np_clip, np_minimum, np_maximum, isnan;
  cbn [add sub mul div lt le lit shape_of PyNum_Q].

Lemma np_clip_bounds (x lo hi : Q) :
  lo <= hi -> lo <= np_clip x lo hi <= hi.
Proof.
  intro Hlh. py_unfold. py_cases; split; lra.
Qed.

Lemma np_clip_mono (x y lo hi : Q) :
  x <= y -> np_clip x lo hi <= np_clip y lo hi.
Proof.
  intro Hxy. py_unfold. py_cases; lra.
Qed.

Lemma np_clip_id (x lo hi : Q) :
  lo <= x <= hi -> np_clip x lo hi == x.
Proof.
  intros [Hl Hh]. py_unfold. py_cases; lra.
Qed.

#[global] Instance PyOrd_Q : PyOrd Q.
Proof.
  split; cbn [lt le PyNum_Q]; intros.
  - py_cmp. apply Qle_bool_iff. lra.
  - py_cmp. apply Qle_bool_false_iff. lra.
  - py_cmp. apply Qle_bool_iff. lra.
  - py_cmp. apply Qle_bool_iff. lra.
  - split; reflexivity.
Qed.

Lemma clamp01_bounds (x : Q) : 0 <= clamp01 x <= 1.
Proof.
  unfold clamp01. cbn [lit PyNum_Q].
  pose proof (np_clip_bounds x 0.0 1.0) as Hb. lra.
Qed.

Lemma clamp01_mono (x y : Q) : x <= y -> clamp01 x <= clamp01 y.
Proof.
  unfold clamp01. apply np_clip_mono.
Qed.

Lemma np_clip_clamped (x lo hi : Q) :
  lo <= hi -> np_clip x lo hi == clamped x lo hi.
Proof.
  intro Hlh. unfold clamped.
  destruct (Q.min_spec x hi) as [[? Hm] | [? Hm]];
  destruct (Q.max_spec lo (Qmin x hi)) as [[? HM] | [? HM]];
  py_unfold; py_cases; lra.
Qed.

(** *** The domain scores before and after their final clip *)

Lemma score_systemic_range (age bmi : Q) : 0 <= score_systemic age bmi <= 100.
Proof.
  unfold score_systemic. cbn [lit PyNum_Q]. apply np_clip_bounds. lra.
Qed.

Lemma score_endometrial_range (emt_mm prog_ng_ml : Q) :
  0 <= score_endometrial emt_mm prog_ng_ml <= 100.
Proof.
  unfold score_endometrial. cbn [lit PyNum_Q]. apply np_clip_bounds. lra.
Qed.

Lemma score_embryo_range (euploid good_grade : bool) :
  0 <= score_embryo (T := Q) euploid good_grade <= 100.
Proof.
  unfold score_embryo. cbn [lit PyNum_Q]. apply np_clip_bounds. lra.
Qed.

(** The weighted sum of three scores of [[0, 100]] stays between the least
    and the greatest of them. *)
Lemma weighted_between (sbs eps egs lo hi : Q) :
  lo <= sbs <= hi -> lo <= eps <= hi -> lo <= egs <= hi ->
  lo <= 0.45 * egs + 0.35 * eps + 0.20 * sbs <= hi.
Proof.
  intros. lra.
Qed.

(** The four values of [navigator_index] lie in [[0, 100]]. *)
Lemma navigator_index_range_exact :
  forall (age bmi emt_mm prog_ng_ml : Q) (euploid good_grade : bool),
    let '(sbs, eps, egs, gni) :=
      navigator_index age bmi emt_mm prog_ng_ml euploid good_grade in
    (0 <= sbs <= 100) /\ (0 <= eps <= 100) /\
    (0 <= egs <= 100) /\ (0 <= gni <= 100).
Proof.
  intros age bmi emt_mm prog_ng_ml euploid good_grade.
  unfold navigator_index.
  split; [ apply score_systemic_range | ].
  split; [ apply score_endometrial_range | ].
  split; [ apply score_embryo_range | ].
  apply (np_clip_bounds _ 0 100). lra.
Qed.


(** *** Monotonicity of the two measured scores *)

Lemma score_systemic_mono (age1 age2 bmi1 bmi2 : Q) :
  age1 <= age2 -> bmi1 <= bmi2 ->
  score_systemic age1 bmi1 <= score_systemic age2 bmi2.
Proof.
  intros Ha Hb. unfold score_systemic.
  apply np_clip_mono. cbn [add sub mul div lit PyNum_Q].
  assert (clamp01 ((age1 - 30.0) / 15.0) <= clamp01 ((age2 - 30.0) / 15.0))
    by (apply clamp01_mono; qlra).
  assert (clamp01 ((bmi1 - 22.0) / 18.0) <= clamp01 ((bmi2 - 22.0) / 18.0))
    by (apply clamp01_mono; qlra).
  lra.
Qed.

Lemma score_endometrial_anti (emt1 emt2 prog1 prog2 : Q) :
  emt1 <= emt2 -> prog1 <= prog2 ->
  score_endometrial emt2 prog2 <= score_endometrial emt1 prog1.
Proof.
  intros Ha Hb. unfold score_endometrial.
  apply np_clip_mono. cbn [add sub mul div lit PyNum_Q].
  assert (clamp01 ((7.0 - emt2) / 3.0) <= clamp01 ((7.0 - emt1) / 3.0))
    by (apply clamp01_mono; qlra).
  assert (clamp01 ((9.5 - prog2) / 6.0) <= clamp01 ((9.5 - prog1) / 6.0))
    by (apply clamp01_mono; qlra).
  lra.
Qed.

(** The domain returned carries the greatest score, ties in scan order. *)
Lemma primary_limiting_domain_exact :
  forall sbs eps egs : Q,
    let dom := primary_limiting_domain sbs eps egs in
    let top := Qmax (Qmax egs eps) sbs in
    ((dom = "Embryo" /\ egs == top) \/
     (dom = "Endometrium" /\ eps == top) \/
     (dom = "Systemic" /\ sbs == top)) /\
    (dom = "Embryo" <-> eps <= egs /\ sbs <= egs) /\
    (dom = "Endometrium" <-> egs < eps /\ sbs <= eps) /\
    (dom = "Systemic" <-> egs < sbs /\ eps < sbs).
Proof.
  intros sbs eps egs dom top. subst dom top.
  rewrite primary_limiting_domain_scan. cbn [lt PyNum_Q].
  destruct (Q.max_spec egs eps) as [[? Ha] | [? Ha]];
  destruct (Q.max_spec (Qmax egs eps) sbs) as [[? Hb] | [? Hb]];
  py_cases;
  (split;
   [ | repeat split; intros;
       repeat match goal with Hc : _ /\ _ |- _ => destruct Hc end;
       try split;
       first [ discriminate | reflexivity | lra | exfalso; lra ] ]);
  first [ left; split; [ reflexivity | lra ]
        | right; left; split; [ reflexivity | lra ]
        | right; right; split; [ reflexivity | lra ]
        | exfalso; lra ].
Qed.

End Exact.

(** ** Binary64: literals and order laws *)

Module Binary64.

Local Open Scope float_scope.

(** Every numeric literal of the engine, read through [lit], is the binary64
    value that the literal denotes. *)
Lemma lit_values :
  map (lit (T := float))
    [0.0; 1.0; 30.0; 15.0; 22.0; 18.0; 100.0; 0.55; 0.45; 7.0; 3.0; 9.5; 6.0;
     0.60; 0.40; 0.70; 0.30; 0.35; 0.20; 0; 100; 30; 60; 27; 38]%Q =
    [0.0; 1.0; 30.0; 15.0; 22.0; 18.0; 100.0; 0.55; 0.45; 7.0; 3.0; 9.5; 6.0;
     0.60; 0.40; 0.70; 0.30; 0.35; 0.20; 0; 100; 30; 60; 27; 38].
Proof. reflexivity. Qed.

(** Two binary64 values that differ. *)
Lemma float_neq (x y : float) : Prim2SF x <> Prim2SF y -> x <> y.
Proof. intros Hsf Hxy. apply Hsf. rewrite Hxy. reflexivity. Qed.

Lemma isnan_float (x : float) : isnan x = sf_nan (Prim2SF x).
Proof.
  unfold isnan. cbn [shape_of PyNum_float]. unfold float_shape.
  destruct (Prim2SF x); reflexivity.
Qed.

(** *** The comparisons *)

Local Open Scope Z_scope.

Ltac compare_cases :=
  change (Pos.compare_cont Eq) with Pos.compare in *;
  repeat match goal with
  | H : context [ Z.compare ?x ?y ] |- _ => destruct (Z.compare_spec x y)
  | |- context [ Z.compare ?x ?y ] => destruct (Z.compare_spec x y)
  | H : context [ Pos.compare ?x ?y ] |- _ => destruct (Pos.compare_spec x y)
  | |- context [ Pos.compare ?x ?y ] => destruct (Pos.compare_spec x y)
  end.

Lemma SFleb_trans (a b c : spec_float) :
  SFleb a b = true -> SFleb b c = true -> SFleb a c = true.
Proof.
  unfold SFleb, SFcompare.
  destruct a as [sa|sa| |sa ma ea], b as [sb|sb| |sb mb eb],
           c as [sc|sc| |sc mc ec];
    try destruct sa; try destruct sb; try destruct sc;
    try discriminate; try reflexivity; intros Hab Hbc;
    compare_cases; simpl in *; try discriminate; try reflexivity; lia.
Qed.

Lemma SFltb_leb (a b : spec_float) : SFltb a b = true -> SFleb a b = true.
Proof.
  unfold SFltb, SFleb.
  destruct (SFcompare a b) as [[ | | ]|]; try discriminate; reflexivity.
Qed.

Lemma SFcompare_swap (a b : spec_float) :
  SFcompare b a =
  match SFcompare a b with Some c => Some (CompOpp c) | None => None end.
Proof.
  unfold SFcompare.
  destruct a as [sa|sa| |sa ma ea], b as [sb|sb| |sb mb eb];
    try destruct sa; try destruct sb; try reflexivity;
    rewrite (Z.compare_antisym ea eb);
    destruct (ea ?= eb); simpl; try reflexivity;
    change (Pos.compare_cont Eq) with Pos.compare;
    rewrite (Pos.compare_antisym ma mb);
    destruct (ma ?= mb)%positive; reflexivity.
Qed.

Lemma SFltb_asym (a b : spec_float) : SFltb a b = true -> SFleb b a = false.
Proof.
  unfold SFltb, SFleb. rewrite (SFcompare_swap a b).
  destruct (SFcompare a b) as [[ | | ]|]; try discriminate; reflexivity.
Qed.

Lemma SFcompare_numbers (a b : spec_float) :
  sf_nan a = false -> sf_nan b = false -> SFcompare a b <> None.
Proof.
  destruct a, b; simpl; intros; try discriminate.
Qed.

Lemma SFleb_total (a b : spec_float) :
  sf_nan a = false -> sf_nan b = false ->
  SFltb a b = false -> SFleb b a = true.
Proof.
  intros Ha Hb. pose proof (SFcompare_numbers a b Ha Hb) as Hc.
  unfold SFltb, SFleb. rewrite (SFcompare_swap a b).
  destruct (SFcompare a b) as [[ | | ]|]; try discriminate; try reflexivity.
  contradiction.
Qed.

Lemma SFleb_numbers (a b : spec_float) :
  SFleb a b = true -> sf_nan a = false /\ sf_nan b = false.
Proof.
  unfold SFleb, SFcompare.
  destruct a, b; try discriminate; split; reflexivity.
Qed.

#[global] Instance PyOrd_float : PyOrd float.
Proof.
  split; cbn [lt le PyNum_float]; intros a b.
  - rewrite ltb_spec, leb_spec. apply SFltb_leb.
  - rewrite ltb_spec, leb_spec. apply SFltb_asym.
  - rewrite !isnan_float, ltb_spec, leb_spec. apply SFleb_total.
  - intro c. rewrite !leb_spec. apply SFleb_trans.
  - rewrite !isnan_float, leb_spec. apply SFleb_numbers.
Qed.

Local Close Scope Z_scope.

End Binary64.

(** ** Binary64 arithmetic: correctly rounded, hence monotone

    [binary_round_aux], through which every operation of the specification
    rounds its exact result, is characterised on the rationals: the value it
    returns is the nearest multiple of 2^E to the exact result, where E is
    fixed by the magnitude of that result. Monotonicity of each operation
    and the half-ulp error bound follow. *)

Module Rounding.

Import Binary64.

Local Open Scope Z_scope.

Lemma pow2_pos (e : Z) : (0 < pow2 e)%Q.
Proof. apply Qpower_0_lt. reflexivity. Qed.

Lemma pow2_add (a b : Z) : (pow2 (a + b) == pow2 a * pow2 b)%Q.
Proof. apply Qpower_plus. discriminate. Qed.

Lemma pow2_le (a b : Z) : a <= b -> (pow2 a <= pow2 b)%Q.
Proof. intro H. apply Qpower_le_compat_l; [ exact H | discriminate ]. Qed.

Lemma pow2_lt (a b : Z) : a < b -> (pow2 a < pow2 b)%Q.
Proof. intro H. apply Qpower_lt_compat_l; [ exact H | reflexivity ]. Qed.

Lemma pow2_lt_inv (a b : Z) : (pow2 a < pow2 b)%Q -> a < b.
Proof. intro H. apply (Qpower_lt_compat_l_inv 2); [ exact H | reflexivity ]. Qed.

Lemma pow2_Z (n : Z) : 0 <= n -> (pow2 n == inject_Z (2 ^ n))%Q.
Proof. intro H. symmetry. apply (Zpower_Qpower 2 n H). Qed.

Lemma pow2_opp (e : Z) : (pow2 (- e) * pow2 e == 1)%Q.
Proof. rewrite <- pow2_add. replace (- e + e) with 0 by lia. reflexivity. Qed.

Lemma pow2_succ (e : Z) : (pow2 (e + 1) == 2 * pow2 e)%Q.
Proof. rewrite pow2_add. change (pow2 1) with 2%Q. ring. Qed.

Lemma pow2_pred (e : Z) : (2 * pow2 (e - 1) == pow2 e)%Q.
Proof. rewrite <- pow2_succ. replace (e - 1 + 1) with e by lia. reflexivity. Qed.

Lemma val_shift (m e k : Z) : 0 <= k -> (val (m * 2 ^ k) e == val m (e + k))%Q.
Proof.
  intro Hk. unfold val. rewrite inject_Z_mult, <- (pow2_Z k Hk), pow2_add. ring.
Qed.

Lemma val_le (m1 m2 e : Z) : m1 <= m2 -> (val m1 e <= val m2 e)%Q.
Proof.
  intro H. unfold val. apply Qmult_le_compat_r.
  - rewrite <- Zle_Qle. exact H.
  - apply Qlt_le_weak, pow2_pos.
Qed.

Lemma val_le_inv (m1 m2 e : Z) : (val m1 e <= val m2 e)%Q -> m1 <= m2.
Proof.
  unfold val. intro H. apply Qmult_le_r in H; [ | apply pow2_pos ].
  rewrite Zle_Qle. exact H.
Qed.

Lemma val_lt (m1 m2 e : Z) : m1 < m2 -> (val m1 e < val m2 e)%Q.
Proof.
  intro H. unfold val. apply Qmult_lt_compat_r; [ apply pow2_pos | ].
  rewrite <- Zlt_Qlt. exact H.
Qed.

Lemma val_pow2 (n e : Z) : 0 <= n -> (val (2 ^ n) e == pow2 (n + e))%Q.
Proof. intro Hn. unfold val. rewrite <- (pow2_Z n Hn), pow2_add. reflexivity. Qed.

(** The number of binary digits. *)
Lemma digits2_pos_bounds (p : positive) :
  2 ^ (Zpos (digits2_pos p) - 1) <= Zpos p < 2 ^ Zpos (digits2_pos p).
Proof.
  induction p as [p IH|p IH| ]; cbn [digits2_pos].
  - rewrite Pos2Z.inj_succ. unfold Z.succ.
    replace (Zpos (digits2_pos p) + 1 - 1) with (Zpos (digits2_pos p) - 1 + 1) by lia.
    rewrite !Z.pow_add_r by lia. change (2 ^ 1) with 2. lia.
  - rewrite Pos2Z.inj_succ. unfold Z.succ.
    replace (Zpos (digits2_pos p) + 1 - 1) with (Zpos (digits2_pos p) - 1 + 1) by lia.
    rewrite !Z.pow_add_r by lia. change (2 ^ 1) with 2. lia.
  - cbn. lia.
Qed.

(** ** Locations *)


Lemma locates_floor (y : Q) (m : Z) (l : location) :
  locates y m l -> (inject_Z m <= y /\ y < inject_Z m + 1)%Q.
Proof.
  destruct l as [ | [ | | ] ]; simpl; intro H; lra.
Qed.

Lemma locates_proper (y y' : Q) (m : Z) (l : location) :
  (y == y')%Q -> locates y m l -> locates y' m l.
Proof.
  intros He. destruct l as [ | [ | | ] ]; simpl; rewrite He; auto.
Qed.

Lemma locates_record_of_loc (y : Q) (m : Z) (l : location) :
  locates y m l -> locates_record y (shr_record_of_loc m l).
Proof. destruct l as [ | [ | | ] ]; simpl; auto. Qed.

Lemma inject_Z_xO (p : positive) : (inject_Z (Zpos p~0) == 2 * inject_Z (Zpos p))%Q.
Proof. change (Zpos p~0) with (2 * Zpos p). rewrite inject_Z_mult. reflexivity. Qed.

Lemma inject_Z_xI (p : positive) : (inject_Z (Zpos p~1) == 2 * inject_Z (Zpos p) + 1)%Q.
Proof.
  change (Zpos p~1) with (2 * Zpos p + 1). rewrite inject_Z_plus, inject_Z_mult.
  reflexivity.
Qed.

(** One shift to the right halves the value located. *)
Lemma shr_1_locates (y : Q) (mrs : shr_record) :
  0 <= shr_m mrs -> locates_record y mrs ->
  locates_record (y * (1 # 2)) (shr_1 mrs).
Proof.
  destruct mrs as [m r s]. unfold locates_record. cbn [shr_m].
  intros Hm H.
  destruct m as [ | [p|p| ] | p ]; [ | | | | lia ];
    destruct r, s; cbn in *;
    try rewrite inject_Z_xO in H; try rewrite inject_Z_xI in H;
    change (inject_Z 0) with 0%Q in *; change (inject_Z 1) with 1%Q in *;
    lra.
Qed.

Lemma iter_shr_1_nonneg (n : positive) (mrs : shr_record) :
  0 <= shr_m mrs -> 0 <= shr_m (SpecFloat.iter_pos shr_1 n mrs).
Proof.
  revert mrs. induction n as [n IH|n IH| ]; intros mrs Hm; simpl.
  - apply IH, IH. destruct mrs as [m r s], m as [ | [p|p| ] | p ]; simpl in *; lia.
  - apply IH, IH, Hm.
  - destruct mrs as [m r s], m as [ | [p|p| ] | p ]; simpl in *; lia.
Qed.

Lemma iter_shr_1_locates (n : positive) :
  forall (y : Q) (mrs : shr_record),
    0 <= shr_m mrs -> locates_record y mrs ->
    locates_record (y * pow2 (- Zpos n)) (SpecFloat.iter_pos shr_1 n mrs).
Proof.
  induction n as [n IH|n IH| ]; intros y mrs Hm H; cbn [SpecFloat.iter_pos].
  - apply (shr_1_locates y mrs Hm) in H.
    assert (Hm1 : 0 <= shr_m (shr_1 mrs))
      by (destruct mrs as [m r s], m as [ | [p|p| ] | p ]; simpl in *; lia).
    apply (IH _ _ Hm1) in H.
    apply (IH _ _ (iter_shr_1_nonneg n _ Hm1)) in H.
    eapply locates_proper; [ | exact H ].
    replace (- Zpos n~1) with (- Zpos n + (- Zpos n + -1)) by lia.
    rewrite !pow2_add. change (pow2 (-1)) with (1 # 2)%Q. ring.
  - apply (IH _ _ Hm) in H.
    apply (IH _ _ (iter_shr_1_nonneg n _ Hm)) in H.
    eapply locates_proper; [ | exact H ].
    replace (- Zpos n~0) with (- Zpos n + - Zpos n) by lia.
    rewrite !pow2_add. ring.
  - apply (shr_1_locates y mrs Hm) in H. exact H.
Qed.

(** ** Rounding to nearest, ties to even *)


Lemma round_nearest_even_floor (m : Z) (l : location) :
  m <= round_nearest_even m l <= m + 1.
Proof.
  destruct l as [ | [ | | ] ]; cbn [round_nearest_even];
    try destruct (Z.even m); lia.
Qed.

Lemma inject_Z_lt_succ (m n : Z) :
  (inject_Z m < inject_Z n + 1)%Q -> m <= n.
Proof.
  intro H. change 1%Q with (inject_Z 1) in H.
  rewrite <- inject_Z_plus, <- Zlt_Qlt in H. lia.
Qed.

Lemma round_nearest_even_mono (y1 y2 : Q) (m1 m2 : Z) (l1 l2 : location) :
  locates y1 m1 l1 -> locates y2 m2 l2 -> (y1 <= y2)%Q ->
  round_nearest_even m1 l1 <= round_nearest_even m2 l2.
Proof.
  intros H1 H2 Hy.
  pose proof (locates_floor _ _ _ H1) as F1.
  pose proof (locates_floor _ _ _ H2) as F2.
  assert (Hm : m1 <= m2) by (apply inject_Z_lt_succ; lra).
  pose proof (round_nearest_even_floor m1 l1) as R1.
  pose proof (round_nearest_even_floor m2 l2) as R2.
  destruct (Z.eq_dec m1 m2) as [-> | Hne]; [ | lia ].
  destruct l1 as [ | [ | | ] ], l2 as [ | [ | | ] ];
    cbn [locates round_nearest_even] in *;
    try destruct (Z.even m2); try lia; exfalso; lra.
Qed.

(** Rounding does not cross an integer. *)
Lemma round_nearest_even_le_int (y : Q) (m : Z) (l : location) (n : Z) :
  locates y m l -> (y <= inject_Z n)%Q -> round_nearest_even m l <= n.
Proof.
  intros H Hy.
  apply (round_nearest_even_mono y (inject_Z n) m n l loc_Exact H);
    [ reflexivity | exact Hy ].
Qed.

Lemma round_nearest_even_ge_int (y : Q) (m : Z) (l : location) (n : Z) :
  locates y m l -> (inject_Z n <= y)%Q -> n <= round_nearest_even m l.
Proof.
  intros H Hy.
  apply (round_nearest_even_mono (inject_Z n) y n m loc_Exact l);
    [ reflexivity | exact H | exact Hy ].
Qed.

(** ** The rounding of [binary_round_aux], in binary64 *)

Lemma fexp_spec (k : Z) : fexp prec emax k = Z.max (k - 53) (-1074).
Proof. reflexivity. Qed.

Lemma Zdigits2_bounds (m : Z) :
  0 < m -> 2 ^ (Zdigits2 m - 1) <= m < 2 ^ Zdigits2 m.
Proof.
  destruct m as [ |p|p]; try lia. intros _. apply digits2_pos_bounds.
Qed.

Lemma Zdigits2_nonneg (m : Z) : 0 <= Zdigits2 m.
Proof. destruct m; simpl; lia. Qed.

Lemma Zdigits2_le (m : Z) (n : Z) : 0 < m -> m < 2 ^ n -> 0 <= n -> Zdigits2 m <= n.
Proof.
  intros Hm Hlt Hn. pose proof (Zdigits2_bounds m Hm) as [Hlo _].
  destruct (Z.le_gt_cases (Zdigits2 m) n) as [H | H]; [ exact H | exfalso ].
  assert (2 ^ n <= 2 ^ (Zdigits2 m - 1)) by (apply Z.pow_le_mono_r; lia).
  lia.
Qed.

Lemma Zdigits2_ge (m : Z) (n : Z) : 2 ^ n <= m -> 0 <= n -> n + 1 <= Zdigits2 m.
Proof.
  intros Hle Hn.
  assert (Hm : 0 < m) by (pose proof (Z.pow_pos_nonneg 2 n); lia).
  pose proof (Zdigits2_bounds m Hm) as [_ Hhi].
  destruct (Z.le_gt_cases (n + 1) (Zdigits2 m)) as [H | H]; [ exact H | exfalso ].
  assert (2 ^ Zdigits2 m <= 2 ^ n)
    by (apply Z.pow_le_mono_r; pose proof (Zdigits2_nonneg m); lia).
  lia.
Qed.


Lemma scale_le (a b : Q) (e : Z) : (a <= b)%Q -> (a * pow2 e <= b * pow2 e)%Q.
Proof. intro H. apply Qmult_le_compat_r; [ exact H | apply Qlt_le_weak, pow2_pos ]. Qed.

Lemma scale_lt (a b : Q) (e : Z) : (a < b)%Q -> (a * pow2 e < b * pow2 e)%Q.
Proof. intro H. apply Qmult_lt_compat_r; [ apply pow2_pos | exact H ]. Qed.

Lemma second_shift (k E : Z) :
  -1074 <= E -> 0 <= k <= 2 ^ 53 ->
  (k = 0 /\ shr_m (fst (shr_fexp prec emax k E loc_Exact)) = 0) \/
  (0 < k /\ k < 2 ^ 53 /\ shr_fexp prec emax k E loc_Exact =
     (Build_shr_record k false false, E)) \/
  (k = 2 ^ 53 /\ shr_fexp prec emax k E loc_Exact =
     (Build_shr_record (2 ^ 52) false false, E + 1)).
Proof.
  intros HE Hk. unfold shr_fexp. rewrite fexp_spec.
  destruct (Z.eq_dec k 0) as [-> | Hk0].
  - left. split; [ reflexivity | ]. cbn [Zdigits2 shr_record_of_loc].
    unfold shr. destruct (Z.max (0 + E - 53) (-1074) - E) eqn:E1; try reflexivity.
    lia.
  - right. destruct (Z.eq_dec k (2 ^ 53)) as [-> | Hk1].
    + right. split; [ reflexivity | ].
      change (Zdigits2 (2 ^ 53)) with 54.
      replace (Z.max (54 + E - 53) (-1074) - E) with 1 by lia.
      reflexivity.
    + left. split; [ lia | ]. split; [ lia | ].
      assert (Hd : Zdigits2 k <= 53) by (apply Zdigits2_le; lia).
      cbn [shr_record_of_loc]. unfold shr.
      destruct (Z.max (Zdigits2 k + E - 53) (-1074) - E) eqn:E1; try reflexivity.
      lia.
Qed.

Lemma first_shift (y : Q) (mx ex : Z) (lx : location) :
  0 <= mx -> locates y mx lx -> ex <= fexp prec emax (Zdigits2 mx + ex) ->
  exists mrs,
    shr_fexp prec emax mx ex lx = (mrs, fexp prec emax (Zdigits2 mx + ex)) /\
    0 <= shr_m mrs /\
    locates_record (y * pow2 ex * pow2 (- fexp prec emax (Zdigits2 mx + ex))) mrs.
Proof.
  intros Hm Hy Hn. unfold shr_fexp, shr.
  set (E := fexp prec emax (Zdigits2 mx + ex)) in *.
  pose proof (locates_record_of_loc y mx lx Hy) as Hr.
  assert (H0 : 0 <= shr_m (shr_record_of_loc mx lx))
    by (destruct lx as [ | [ | | ] ]; exact Hm).
  destruct (E - ex) as [ |p|p] eqn:En; try lia.
  - exists (shr_record_of_loc mx lx). assert (E = ex) as -> by lia.
    split; [ reflexivity | split; [ exact H0 | ] ].
    eapply locates_proper; [ | exact Hr ].
    rewrite <- Qmult_assoc, (Qmult_comm (pow2 ex)), pow2_opp. ring.
  - exists (SpecFloat.iter_pos shr_1 p (shr_record_of_loc mx lx)).
    split; [ f_equal; lia | ].
    split; [ apply iter_shr_1_nonneg, H0 | ].
    eapply locates_proper; [ | apply (iter_shr_1_locates p y _ H0 Hr) ].
    rewrite <- Qmult_assoc, <- pow2_add.
    replace (ex + - E) with (- Zpos p) by lia. reflexivity.
Qed.

Lemma round_exp_located (y : Q) (mx ex : Z) (lx : location) :
  0 <= mx -> locates y mx lx -> ex <= fexp prec emax (Zdigits2 mx + ex) ->
  round_exp (y * pow2 ex) (fexp prec emax (Zdigits2 mx + ex)) /\
  (y * pow2 ex * pow2 (- fexp prec emax (Zdigits2 mx + ex)) <= inject_Z (2 ^ 53))%Q /\
  (-1074 < fexp prec emax (Zdigits2 mx + ex) ->
   (inject_Z (2 ^ 52) <=
    y * pow2 ex * pow2 (- fexp prec emax (Zdigits2 mx + ex)))%Q).
Proof.
  intros Hm Hy Hn. rewrite fexp_spec in *.
  pose proof (locates_floor _ _ _ Hy) as [Hlo Hhi].
  pose proof (Zdigits2_nonneg mx) as Hd0.
  set (d := Zdigits2 mx) in *.
  assert (Hup : (y < inject_Z (2 ^ d))%Q).
  { eapply Qlt_le_trans; [ exact Hhi | ].
    change 1%Q with (inject_Z 1). rewrite <- inject_Z_plus, <- Zle_Qle.
    destruct (Z.eq_dec mx 0) as [-> | Hne].
    - subst d. cbn. lia.
    - pose proof (Zdigits2_bounds mx ltac:(lia)). fold d in H. lia. }
  assert (Hx : (y * pow2 ex < pow2 (d + ex))%Q).
  { rewrite pow2_add, (pow2_Z d Hd0). apply scale_lt, Hup. }
  assert (Hdown : 0 < mx -> (pow2 (d - 1 + ex) <= y * pow2 ex)%Q).
  { intro Hpos. pose proof (Zdigits2_bounds mx Hpos) as [Hb _]. fold d in Hb.
    assert (0 < d) by (subst d; destruct mx; simpl; lia).
    rewrite pow2_add, (pow2_Z (d - 1)) by lia. apply scale_le.
    eapply Qle_trans; [ | exact Hlo ]. rewrite <- Zle_Qle. exact Hb. }
  set (E := Z.max (d + ex - 53) (-1074)) in *.
  split; [ | split ].
  - unfold round_exp. destruct (Z.eq_dec E (-1074)) as [He | He].
    + left. split; [ exact He | ].
      eapply Qlt_le_trans; [ exact Hx | apply pow2_le; lia ].
    + right. split; [ lia | ].
      assert (0 < mx).
      { destruct (Z.eq_dec mx 0) as [-> | ]; [ | lia ].
        subst d E. cbn [Zdigits2] in *. lia. }
      split.
      * eapply Qle_trans; [ | apply Hdown; assumption ]. apply pow2_le. lia.
      * eapply Qlt_le_trans; [ exact Hx | apply pow2_le; lia ].
  - rewrite <- (pow2_Z 53) by lia.
    apply Qlt_le_weak. eapply Qlt_le_trans; [ apply scale_lt, Hx | ].
    rewrite <- pow2_add. apply pow2_le. lia.
  - intro HE.
    assert (0 < mx).
    { destruct (Z.eq_dec mx 0) as [-> | ]; [ | lia ].
      subst d E. cbn [Zdigits2] in *. lia. }
    rewrite <- (pow2_Z 52) by lia.
    eapply Qle_trans; [ | apply scale_le, Hdown; assumption ].
    rewrite <- pow2_add. apply pow2_le. lia.
Qed.

(** [binary_round_aux] rounds the magnitude it is given. *)
Lemma binary_round_aux_rounds (s : bool) (y : Q) (mx ex : Z) (lx : location) :
  0 <= mx -> locates y mx lx -> ex <= fexp prec emax (Zdigits2 mx + ex) ->
  rounds s (y * pow2 ex) (binary_round_aux prec emax s mx ex lx).
Proof.
  intros Hm Hy Hn.
  destruct (first_shift y mx ex lx Hm Hy Hn) as [mrs [Hs [Hm' Hloc]]].
  destruct (round_exp_located y mx ex lx Hm Hy Hn) as [Hexp [Hhi Hlo]].
  set (E := fexp prec emax (Zdigits2 mx + ex)) in *.
  assert (HE : -1074 <= E) by (subst E; rewrite fexp_spec; lia).
  unfold locates_record in Hloc.
  set (k := round_nearest_even (shr_m mrs) (loc_of_shr_record mrs)).
  assert (Hk : 0 <= k <= 2 ^ 53).
  { split.
    - pose proof (round_nearest_even_floor (shr_m mrs) (loc_of_shr_record mrs)).
      fold k in H. lia.
    - apply (round_nearest_even_le_int _ _ _ _ Hloc Hhi). }
  exists E, (shr_m mrs), (loc_of_shr_record mrs).
  split; [ exact Hexp | split; [ exact Hm' | split; [ exact Hloc | ] ] ].
  fold k. unfold binary_round_aux. rewrite Hs. fold k.
  destruct (second_shift k E HE Hk) as [[Hk0 H2] | [[Hk0 [Hk1 H2]] | [Hk1 H2]]].
  - left. split; [ exact Hk0 | ].
    destruct (shr_fexp prec emax k E loc_Exact) as [mrs'' e'']. cbn [fst] in H2.
    rewrite H2. reflexivity.
  - right. split; [ exact Hk0 | ]. rewrite H2. cbn [shr_m].
    destruct k as [ |m|m] eqn:Ek; try lia.
    destruct (Z.leb_spec E (emax - prec)) as [Hle | Hgt].
    + right. exists m, E. split; reflexivity.
    + left. split; [ reflexivity | ].
      change (emax - prec) with 971 in Hgt.
      assert (H52 : 2 ^ 52 <= Zpos m).
      { rewrite <- Ek. apply (round_nearest_even_ge_int _ _ _ _ Hloc).
        apply Hlo. lia. }
      eapply Qle_trans; [ | apply (val_le _ _ E H52) ].
      rewrite val_pow2 by lia. apply pow2_le. lia.
  - right. split; [ lia | ]. rewrite H2. cbn [shr_m].
    change (2 ^ 52) with (Zpos (2 ^ 52)).
    destruct (Z.leb_spec (E + 1) (emax - prec)) as [Hle | Hgt].
    + right. exists (2 ^ 52)%positive, (E + 1). split; [ reflexivity | ].
      rewrite Hk1. change (Zpos (2 ^ 52)) with (2 ^ 52).
      rewrite !val_pow2 by lia. replace (52 + (E + 1)) with (53 + E) by lia.
      reflexivity.
    + left. split; [ reflexivity | ].
      change (emax - prec) with 971 in Hgt.
      rewrite Hk1, val_pow2 by lia. apply pow2_le. lia.
Qed.

(** ** The order of binary64 values and the order of the rationals *)

Lemma bounded_spec (m : positive) (e : Z) :
  bounded prec emax m e = true ->
  e = Z.max (Zpos (digits2_pos m) + e - 53) (-1074) /\ e <= 971.
Proof.
  unfold bounded, canonical_mantissa. rewrite fexp_spec.
  intro H. apply andb_true_iff in H. destruct H as [H1 H2].
  apply Z.eqb_eq in H1. apply Z.leb_le in H2.
  change (emax - prec) with 971 in H2. lia.
Qed.

Lemma bounded_mantissa (m : positive) (e : Z) :
  bounded prec emax m e = true ->
  Zpos m < 2 ^ 53 /\ (-1074 < e -> 2 ^ 52 <= Zpos m).
Proof.
  intro H. apply bounded_spec in H. destruct H as [He _].
  pose proof (digits2_pos_bounds m) as [Hlo Hhi].
  split.
  - eapply Z.lt_le_trans; [ exact Hhi | ]. apply Z.pow_le_mono_r; lia.
  - intro Hn. replace (Zpos (digits2_pos m)) with 53 in Hlo by lia. exact Hlo.
Qed.

Lemma val_pos (m : positive) (e : Z) : (0 < val (Zpos m) e)%Q.
Proof.
  unfold val. apply Qmult_lt_0_compat; [ reflexivity | apply pow2_pos ].
Qed.

Lemma bounded_val_lt (m1 : positive) (e1 : Z) (m2 : positive) (e2 : Z) :
  bounded prec emax m1 e1 = true -> bounded prec emax m2 e2 = true ->
  e1 < e2 -> (val (Zpos m1) e1 < val (Zpos m2) e2)%Q.
Proof.
  intros B1 B2 He.
  pose proof (bounded_spec _ _ B1) as [S1 _].
  destruct (bounded_mantissa _ _ B1) as [H1 _].
  destruct (bounded_mantissa _ _ B2) as [_ H2].
  apply (Qlt_le_trans _ (val (2 ^ 53) e1)); [ apply val_lt, H1 | ].
  apply (Qle_trans _ (val (2 ^ 52) e2)); [ | apply val_le, H2; lia ].
  rewrite !val_pow2 by lia. apply pow2_le. lia.
Qed.

Lemma bounded_val_below (m : positive) (e : Z) :
  bounded prec emax m e = true -> (val (Zpos m) e < pow2 1024)%Q.
Proof.
  intro B. pose proof (bounded_spec _ _ B) as [_ He].
  destruct (bounded_mantissa _ _ B) as [H1 _].
  apply (Qlt_le_trans _ (val (2 ^ 53) e)); [ apply val_lt, H1 | ].
  rewrite val_pow2 by lia. apply pow2_le. lia.
Qed.

Lemma finite_leb_val (m1 : positive) (e1 : Z) (m2 : positive) (e2 : Z) :
  bounded prec emax m1 e1 = true -> bounded prec emax m2 e2 = true ->
  (SFleb (S754_finite false m1 e1) (S754_finite false m2 e2) = true <->
   (val (Zpos m1) e1 <= val (Zpos m2) e2)%Q).
Proof.
  intros B1 B2. unfold SFleb, SFcompare.
  change (Pos.compare_cont Eq m1 m2) with (Pos.compare m1 m2).
  destruct (Z.compare_spec e1 e2) as [He | He | He].
  - subst e2. destruct (Pos.compare_spec m1 m2) as [Hm | Hm | Hm].
    + subst m2. split; [ intros _; apply Qle_refl | reflexivity ].
    + split; [ intros _; apply val_le; lia | reflexivity ].
    + split; [ discriminate | ]. intro H. apply val_le_inv in H. lia.
  - split; [ intros _ | reflexivity ].
    apply Qlt_le_weak, bounded_val_lt; assumption.
  - split; [ discriminate | ]. intro H.
    pose proof (bounded_val_lt _ _ _ _ B2 B1 He). lra.
Qed.


Lemma SFleb_opp (a b : spec_float) :
  SFleb (SFopp a) (SFopp b) = SFleb b a.
Proof.
  unfold SFleb, SFcompare.
  destruct a as [sa|sa| |sa ma ea], b as [sb|sb| |sb mb eb];
    try destruct sa; try destruct sb; try reflexivity; cbn [SFopp negb];
    rewrite (Z.compare_antisym ea eb);
    destruct (ea ?= eb); simpl; try reflexivity;
    change (Pos.compare_cont Eq) with Pos.compare;
    rewrite (Pos.compare_antisym ma mb);
    destruct (ma ?= mb)%positive; reflexivity.
Qed.

Lemma SFval_opp (a : spec_float) : (SFval (SFopp a) == - SFval a)%Q.
Proof. destruct a as [s|s| |s m e]; simpl; try destruct s; simpl; ring. Qed.

Lemma SFleb_val (a b : spec_float) :
  valid_binary a = true -> valid_binary b = true ->
  SFfinite a = true -> SFfinite b = true ->
  (SFleb a b = true <-> (SFval a <= SFval b)%Q).
Proof.
  intros Va Vb Fa Fb.
  destruct a as [sa|sa| |sa ma ea], b as [sb|sb| |sb mb eb];
    try discriminate; cbn [SFval].
  - split; [ intros _; apply Qle_refl | reflexivity ].
  - pose proof (val_pos mb eb). destruct sb; cbn; split; intros; 
      try discriminate; try reflexivity; lra.
  - pose proof (val_pos ma ea). destruct sa; cbn; split; intros; 
      try discriminate; try reflexivity; lra.
  - pose proof (val_pos ma ea). pose proof (val_pos mb eb).
    cbn [valid_binary] in Va, Vb.
    destruct sa, sb.
    + change (S754_finite true ma ea) with (SFopp (S754_finite false ma ea)).
      change (S754_finite true mb eb) with (SFopp (S754_finite false mb eb)).
      rewrite SFleb_opp, (finite_leb_val _ _ _ _ Vb Va). lra.
    + cbn; split; intros; try reflexivity; lra.
    + cbn; split; intros; try discriminate; lra.
    + apply finite_leb_val; assumption.
Qed.

(** ** Rounding is monotone *)

Lemma round_exp_mono (x1 x2 : Q) (E1 E2 : Z) :
  round_exp x1 E1 -> round_exp x2 E2 -> (x1 <= x2)%Q -> E1 <= E2.
Proof.
  intros [[-> H1] | [G1 [L1 U1]]] [[-> H2] | [G2 [L2 U2]]] Hx; try lia.
  - exfalso. assert (Hp : (pow2 (E1 + 52) < pow2 (-1021))%Q) by lra.
    apply pow2_lt_inv in Hp. lia.
  - assert (Hp : (pow2 (E1 + 52) < pow2 (E2 + 53))%Q) by lra.
    apply pow2_lt_inv in Hp. lia.
Qed.

Lemma rounded_val_mono (x1 x2 : Q) (E1 E2 m1 m2 : Z) (l1 l2 : location) :
  round_exp x1 E1 -> round_exp x2 E2 ->
  locates (x1 * pow2 (- E1)) m1 l1 -> locates (x2 * pow2 (- E2)) m2 l2 ->
  (x1 <= x2)%Q ->
  (val (round_nearest_even m1 l1) E1 <= val (round_nearest_even m2 l2) E2)%Q.
Proof.
  intros R1 R2 H1 H2 Hx.
  pose proof (round_exp_mono _ _ _ _ R1 R2 Hx) as HE.
  destruct (Z.eq_dec E1 E2) as [-> | Hne].
  - apply val_le. apply (round_nearest_even_mono _ _ _ _ _ _ H1 H2).
    apply scale_le, Hx.
  - assert (G2 : -1074 < E2) by (destruct R1 as [[-> _] | [? _]]; lia).
    destruct R2 as [[-> _] | [_ [L2 U2]]]; [ lia | ].
    assert (U1 : (x1 <= pow2 (E2 + 52))%Q).
    { destruct R1 as [[-> U1] | [_ [_ U1]]]; apply Qlt_le_weak;
        (eapply Qlt_le_trans; [ exact U1 | apply pow2_le; lia ]). }
    assert (P1 : (pow2 (E2 + 52) == val (2 ^ (E2 + 52 - E1)) E1)%Q).
    { rewrite val_pow2 by lia.
      replace (E2 + 52 - E1 + E1) with (E2 + 52) by lia. reflexivity. }
    assert (P2 : (pow2 (E2 + 52) == val (2 ^ 52) E2)%Q).
    { rewrite val_pow2 by lia.
      replace (52 + E2) with (E2 + 52) by lia. reflexivity. }
    apply (Qle_trans _ (pow2 (E2 + 52))).
    + rewrite P1.
      apply val_le. apply (round_nearest_even_le_int _ _ _ _ H1).
      rewrite <- (pow2_Z (E2 + 52 - E1)) by lia.
      replace (E2 + 52 - E1) with (E2 + 52 + - E1) by lia.
      rewrite pow2_add. apply scale_le, U1.
    + rewrite P2.
      apply val_le. apply (round_nearest_even_ge_int _ _ _ _ H2).
      rewrite <- (pow2_Z 52) by lia.
      replace 52 with (E2 + 52 + - E2) at 1 by lia.
      rewrite pow2_add. apply scale_le, L2.
Qed.

Lemma outcome_number (s : bool) (k E : Z) (r : spec_float) :
  outcome s k E r ->
  r = S754_zero s \/ r = S754_infinity s \/ exists m e, r = S754_finite s m e.
Proof.
  intros [[_ ->] | [_ [[-> _] | [m [e [-> _]]]]]]; eauto.
Qed.

(** Two magnitudes in order round to values in order. *)
Lemma rounds_mono (x1 x2 : Q) (r1 r2 : spec_float) :
  rounds false x1 r1 -> rounds false x2 r2 -> (x1 <= x2)%Q ->
  valid_binary r1 = true -> valid_binary r2 = true ->
  SFleb r1 r2 = true.
Proof.
  intros [E1 [m1 [l1 [R1 [_ [H1 O1]]]]]] [E2 [m2 [l2 [R2 [_ [H2 O2]]]]]] Hx V1 V2.
  pose proof (rounded_val_mono _ _ _ _ _ _ _ _ R1 R2 H1 H2 Hx) as Hv.
  set (k1 := round_nearest_even m1 l1) in *.
  set (k2 := round_nearest_even m2 l2) in *.
  destruct O1 as [[K1 ->] | [K1 O1]].
  - destruct (outcome_number _ _ _ _ O2) as [-> | [-> | [m [e ->]]]]; reflexivity.
  - assert (K2 : 0 < k2).
    { destruct O2 as [[K2 _] | [K2 _]]; [ exfalso | exact K2 ].
      rewrite K2 in Hv. pose proof (val_lt 0 k1 E1 K1) as Hp.
      unfold val at 1 in Hp. unfold val at 2 in Hv.
      change (inject_Z 0) with 0%Q in *. lra. }
    destruct O2 as [[K2' _] | [_ O2]]; [ lia | ].
    destruct O2 as [[-> _] | [m2' [e2' [-> Q2]]]].
    + destruct O1 as [[-> _] | [m1' [e1' [-> _]]]]; reflexivity.
    + destruct O1 as [[-> I1] | [m1' [e1' [-> Q1]]]].
      * exfalso. cbn [valid_binary] in V2.
        pose proof (bounded_val_below _ _ V2). lra.
      * cbn [valid_binary] in V1, V2.
        apply finite_leb_val; try assumption. lra.
Qed.


(** A magnitude below a power of two rounds to a value that is finite and
    not above that power. *)
Lemma rounds_below (s : bool) (x : Q) (r : spec_float) (g : Z) :
  rounds s x r -> (x <= pow2 g)%Q -> -1074 <= g < 1024 ->
  r = S754_zero s \/
  exists m e, r = S754_finite s m e /\ (val (Zpos m) e <= pow2 g)%Q.
Proof.
  intros [E [m1 [l1 [R [_ [H O]]]]]] Hx Hg.
  assert (HE : E <= g).
  { destruct R as [[-> _] | [_ [L _]]]; [ lia | ].
    assert (Hp : (pow2 (E + 52) <= pow2 g)%Q) by lra.
    destruct (Z.le_gt_cases E g) as [Hc | Hc]; [ exact Hc | exfalso ].
    pose proof (pow2_lt g (E + 52) ltac:(lia)). lra. }
  assert (Hk : (val (round_nearest_even m1 l1) E <= pow2 g)%Q).
  { assert (P : (pow2 g == val (2 ^ (g - E)) E)%Q).
    { rewrite val_pow2 by lia. replace (g - E + E) with g by lia. reflexivity. }
    rewrite P. apply val_le. apply (round_nearest_even_le_int _ _ _ _ H).
    rewrite <- (pow2_Z (g - E)) by lia.
    replace (g - E) with (g + - E) by lia.
    rewrite pow2_add. apply scale_le, Hx. }
  destruct O as [[_ ->] | [_ [[-> I] | [m' [e' [-> Hv]]]]]].
  - left. reflexivity.
  - exfalso. pose proof (pow2_lt g 1024 ltac:(lia)). lra.
  - right. exists m', e'. split; [ reflexivity | lra ].
Qed.

Lemma rounds_opp (s : bool) (x : Q) (r : spec_float) :
  rounds s x r -> rounds (negb s) x (SFopp r).
Proof.
  intros [E [m [l [R [Hm [H O]]]]]]. exists E, m, l.
  split; [ exact R | split; [ exact Hm | split; [ exact H | ] ] ].
  destruct O as [[K ->] | [K [[-> I] | [m' [e' [-> Hv]]]]]].
  - left. split; [ exact K | reflexivity ].
  - right. split; [ exact K | left; split; [ reflexivity | exact I ] ].
  - right. split; [ exact K | right ]. exists m', e'. split; [ reflexivity | exact Hv ].
Qed.

(** ** The operations *)

Lemma round_exp_proper (x x' : Q) (E : Z) :
  (x == x')%Q -> round_exp x E -> round_exp x' E.
Proof. intros He. unfold round_exp. rewrite He. auto. Qed.

Lemma rounds_proper (s : bool) (x x' : Q) (r : spec_float) :
  (x == x')%Q -> rounds s x r -> rounds s x' r.
Proof.
  intros He [E [m [l [R [Hm [H O]]]]]]. exists E, m, l.
  split; [ apply (round_exp_proper x); assumption | ].
  split; [ exact Hm | split; [ | exact O ] ].
  eapply locates_proper; [ | exact H ]. rewrite He. reflexivity.
Qed.

Lemma iter_xO (d m : positive) :
  Zpos (Pos.iter xO m d) = Zpos m * 2 ^ Zpos d /\
  Zpos (digits2_pos (Pos.iter xO m d)) = Zpos (digits2_pos m) + Zpos d.
Proof.
  induction d as [ |d IH] using Pos.peano_ind.
  - cbn [Pos.iter digits2_pos]. split; lia.
  - rewrite Pos.iter_succ. cbn [digits2_pos]. destruct IH as [IH1 IH2].
    rewrite Pos2Z.inj_xO, IH1, !Pos2Z.inj_succ, IH2, Z.pow_succ_r by lia.
    split; lia.
Qed.

Lemma shl_align_spec (mx : positive) (ex ex' : Z) :
  Zpos (fst (shl_align mx ex ex')) = Zpos mx * 2 ^ (ex - Z.min ex ex') /\
  snd (shl_align mx ex ex') = Z.min ex ex' /\
  Zpos (digits2_pos (fst (shl_align mx ex ex'))) + snd (shl_align mx ex ex') =
  Zpos (digits2_pos mx) + ex.
Proof.
  unfold shl_align. destruct (ex' - ex) as [ |d|d] eqn:Ed; cbn [fst snd].
  - replace (Z.min ex ex') with ex by lia. rewrite Z.sub_diag. cbn. lia.
  - replace (Z.min ex ex') with ex by lia. rewrite Z.sub_diag. cbn. lia.
  - destruct (iter_xO d mx) as [H1 H2]. rewrite H1, H2.
    replace (Z.min ex ex') with ex' by lia.
    replace (ex - ex') with (Zpos d) by lia. lia.
Qed.

Lemma binary_round_rounds (s : bool) (m : positive) (e : Z) :
  rounds s (val (Zpos m) e) (binary_round prec emax s m e).
Proof.
  unfold binary_round.
  pose proof (shl_align_spec m e (fexp prec emax (Zpos (digits2_pos m) + e)))
    as [H1 [H2 H3]].
  destruct (shl_align m e _) as [mz ez]. cbn [fst snd] in *.
  apply (rounds_proper s (inject_Z (Zpos mz) * pow2 ez)).
  - fold (val (Zpos mz) ez). rewrite H1, H2.
    rewrite val_shift by lia. 
    replace (Z.min e (fexp prec emax (Zpos (digits2_pos m) + e)) +
             (e - Z.min e (fexp prec emax (Zpos (digits2_pos m) + e))))
      with e by lia.
    reflexivity.
  - apply binary_round_aux_rounds; [ lia | reflexivity | ].
    cbn [Zdigits2]. rewrite H3. lia.
Qed.

(** A binary64 value is the rounding of the rational it denotes. *)
Lemma rounds_finite (s : bool) (m : positive) (e : Z) :
  bounded prec emax m e = true ->
  rounds s (val (Zpos m) e) (S754_finite s m e).
Proof.
  intro B. pose proof (bounded_spec _ _ B) as [He _].
  destruct (bounded_mantissa _ _ B) as [Hhi Hlo].
  exists e, (Zpos m), loc_Exact.
  split; [ | split; [ lia | split ] ].
  - unfold round_exp. destruct (Z.eq_dec e (-1074)) as [-> | Hne].
    + left. split; [ reflexivity | ].
      apply (Qlt_le_trans _ (val (2 ^ 53) (-1074))); [ apply val_lt, Hhi | ].
      rewrite val_pow2 by lia. apply Qle_refl.
    + right. split; [ lia | split ].
      * rewrite (Z.add_comm e 52), <- (val_pow2 52 e) by lia.
        apply val_le, Hlo. lia.
      * apply (Qlt_le_trans _ (val (2 ^ 53) e)); [ apply val_lt, Hhi | ].
        rewrite val_pow2 by lia. rewrite (Z.add_comm e 53). apply Qle_refl.
  - cbn [locates]. unfold val. rewrite <- Qmult_assoc, (Qmult_comm (pow2 e)), pow2_opp.
    ring.
  - cbn [round_nearest_even]. right. split; [ lia | right ].
    exists m, e. split; reflexivity.
Qed.


Lemma rounds_to_proper (x x' : Q) (r : spec_float) :
  (x == x')%Q -> rounds_to x r -> rounds_to x' r.
Proof.
  intros He [[Hx H] | [[Hx H] | [Hx H]]].
  - left. split; [ lra | apply (rounds_proper _ x); assumption ].
  - right; left. split; [ lra | apply (rounds_proper _ (- x)); [ lra | assumption ] ].
  - right; right. split; [ lra | exact H ].
Qed.

Lemma rounds_number (s : bool) (x : Q) (r : spec_float) :
  rounds s x r ->
  r = S754_zero s \/ r = S754_infinity s \/ exists m e, r = S754_finite s m e.
Proof.
  intros [E [m [l [_ [_ [_ O]]]]]]. exact (outcome_number _ _ _ _ O).
Qed.

Lemma valid_opp (r : spec_float) :
  valid_binary r = true -> valid_binary (SFopp r) = true.
Proof. destruct r; auto. Qed.

Lemma SFopp_involutive (r : spec_float) : SFopp (SFopp r) = r.
Proof. destruct r as [s|s| |s m e]; cbn; rewrite ?negb_involutive; reflexivity. Qed.

(** Rounding is monotone on the rationals. *)
Lemma rounds_to_mono (x1 x2 : Q) (r1 r2 : spec_float) :
  rounds_to x1 r1 -> rounds_to x2 r2 -> (x1 <= x2)%Q ->
  valid_binary r1 = true -> valid_binary r2 = true ->
  SFleb r1 r2 = true.
Proof.
  intros [[P1 H1] | [[P1 H1] | [P1 [s1 ->]]]]
         [[P2 H2] | [[P2 H2] | [P2 [s2 ->]]]] Hx V1 V2;
    try (exfalso; lra).
  - apply (rounds_mono x1 x2); assumption.
  - destruct (rounds_number _ _ _ H1) as [-> | [-> | [m1 [e1 ->]]]];
      destruct (rounds_number _ _ _ H2) as [-> | [-> | [m2 [e2 ->]]]];
      reflexivity.
  - rewrite <- SFleb_opp.
    apply (rounds_mono (- x2) (- x1));
      [ apply (rounds_opp true), H2 | apply (rounds_opp true), H1 | lra
      | apply valid_opp, V2 | apply valid_opp, V1 ].
  - destruct (rounds_number _ _ _ H1) as [-> | [-> | [m1 [e1 ->]]]];
      reflexivity.
  - destruct (rounds_number _ _ _ H2) as [-> | [-> | [m2 [e2 ->]]]];
      reflexivity.
  - reflexivity.
Qed.

Lemma rounds_to_number (x : Q) (r : spec_float) :
  rounds_to x r -> r <> S754_nan.
Proof.
  intros [[_ H] | [[_ H] | [_ [s ->]]]]; try discriminate;
    destruct (rounds_number _ _ _ H) as [-> | [-> | [m [e ->]]]]; discriminate.
Qed.

Lemma rounds_to_value (f : spec_float) :
  valid_binary f = true -> SFfinite f = true -> rounds_to (SFval f) f.
Proof.
  intros V F. destruct f as [s|s| |s m e]; try discriminate.
  - right; right. split; [ reflexivity | eauto ].
  - cbn [valid_binary] in V. pose proof (val_pos m e). cbn [SFval].
    destruct s.
    + right; left. split; [ lra | ].
      apply (rounds_proper _ (val (Zpos m) e)); [ lra | ].
      apply rounds_finite, V.
    + left. split; [ lra | apply rounds_finite, V ].
Qed.

Lemma binary_normalize_rounds (m e : Z) :
  rounds_to (val m e) (binary_normalize prec emax m e false).
Proof.
  destruct m as [ |p|p]; cbn [binary_normalize].
  - right; right. split; [ unfold val; ring | eauto ].
  - left. split; [ apply val_pos | apply binary_round_rounds ].
  - pose proof (val_pos p e) as Hp.
    assert (Hn : (val (Zneg p) e == - val (Zpos p) e)%Q).
    { unfold val. change (Zneg p) with (- Zpos p). rewrite inject_Z_opp. ring. }
    right; left. split; [ lra | ].
    apply (rounds_proper _ (val (Zpos p) e)); [ lra | ].
    apply binary_round_rounds.
Qed.

Lemma val_aligned (s : bool) (m : positive) (e ez : Z) :
  ez <= e ->
  (val (cond_Zopp s (Zpos (fst (shl_align m e ez)))) ez ==
   SFval (S754_finite s m e))%Q.
Proof.
  intro Hle. destruct (shl_align_spec m e ez) as [H1 _]. rewrite H1.
  replace (Z.min e ez) with ez by lia. cbn [SFval].
  assert (Hv : (val (Zpos m * 2 ^ (e - ez)) ez == val (Zpos m) e)%Q).
  { rewrite val_shift by lia. replace (ez + (e - ez)) with e by lia. reflexivity. }
  destruct s; cbn [cond_Zopp]; [ | exact Hv ].
  rewrite <- Hv. unfold val. rewrite inject_Z_opp. ring.
Qed.

Lemma val_plus (a b e : Z) : (val (a + b) e == val a e + val b e)%Q.
Proof. unfold val. rewrite inject_Z_plus. ring. Qed.

Lemma val_minus (a b e : Z) : (val (a - b) e == val a e - val b e)%Q.
Proof.
  unfold val. unfold Z.sub. rewrite inject_Z_plus, inject_Z_opp. ring.
Qed.

Lemma SFadd_rounds (x y : spec_float) :
  valid_binary x = true -> valid_binary y = true ->
  SFfinite x = true -> SFfinite y = true ->
  rounds_to (SFval x + SFval y) (SFadd prec emax x y).
Proof.
  intros Vx Vy Fx Fy.
  destruct x as [sx|sx| |sx mx ex], y as [sy|sy| |sy my ey]; try discriminate.
  - right; right. split; [ cbn; ring | ].
    cbn. destruct sx, sy; eauto.
  - apply (rounds_to_proper (SFval (S754_finite sy my ey)));
      [ cbn [SFval]; ring | ].
    apply (rounds_to_value (S754_finite sy my ey)); assumption.
  - apply (rounds_to_proper (SFval (S754_finite sx mx ex)));
      [ cbn [SFval]; ring | ].
    apply (rounds_to_value (S754_finite sx mx ex)); assumption.
  - cbn [SFadd].
    eapply rounds_to_proper; [ | apply binary_normalize_rounds ].
    rewrite val_plus, !val_aligned by lia. reflexivity.
Qed.

Lemma SFsub_rounds (x y : spec_float) :
  valid_binary x = true -> valid_binary y = true ->
  SFfinite x = true -> SFfinite y = true ->
  rounds_to (SFval x - SFval y) (SFsub prec emax x y).
Proof.
  intros Vx Vy Fx Fy.
  destruct x as [sx|sx| |sx mx ex], y as [sy|sy| |sy my ey]; try discriminate.
  - right; right. split; [ cbn; ring | ].
    cbn. destruct sx, sy; eauto.
  - apply (rounds_to_proper (SFval (S754_finite (negb sy) my ey))).
    + cbn [SFval]. destruct sy; cbn [negb]; ring.
    + apply (rounds_to_value (S754_finite (negb sy) my ey)); assumption.
  - apply (rounds_to_proper (SFval (S754_finite sx mx ex)));
      [ cbn [SFval]; ring | ].
    apply (rounds_to_value (S754_finite sx mx ex)); assumption.
  - cbn [SFsub].
    eapply rounds_to_proper; [ | apply binary_normalize_rounds ].
    rewrite val_minus, !val_aligned by lia. reflexivity.
Qed.

Lemma digits2_pos_mul (a b : positive) :
  Zpos (digits2_pos a) + Zpos (digits2_pos b) - 1 <= Zpos (digits2_pos (a * b)).
Proof.
  pose proof (digits2_pos_bounds a) as [Ha _].
  pose proof (digits2_pos_bounds b) as [Hb _].
  pose proof (Zdigits2_ge (Zpos (a * b))
                (Zpos (digits2_pos a) - 1 + (Zpos (digits2_pos b) - 1))) as H.
  cbn [Zdigits2] in H.
  assert (Hp : 2 ^ (Zpos (digits2_pos a) - 1 + (Zpos (digits2_pos b) - 1)) <=
               Zpos (a * b)).
  { rewrite Z.pow_add_r, Pos2Z.inj_mul by lia.
    apply Z.mul_le_mono_nonneg; try assumption; apply Z.pow_nonneg; lia. }
  specialize (H Hp). lia.
Qed.

Lemma SFmul_rounds (x y : spec_float) :
  valid_binary x = true -> valid_binary y = true ->
  SFfinite x = true -> SFfinite y = true ->
  rounds_to (SFval x * SFval y) (SFmul prec emax x y).
Proof.
  intros Vx Vy Fx Fy.
  destruct x as [sx|sx| |sx mx ex], y as [sy|sy| |sy my ey]; try discriminate;
    try (right; right; split; [ cbn; ring | cbn; eauto ]).
  cbn [valid_binary] in Vx, Vy. cbn [SFmul].
  pose proof (bounded_spec _ _ Vx) as [Sx _].
  pose proof (bounded_spec _ _ Vy) as [Sy _].
  pose proof (digits2_pos_mul mx my) as Hd.
  assert (Hr : rounds (xorb sx sy) (val (Zpos mx) ex * val (Zpos my) ey)
                 (binary_round_aux prec emax (xorb sx sy) (Zpos (mx * my))
                    (ex + ey) loc_Exact)).
  { apply (rounds_proper _ (inject_Z (Zpos (mx * my)) * pow2 (ex + ey))).
    - unfold val. rewrite Pos2Z.inj_mul, inject_Z_mult, pow2_add. ring.
    - apply binary_round_aux_rounds; [ lia | reflexivity | ].
      rewrite fexp_spec. cbn [Zdigits2]. lia. }
  pose proof (val_pos mx ex) as Px. pose proof (val_pos my ey) as Py.
  pose proof (Qmult_lt_0_compat _ _ Px Py) as Pxy.
  cbn [SFval]. destruct sx, sy; cbn [xorb] in *.
  - left. split; [ | eapply rounds_proper; [ | exact Hr ] ]; lra.
  - right; left. split; [ | eapply rounds_proper; [ | exact Hr ] ]; lra.
  - right; left. split; [ | eapply rounds_proper; [ | exact Hr ] ]; lra.
  - left. split; [ | exact Hr ]; lra.
Qed.

(** *** Division *)

Lemma new_location_locates (y : Q) (n q r : Z) :
  0 < n -> 0 <= r < n -> (y * inject_Z n == inject_Z (q * n + r))%Q ->
  locates y q (new_location n r).
Proof.
  intros Hn Hr Hy.
  rewrite inject_Z_plus, inject_Z_mult in Hy.
  assert (HN : (0 < inject_Z n)%Q) by (change 0%Q with (inject_Z 0); rewrite <- Zlt_Qlt; exact Hn).
  assert (HR : (0 <= inject_Z r)%Q) by (change 0%Q with (inject_Z 0); rewrite <- Zle_Qle; lia).
  assert (Hcmp : forall c : Q,
             (y < inject_Z q + c <-> inject_Z r < c * inject_Z n)%Q /\
             (inject_Z q + c < y <-> c * inject_Z n < inject_Z r)%Q /\
             (y == inject_Z q + c <-> inject_Z r == c * inject_Z n)%Q).
  { intro c. split; [ | split ].
    - rewrite <- (Qmult_lt_r _ _ _ HN), Hy. split; intro; lra.
    - rewrite <- (Qmult_lt_r _ _ _ HN), Hy. split; intro; lra.
    - split; intro He.
      + rewrite He in Hy. lra.
      + apply (Qmult_inj_r _ _ (inject_Z n)); [ lra | ]. rewrite Hy. lra. }
  destruct (Hcmp 0%Q) as [_ [G0 E0]]. rewrite Qplus_0_r, Qmult_0_l in G0, E0.
  destruct (Hcmp (1 # 2)) as [Lh [Gh Eh]].
  destruct (Hcmp 1%Q) as [L1 _]. rewrite Qmult_1_l in L1.
  assert (Hrn : (inject_Z r < inject_Z n)%Q) by (rewrite <- Zlt_Qlt; lia).
  assert (Hz : forall a b : Z, a < b -> (inject_Z a < inject_Z b)%Q)
    by (intros; rewrite <- Zlt_Qlt; assumption).
  assert (Hrp : r <> 0 -> (0 < inject_Z r)%Q).
  { intro. change 0%Q with (inject_Z 0). rewrite <- Zlt_Qlt. lia. }
  unfold new_location, new_location_even, new_location_odd.
  destruct (Z.even n) eqn:Ev; cbv beta;
    (destruct (Z.eqb_spec r 0) as [Hr0 | Hr0];
     [ cbn [locates]; apply E0; rewrite Hr0; reflexivity
     | specialize (Hrp Hr0) ]).
  - destruct (Z.compare_spec (2 * r) n) as [Hc | Hc | Hc]; cbn [locates].
    + apply Eh. rewrite <- Hc, inject_Z_mult.
      change (inject_Z 2) with 2%Q. ring.
    + split; [ apply G0; lra | ].
      apply Lh. apply Hz in Hc. rewrite inject_Z_mult in Hc.
      change (inject_Z 2) with 2%Q in Hc. lra.
    + split; [ | apply L1; lra ].
      apply Gh. apply Hz in Hc. rewrite inject_Z_mult in Hc.
      change (inject_Z 2) with 2%Q in Hc. lra.
  - assert (Hodd : 2 * r <> n).
    { intro He. rewrite <- He, Z.even_mul in Ev. discriminate. }
    destruct (Z.compare_spec (2 * r + 1) n) as [Hc | Hc | Hc]; cbn [locates].
    + split; [ apply G0; lra | ].
      apply Lh.
      assert (Hc' : 2 * r < n) by lia.
      apply Hz in Hc'. rewrite inject_Z_mult in Hc'.
      change (inject_Z 2) with 2%Q in Hc'. lra.
    + split; [ apply G0; lra | ].
      apply Lh.
      assert (Hc' : 2 * r < n) by lia.
      apply Hz in Hc'. rewrite inject_Z_mult in Hc'.
      change (inject_Z 2) with 2%Q in Hc'. lra.
    + split; [ | apply L1; lra ].
      apply Gh.
      assert (Hc' : n < 2 * r) by lia.
      apply Hz in Hc'. rewrite inject_Z_mult in Hc'.
      change (inject_Z 2) with 2%Q in Hc'. lra.
Qed.

Lemma SFdiv_core_spec (m1 : positive) (e1 : Z) (m2 : positive) (e2 : Z) :
  let '(q, e', l) := SFdiv_core_binary prec emax (Zpos m1) e1 (Zpos m2) e2 in
  0 <= q /\ e' <= fexp prec emax (Zdigits2 q + e') /\
  exists y : Q,
    locates y q l /\ (y * pow2 e' * val (Zpos m2) e2 == val (Zpos m1) e1)%Q.
Proof.
  unfold SFdiv_core_binary. cbn [Zdigits2]. rewrite fexp_spec.
  pose proof (digits2_pos_bounds m1) as [L1 U1].
  pose proof (digits2_pos_bounds m2) as [L2 U2].
  set (d1 := Zpos (digits2_pos m1)) in *. set (d2 := Zpos (digits2_pos m2)) in *.
  assert (Hd1 : 0 < d1) by (subst d1; lia).
  assert (Hd2 : 0 < d2) by (subst d2; lia).
  set (e' := Z.min (Z.max (d1 + e1 - (d2 + e2) - 53) (-1074)) (e1 - e2)).
  set (s := e1 - e2 - e').
  assert (Hs : 0 <= s) by (subst s e'; lia).
  set (m' := match s with 0 => Zpos m1 | Zpos _ => Z.shiftl (Zpos m1) s | Zneg _ => 0 end).
  assert (Hm' : m' = Zpos m1 * 2 ^ s).
  { subst m'. destruct s as [ |p|p] eqn:Es; try lia.
    apply Z.shiftl_mul_pow2. lia. }
  pose proof (Z_div_mod m' (Zpos m2) ltac:(lia)) as Hdm.
  destruct (Z.div_eucl m' (Zpos m2)) as [q r]. destruct Hdm as [Hq Hr].
  assert (Hp : 0 < 2 ^ s) by (apply Z.pow_pos_nonneg; lia).
  assert (Hq0 : 0 <= q) by nia.
  split; [ exact Hq0 | split ].
  - rewrite fexp_spec.
    destruct (Z.le_gt_cases e' (-1074)) as [Hc | Hc]; [ lia | ].
    assert (Hs' : d2 - d1 + 53 <= s) by (subst s e'; lia).
    assert (Hpow : 2 ^ (d2 + 52) <= m').
    { rewrite Hm'. apply (Z.le_trans _ (2 ^ (d1 - 1) * 2 ^ s)).
      - rewrite <- Z.pow_add_r by lia. apply Z.pow_le_mono_r; lia.
      - apply Z.mul_le_mono_nonneg_r; lia. }
    rewrite Z.pow_add_r in Hpow by lia.
    assert (H52 : 2 ^ 52 <= q).
    { destruct (Z.le_gt_cases (2 ^ 52) q) as [Hok | Hlt]; [ exact Hok | exfalso ].
      assert (0 < 2 ^ 52) by (apply Z.pow_pos_nonneg; lia).
      nia. }
    pose proof (Zdigits2_ge q 52 H52 ltac:(lia)). lia.
  - exists (inject_Z m' * / inject_Z (Zpos m2))%Q.
    assert (Hne : ~ (inject_Z (Zpos m2) == 0)%Q) by discriminate.
    split.
    + apply (new_location_locates _ (Zpos m2) q r); [ lia | lia | ].
      rewrite <- Qmult_assoc, (Qmult_comm (/ _)), Qmult_inv_r by exact Hne.
      rewrite Qmult_1_r. replace (q * Zpos m2 + r) with m' by lia. reflexivity.
    + unfold val. rewrite Hm', inject_Z_mult, <- (pow2_Z s Hs).
      replace e1 with (s + e' + e2) by (subst s; lia). rewrite !pow2_add.
      field. exact Hne.
Qed.

Lemma SFdiv_rounds (x y : spec_float) :
  valid_binary x = true -> valid_binary y = true ->
  SFfinite x = true -> (exists s m e, y = S754_finite s m e) ->
  rounds_to (SFval x / SFval y) (SFdiv prec emax x y).
Proof.
  intros Vx Vy Fx [sy [my [ey ->]]].
  destruct x as [sx|sx| |sx mx ex]; try discriminate.
  - right; right. split; [ cbn [SFval]; unfold Qdiv; ring | cbn; eauto ].
  - cbn [SFdiv].
    pose proof (SFdiv_core_spec mx ex my ey) as Hc.
    destruct (SFdiv_core_binary prec emax (Zpos mx) ex (Zpos my) ey)
      as [[q e'] l].
    destruct Hc as [Hq [He [z [Hl Hz]]]].
    pose proof (binary_round_aux_rounds (xorb sx sy) z q e' l Hq Hl He) as Hr.
    pose proof (val_pos mx ex) as Px. pose proof (val_pos my ey) as Py.
    assert (Hz' : (z * pow2 e' == val (Zpos mx) ex / val (Zpos my) ey)%Q).
    { rewrite <- Hz. field. lra. }
    assert (Hpos : (0 < val (Zpos mx) ex / val (Zpos my) ey)%Q).
    { apply Qlt_shift_div_l; lra. }
    apply (rounds_proper _ _ _ _ Hz') in Hr.
    cbn [SFval].
    destruct sx, sy; cbn [xorb] in *.
    + left. split; [ | eapply rounds_proper; [ | exact Hr ] ].
      * setoid_replace (- val (Zpos mx) ex / - val (Zpos my) ey)%Q
          with (val (Zpos mx) ex / val (Zpos my) ey)%Q by (field; lra).
        exact Hpos.
      * field. lra.
    + right; left. split; [ | eapply rounds_proper; [ | exact Hr ] ].
      * setoid_replace (- val (Zpos mx) ex / val (Zpos my) ey)%Q
          with (- (val (Zpos mx) ex / val (Zpos my) ey))%Q by (field; lra).
        lra.
      * field. lra.
    + right; left. split; [ | eapply rounds_proper; [ | exact Hr ] ].
      * setoid_replace (val (Zpos mx) ex / - val (Zpos my) ey)%Q
          with (- (val (Zpos mx) ex / val (Zpos my) ey))%Q by (field; lra).
        lra.
      * field. lra.
    + left. split; [ exact Hpos | exact Hr ].
Qed.

(** *** The error of a rounding *)



(** *** Monotone operations, infinities included *)


Lemma number_cases (r : spec_float) :
  sf_nan r = false ->
  SFfinite r = true \/ r = S754_infinity false \/ r = S754_infinity true.
Proof. destruct r as [s|[ | ]| |s m e]; intro; try discriminate; auto. Qed.


Lemma rounds_to_finite_or_inf (x : Q) (r : spec_float) :
  rounds_to x r -> sf_nan r = false.
Proof.
  intro H. pose proof (rounds_to_number x r H).
  destruct r; try reflexivity. contradiction.
Qed.

(** A function of one binary64 value that rounds a non-decreasing function
    of the rationals, and keeps the infinities, is non-decreasing. *)
Lemma rounded_function_mono (f : spec_float -> spec_float) (g : Q -> Q) :
  (forall x, valid_binary x = true -> SFfinite x = true ->
             rounds_to (g (SFval x)) (f x)) ->
  (forall u v : Q, (u <= v)%Q -> (g u <= g v)%Q) ->
  f (S754_infinity false) = S754_infinity false ->
  f (S754_infinity true) = S754_infinity true ->
  forall a b,
    valid_binary a = true -> valid_binary b = true ->
    valid_binary (f a) = true -> valid_binary (f b) = true ->
    SFleb a b = true -> SFleb (f a) (f b) = true.
Proof.
  intros Hf Hg Hp Hn a b Va Vb Vfa Vfb Hab.
  destruct (SFleb_numbers _ _ Hab) as [Na Nb].
  destruct (number_cases a Na) as [Fa | [-> | ->]];
    destruct (number_cases b Nb) as [Fb | [-> | ->]];
    rewrite ?Hp, ?Hn.
  - apply (rounds_to_mono (g (SFval a)) (g (SFval b)));
      try assumption; try (apply Hf; assumption).
    apply Hg. apply SFleb_val; assumption.
  - pose proof (rounds_to_finite_or_inf _ _ (Hf a Va Fa)) as Hr.
    destruct (f a) as [s|[ | ]| |[ | ] m e]; try discriminate; reflexivity.
  - destruct a as [s|s| |[ | ] m e]; discriminate.
  - destruct b as [s|s| |[ | ] m e]; discriminate.
  - reflexivity.
  - discriminate.
  - pose proof (rounds_to_finite_or_inf _ _ (Hf b Vb Fb)) as Hr.
    destruct (f b) as [s|[ | ]| |[ | ] m e]; try discriminate; reflexivity.
  - reflexivity.
  - reflexivity.
Qed.

Lemma rounds_to_opp (x : Q) (r : spec_float) :
  rounds_to x r -> rounds_to (- x) (SFopp r).
Proof.
  intros [[P H] | [[P H] | [P [s ->]]]].
  - right; left. split; [ lra | ].
    apply (rounds_proper _ x); [ ring | ]. apply (rounds_opp false), H.
  - left. split; [ lra | apply (rounds_opp true), H ].
  - right; right. split; [ lra | cbn; eauto ].
Qed.

End Rounding.

(** ** Binary64: the operations on primitive floats *)

Module Arithmetic.

Import Binary64 Rounding.

Local Open Scope float_scope.

Ltac literal :=
  lazymatch goal with
  | |- positive_literal _ => unfold positive_literal; vm_compute; eauto
  end.

Lemma positive_literal_finite (c : float) : positive_literal c -> finite c = true.
Proof. intros [m [e Hc]]. unfold finite. rewrite Hc. reflexivity. Qed.

Lemma finite_number (x : float) : finite x = true -> isnan x = false.
Proof.
  unfold finite. rewrite isnan_float. destruct (Prim2SF x); try discriminate;
    reflexivity.
Qed.

Lemma leb_number (a b : float) :
  (a <=? b) = true -> isnan a = false /\ isnan b = false.
Proof. exact (num_le_number (T := float) a b). Qed.

Lemma leb_refl (a : float) : isnan a = false -> (a <=? a) = true.
Proof. exact (num_le_refl (T := float) a). Qed.

Lemma leb_trans (a b c : float) :
  (a <=? b) = true -> (b <=? c) = true -> (a <=? c) = true.
Proof. exact (num_le_trans (T := float) a b c). Qed.

(** On finite values the comparisons are those of the rationals denoted. *)
Lemma leb_value (a b : float) :
  finite a = true -> finite b = true ->
  ((a <=? b) = true <-> (value a <= value b)%Q).
Proof.
  intros Fa Fb. rewrite leb_spec.
  apply SFleb_val; try apply Prim2SF_valid; assumption.
Qed.

Lemma ltb_value (a b : float) :
  finite a = true -> finite b = true ->
  ((a <? b) = true <-> (value a < value b)%Q).
Proof.
  intros Fa Fb. pose proof (leb_value b a Fb Fa) as Hle.
  pose proof (finite_number a Fa) as Na. pose proof (finite_number b Fb) as Nb.
  split; intro H.
  - apply Qnot_le_lt. intro Hc. apply Hle in Hc.
    pose proof (num_lt_asym (T := float) a b H). cbn [le PyNum_float] in *.
    congruence.
  - destruct (a <? b) eqn:E; [ reflexivity | exfalso ].
    pose proof (num_le_total (T := float) a b Na Nb E) as Hc.
    apply Hle in Hc. lra.
Qed.

(** A number between two finite values is finite. *)
Lemma between_finite (x lo hi : float) :
  (lo <=? x) = true -> (x <=? hi) = true ->
  finite lo = true -> finite hi = true -> finite x = true.
Proof.
  unfold finite. rewrite !leb_spec.
  destruct (Prim2SF lo) as [s|s| |s m e]; try discriminate;
    destruct (Prim2SF hi) as [s'|s'| |s' m' e']; try discriminate;
    destruct (Prim2SF x) as [[ | ]|[ | ]| |[ | ] m'' e'']; try reflexivity;
    try destruct s; try destruct s'; cbn; intros; discriminate.
Qed.

Lemma SFsub_inf (s : bool) (c : spec_float) :
  SFfinite c = true ->
  SFsub prec emax (S754_infinity s) c = S754_infinity s /\
  SFsub prec emax c (S754_infinity s) = S754_infinity (negb s).
Proof. destruct c; try discriminate; intros _; split; reflexivity. Qed.

Lemma SFadd_inf (s : bool) (c : spec_float) :
  SFfinite c = true ->
  SFadd prec emax (S754_infinity s) c = S754_infinity s /\
  SFadd prec emax c (S754_infinity s) = S754_infinity s.
Proof. destruct c; try discriminate; intros _; split; reflexivity. Qed.

(** Subtracting a finite value is non-decreasing. *)
Lemma sub_le_l (a b c : float) :
  finite c = true -> (a <=? b) = true -> (a - c <=? b - c) = true.
Proof.
  intros Fc. rewrite !leb_spec, !sub_spec.
  apply (rounded_function_mono
           (fun x => SFsub prec emax x (Prim2SF c))
           (fun u => u - value c)%Q);
    try apply Prim2SF_valid; try (rewrite <- sub_spec; apply Prim2SF_valid).
  - intros x Vx Fx. apply SFsub_rounds; try assumption. apply Prim2SF_valid.
  - intros u v Huv. lra.
  - apply SFsub_inf, Fc.
  - apply SFsub_inf, Fc.
Qed.

(** Subtracting from a finite value is non-increasing. *)
Lemma sub_le_r (a b c : float) :
  finite c = true -> (a <=? b) = true -> (c - b <=? c - a) = true.
Proof.
  intros Fc. rewrite !leb_spec, !sub_spec. intro Hab.
  rewrite <- SFleb_opp.
  revert Hab.
  apply (rounded_function_mono
           (fun x => SFopp (SFsub prec emax (Prim2SF c) x))
           (fun u => u - value c)%Q);
    try apply Prim2SF_valid;
    try (apply valid_opp; rewrite <- sub_spec; apply Prim2SF_valid).
  - intros x Vx Fx.
    apply (rounds_to_proper (- (value c - SFval x))); [ ring | ].
    apply rounds_to_opp, SFsub_rounds; try assumption. apply Prim2SF_valid.
  - intros u v Huv. lra.
  - rewrite (proj2 (SFsub_inf false _ Fc)). reflexivity.
  - rewrite (proj2 (SFsub_inf true _ Fc)). reflexivity.
Qed.

(** Adding a finite value is non-decreasing. *)
Lemma add_le_l (a b c : float) :
  finite c = true -> (a <=? b) = true -> (a + c <=? b + c) = true.
Proof.
  intros Fc. rewrite !leb_spec, !add_spec.
  apply (rounded_function_mono
           (fun x => SFadd prec emax x (Prim2SF c))
           (fun u => u + value c)%Q);
    try apply Prim2SF_valid; try (rewrite <- add_spec; apply Prim2SF_valid).
  - intros x Vx Fx. apply SFadd_rounds; try assumption. apply Prim2SF_valid.
  - intros u v Huv. lra.
  - apply SFadd_inf, Fc.
  - apply SFadd_inf, Fc.
Qed.

Lemma add_le_r (a b c : float) :
  finite c = true -> (a <=? b) = true -> (c + a <=? c + b) = true.
Proof.
  intros Fc. rewrite !leb_spec, !add_spec.
  apply (rounded_function_mono
           (fun x => SFadd prec emax (Prim2SF c) x)
           (fun u => value c + u)%Q);
    try apply Prim2SF_valid; try (rewrite <- add_spec; apply Prim2SF_valid).
  - intros x Vx Fx. apply SFadd_rounds; try assumption. apply Prim2SF_valid.
  - intros u v Huv. lra.
  - apply SFadd_inf, Fc.
  - apply SFadd_inf, Fc.
Qed.

Lemma positive_literal_value (c : float) :
  positive_literal c -> (0 < value c)%Q.
Proof.
  intros [m [e Hc]]. unfold value. rewrite Hc. apply val_pos.
Qed.

(** Multiplying by a positive literal is non-decreasing. *)
Lemma mul_le (a b c : float) :
  positive_literal c -> (a <=? b) = true -> (c * a <=? c * b) = true.
Proof.
  intros Pc. pose proof (positive_literal_value c Pc) as Hv.
  pose proof (positive_literal_finite c Pc) as Fc.
  destruct Pc as [m [e Hc]].
  rewrite !leb_spec, !mul_spec.
  apply (rounded_function_mono
           (fun x => SFmul prec emax (Prim2SF c) x)
           (fun u => value c * u)%Q);
    try apply Prim2SF_valid; try (rewrite <- mul_spec; apply Prim2SF_valid).
  - intros x Vx Fx. apply SFmul_rounds; try assumption. apply Prim2SF_valid.
  - intros u v Huv. apply Qmult_le_l; assumption.
  - rewrite Hc. reflexivity.
  - rewrite Hc. reflexivity.
Qed.

(** Dividing by a positive literal is non-decreasing. *)
Lemma div_le (a b c : float) :
  positive_literal c -> (a <=? b) = true -> (a / c <=? b / c) = true.
Proof.
  intros Pc. pose proof (positive_literal_value c Pc) as Hv.
  destruct Pc as [m [e Hc]].
  rewrite !leb_spec, !div_spec.
  apply (rounded_function_mono
           (fun x => SFdiv prec emax x (Prim2SF c))
           (fun u => u / value c)%Q);
    try apply Prim2SF_valid; try (rewrite <- div_spec; apply Prim2SF_valid).
  - intros x Vx Fx. apply SFdiv_rounds; try assumption;
      [ apply Prim2SF_valid | rewrite Hc; eauto ].
  - intros u v Huv. unfold Qdiv. apply Qmult_le_compat_r; [ exact Huv | ].
    apply Qlt_le_weak, Qinv_lt_0_compat, Hv.
  - rewrite Hc. reflexivity.
  - rewrite Hc. reflexivity.
Qed.

(** These operations make no NaN out of a number. *)
Lemma sub_number_l (x c : float) :
  positive_literal c -> isnan x = false -> isnan (x - c) = false.
Proof.
  intros Pc Hx.
  exact (proj1 (leb_number _ _
                  (sub_le_l x x c (positive_literal_finite c Pc) (leb_refl x Hx)))).
Qed.

Lemma sub_number_r (c y : float) :
  positive_literal c -> isnan y = false -> isnan (c - y) = false.
Proof.
  intros Pc Hy.
  exact (proj1 (leb_number _ _
                  (sub_le_r y y c (positive_literal_finite c Pc) (leb_refl y Hy)))).
Qed.

Lemma div_number (x c : float) :
  positive_literal c -> isnan x = false -> isnan (x / c) = false.
Proof.
  intros Pc Hx.
  exact (proj1 (leb_number _ _ (div_le x x c Pc (leb_refl x Hx)))).
Qed.



End Arithmetic.

(** ** Binary64: the scores are numbers, and monotone *)

Module Scores.

Import Binary64 Rounding Arithmetic.

Local Open Scope float_scope.

Lemma clamp01_between (x : float) :
  isnan x = false -> (0 <=? clamp01 x) = true /\ (clamp01 x <=? 1) = true.
Proof.
  intro Hx. exact (np_clip_between x (lit 0.0) (lit 1.0) Hx eq_refl).
Qed.

Lemma clamp01_le (x y : float) :
  (x <=? y) = true -> (clamp01 x <=? clamp01 y) = true.
Proof.
  intro Hxy.
  exact (np_clip_le x y (lit 0.0) (lit 1.0) eq_refl eq_refl Hxy).
Qed.

(** A rising ramp [clamp01((x - c) / d)] and a falling ramp
    [clamp01((c - x) / d)]. *)
Lemma ramp_up_le (c d x1 x2 : float) :
  positive_literal c -> positive_literal d -> (x1 <=? x2) = true ->
  (clamp01 ((x1 - c) / d) <=? clamp01 ((x2 - c) / d)) = true.
Proof.
  intros Pc Pd Hx.
  apply clamp01_le, div_le, sub_le_l; try assumption.
  apply positive_literal_finite, Pc.
Qed.

Lemma ramp_down_le (c d x1 x2 : float) :
  positive_literal c -> positive_literal d -> (x1 <=? x2) = true ->
  (clamp01 ((c - x2) / d) <=? clamp01 ((c - x1) / d)) = true.
Proof.
  intros Pc Pd Hx.
  apply clamp01_le, div_le, sub_le_r; try assumption.
  apply positive_literal_finite, Pc.
Qed.

(** A value compared with itself is a number, and conversely. *)
Lemma ramp_range (r1 r2 : float) :
  (clamp01 r1 <=? clamp01 r2) = true ->
  ((0 <=? clamp01 r1) = true /\ (clamp01 r1 <=? 1) = true) /\
  ((0 <=? clamp01 r2) = true /\ (clamp01 r2 <=? 1) = true).
Proof.
  intro H. destruct (leb_number _ _ H) as [N1 N2].
  assert (Hn : forall r, isnan (clamp01 r) = false -> isnan r = false).
  { intros r Hr. destruct (isnan r) eqn:E; [ | reflexivity ].
    unfold clamp01 in Hr.
    rewrite (np_clip_nan (T := float) r _ _ E) in Hr. congruence. }
  split; apply clamp01_between, Hn; assumption.
Qed.

Lemma mul_zero (w : float) : positive_literal w -> Prim2SF (w * 0) = S754_zero false.
Proof. intros [m [e Hw]]. rewrite mul_spec, Hw. reflexivity. Qed.

(** The product of a positive literal and a value of [[0, hi]]. *)
Lemma mul_range (w a hi : float) :
  positive_literal w -> finite (w * hi) = true ->
  (0 <=? a) = true -> (a <=? hi) = true ->
  (0 <=? w * a) = true /\ (w * a <=? w * hi) = true /\ finite (w * a) = true.
Proof.
  intros Pw Fh H0 H1.
  pose proof (mul_le 0 a w Pw H0) as Hlo.
  pose proof (mul_le a hi w Pw H1) as Hhi.
  assert (Fz : finite (w * 0) = true)
    by (unfold finite; rewrite (mul_zero w Pw); reflexivity).
  assert (Hz : (0 <=? w * 0) = true)
    by (rewrite leb_spec, (mul_zero w Pw); reflexivity).
  split; [ exact (leb_trans _ _ _ Hz Hlo) | split; [ exact Hhi | ] ].
  exact (between_finite _ _ _ Hlo Hhi Fz Fh).
Qed.

(** The weighted sum of two values of [[0, 1]] with positive literals is
    non-decreasing in both. *)
Lemma weighted_le (w1 w2 a1 a2 b1 b2 : float) :
  positive_literal w1 -> positive_literal w2 ->
  finite (w1 * 1) = true -> finite (w2 * 1) = true ->
  (0 <=? a1) = true -> (a1 <=? a2) = true -> (a2 <=? 1) = true ->
  (0 <=? b1) = true -> (b1 <=? b2) = true -> (b2 <=? 1) = true ->
  (w1 * a1 + w2 * b1 <=? w1 * a2 + w2 * b2) = true.
Proof.
  intros P1 P2 F1 F2 A0 A12 A1 B0 B12 B1.
  destruct (mul_range w2 b1 1 P2 F2 B0 (leb_trans _ _ _ B12 B1)) as [_ [_ Fq1]].
  destruct (mul_range w1 a2 1 P1 F1 (leb_trans _ _ _ A0 A12) A1) as [_ [_ Fp2]].
  apply (leb_trans _ (w1 * a2 + w2 * b1)).
  - apply add_le_l; [ exact Fq1 | apply mul_le; assumption ].
  - apply add_le_r; [ exact Fp2 | apply mul_le; assumption ].
Qed.

(** The score before its final clip: [100.0 * (w1 * a + w2 * b)]. *)
Lemma scaled_weighted_le (w1 w2 a1 a2 b1 b2 : float) :
  positive_literal w1 -> positive_literal w2 ->
  finite (w1 * 1) = true -> finite (w2 * 1) = true ->
  (clamp01 a1 <=? clamp01 a2) = true -> (clamp01 b1 <=? clamp01 b2) = true ->
  (np_clip (lit 100.0 * (w1 * clamp01 a1 + w2 * clamp01 b1))%py (lit 0) (lit 100) <=?
   np_clip (lit 100.0 * (w1 * clamp01 a2 + w2 * clamp01 b2))%py (lit 0) (lit 100))
  = true.
Proof.
  intros P1 P2 F1 F2 Ha Hb.
  destruct (ramp_range _ _ Ha) as [[A0 _] [_ A1]].
  destruct (ramp_range _ _ Hb) as [[B0 _] [_ B1]].
  refine (np_clip_le (T := float) _ _ (lit 0) (lit 100) eq_refl eq_refl _).
  cbn [mul add le PyNum_float].
  apply mul_le; [ literal | ].
  apply weighted_le; assumption.
Qed.

(** The final clip of such a score changes nothing. *)
Lemma scaled_weighted_clip (w1 w2 a b : float) :
  positive_literal w1 -> positive_literal w2 ->
  finite (w1 * 1) = true -> finite (w2 * 1) = true ->
  (0 <=? lit 100.0 * (w1 * 0 + w2 * 0))%py = true ->
  (lit 100.0 * (w1 * 1 + w2 * 1) <=? 100)%py = true ->
  isnan a = false -> isnan b = false ->
  np_clip (lit 100.0 * (w1 * clamp01 a + w2 * clamp01 b))%py (lit 0) (lit 100) =
  (lit 100.0 * (w1 * clamp01 a + w2 * clamp01 b))%py.
Proof.
  intros P1 P2 F1 F2 Hbot Htop Ha Hb.
  destruct (clamp01_between a Ha) as [A0 A1].
  destruct (clamp01_between b Hb) as [B0 B1].
  cbn [mul add PyNum_float] in *.
  assert (L100 : positive_literal (lit 100.0)) by literal.
  assert (R0 : (0 <=? 0) = true) by reflexivity.
  assert (R1 : (1 <=? 1) = true) by reflexivity.
  pose proof (mul_le _ _ _ L100
                (weighted_le w1 w2 0 (clamp01 a) 0 (clamp01 b) P1 P2 F1 F2
                   R0 A0 A1 R0 B0 B1)) as Hlo.
  pose proof (mul_le _ _ _ L100
                (weighted_le w1 w2 (clamp01 a) 1 (clamp01 b) 1 P1 P2 F1 F2
                   A0 A1 R1 B0 B1 R1)) as Hhi.
  pose proof (leb_trans _ _ _ Hbot Hlo) as H0.
  pose proof (leb_trans _ _ _ Hhi Htop) as H1.
  set (raw := lit 100.0 * (w1 * clamp01 a + w2 * clamp01 b)) in *.
  assert (Hb' : @le float PyNum_float (@lit float PyNum_float 0)
                   (@lit float PyNum_float 100) = true) by reflexivity.
  destruct (@np_clip_cases float PyNum_float PyOrd_float raw _ _ Hb')
    as [[Hc _] | [[_ [Hc _]] | [_ [_ Hc]]]]; [ exfalso | exfalso | exact Hc ].
  - pose proof (@le_lt_false float PyNum_float PyOrd_float _ _ H0) as Hf.
    discriminate (eq_trans (eq_sym Hc) Hf).
  - pose proof (@le_lt_false float PyNum_float PyOrd_float _ _ H1) as Hf.
    discriminate (eq_trans (eq_sym Hc) Hf).
Qed.

(** [score_systemic] is non-decreasing in both arguments. *)
Lemma score_systemic_le (age1 age2 bmi1 bmi2 : float) :
  (age1 <=? age2) = true -> (bmi1 <=? bmi2) = true ->
  (score_systemic age1 bmi1 <=? score_systemic age2 bmi2) = true.
Proof.
  intros Ha Hb. unfold score_systemic.
  apply scaled_weighted_le; try literal; try reflexivity;
    cbn [sub div PyNum_float]; apply ramp_up_le; try literal; assumption.
Qed.

(** [score_endometrial] is non-increasing in both arguments. *)
Lemma score_endometrial_le (emt1 emt2 prog1 prog2 : float) :
  (emt1 <=? emt2) = true -> (prog1 <=? prog2) = true ->
  (score_endometrial emt2 prog2 <=? score_endometrial emt1 prog1) = true.
Proof.
  intros Ha Hb. unfold score_endometrial.
  apply scaled_weighted_le; try literal; try reflexivity;
    cbn [sub div PyNum_float]; apply ramp_down_le; try literal; assumption.
Qed.

Lemma score_number (s : float) : score s -> isnan s = false.
Proof. intros [H0 _]. apply (leb_number _ _ H0). Qed.


(** A clip to [[0, 100]] of a number is a score. *)
Lemma final_clip_score (x : float) :
  isnan x = false -> score (np_clip x (lit 0) (lit 100)).
Proof.
  intro Hn. exact (np_clip_between x (lit 0) (lit 100) Hn eq_refl).
Qed.

Lemma clip_le_number (x lo hi : float) :
  isnan lo = false -> isnan hi = false ->
  (np_clip x lo hi <=? np_clip x lo hi) = true -> isnan x = false.
Proof.
  intros Hlo Hhi H. destruct (isnan x) eqn:E; [ | reflexivity ].
  rewrite (np_clip_nan (T := float) x lo hi E) in H.
  destruct (leb_number _ _ H). congruence.
Qed.

Lemma score_systemic_score (age bmi : float) :
  isnan age = false -> isnan bmi = false -> score (score_systemic age bmi).
Proof.
  intros Ha Hb.
  pose proof (score_systemic_le age age bmi bmi (leb_refl _ Ha) (leb_refl _ Hb))
    as Hle.
  unfold score_systemic in *. apply final_clip_score.
  apply (clip_le_number _ (lit 0) (lit 100)); try reflexivity. exact Hle.
Qed.

Lemma score_endometrial_score (emt_mm prog_ng_ml : float) :
  isnan emt_mm = false -> isnan prog_ng_ml = false ->
  score (score_endometrial emt_mm prog_ng_ml).
Proof.
  intros Ha Hb.
  pose proof (score_endometrial_le emt_mm emt_mm prog_ng_ml prog_ng_ml
                (leb_refl _ Ha) (leb_refl _ Hb)) as Hle.
  unfold score_endometrial in *. apply final_clip_score.
  apply (clip_le_number _ (lit 0) (lit 100)); try reflexivity. exact Hle.
Qed.

Lemma score_embryo_score (euploid good_grade : bool) :
  score (score_embryo euploid good_grade).
Proof.
  destruct euploid, good_grade; vm_compute; auto.
Qed.


(** *** The index over three scores *)

(** The sum of two values of [[0, A]] and [[0, B]]. *)
Lemma add_range (a b A B : float) :
  (0 <=? a) = true -> (a <=? A) = true -> (0 <=? b) = true -> (b <=? B) = true ->
  finite a = true -> finite b = true -> finite A = true -> finite (A + B) = true ->
  (0 <=? a + b) = true /\ (a + b <=? A + B) = true /\ finite (a + b) = true.
Proof.
  intros A0 A1 B0 B1 Fa Fb FA FAB.
  assert (Hlo : (0 + 0 <=? a + b) = true).
  { apply (leb_trans _ (a + 0)).
    - apply add_le_l; [ vm_compute; reflexivity | exact A0 ].
    - apply add_le_r; assumption. }
  assert (Hhi : (a + b <=? A + B) = true).
  { apply (leb_trans _ (A + b)).
    - apply add_le_l; assumption.
    - apply add_le_r; assumption. }
  assert (Hz : (0 <=? 0 + 0) = true) by (vm_compute; reflexivity).
  assert (Fz : finite (0 + 0) = true) by (vm_compute; reflexivity).
  split; [ exact (leb_trans 0 (0 + 0) (a + b) Hz Hlo) | split; [ exact Hhi | ] ].
  exact (between_finite (a + b) (0 + 0) (A + B) Hlo Hhi Fz FAB).
Qed.

(** The weighted sum of [navigator_index] before its clip. *)
Lemma index_parts (egs eps sbs : float) :
  score egs -> score eps -> score sbs ->
  finite (lit 0.45 * egs)%py = true /\ finite (lit 0.35 * eps)%py = true /\
  finite (lit 0.20 * sbs)%py = true /\
  finite (lit 0.45 * egs + lit 0.35 * eps)%py = true /\
  (0 <=? lit 0.45 * egs + lit 0.35 * eps + lit 0.20 * sbs)%py = true /\
  (lit 0.45 * egs + lit 0.35 * eps + lit 0.20 * sbs <=? 100)%py = true /\
  finite (lit 0.45 * egs + lit 0.35 * eps + lit 0.20 * sbs)%py = true.
Proof.
  intros [G0 G1] [P0 P1] [S0 S1]. cbn [mul add PyNum_float].
  assert (W1 : positive_literal (lit 0.45)) by literal.
  assert (W2 : positive_literal (lit 0.35)) by literal.
  assert (W3 : positive_literal (lit 0.20)) by literal.
  assert (F1 : finite (lit 0.45 * 100) = true) by (vm_compute; reflexivity).
  assert (F2 : finite (lit 0.35 * 100) = true) by (vm_compute; reflexivity).
  assert (F3 : finite (lit 0.45 * 100 + lit 0.35 * 100) = true)
    by (vm_compute; reflexivity).
  assert (F4 : finite (lit 0.45 * 100 + lit 0.35 * 100 + lit 0.20 * 100) = true)
    by (vm_compute; reflexivity).
  assert (F5 : finite (lit 0.20 * 100) = true) by (vm_compute; reflexivity).
  destruct (mul_range (lit 0.45) egs 100 W1 F1 G0 G1) as [Hg0 [Hg1 Fg]].
  destruct (mul_range (lit 0.35) eps 100 W2 F2 P0 P1) as [Hp0 [Hp1 Fp]].
  destruct (mul_range (lit 0.20) sbs 100 W3 F5 S0 S1) as [Hs0 [Hs1 Fs]].
  destruct (add_range _ _ _ _ Hg0 Hg1 Hp0 Hp1 Fg Fp F1 F3) as [Ha0 [Ha1 Fa]].
  destruct (add_range _ _ _ _ Ha0 Ha1 Hs0 Hs1 Fa Fs F3 F4) as [Hr0 [Hr1 Fr]].
  repeat split; assumption.
Qed.

(** The index is non-decreasing in each score. *)
Lemma index_le (egs1 egs2 eps1 eps2 sbs1 sbs2 : float) :
  score egs1 -> score egs2 -> score eps1 -> score eps2 ->
  score sbs1 -> score sbs2 ->
  (egs1 <=? egs2) = true -> (eps1 <=? eps2) = true -> (sbs1 <=? sbs2) = true ->
  (np_clip (lit 0.45 * egs1 + lit 0.35 * eps1 + lit 0.20 * sbs1)%py (lit 0) (lit 100)
   <=?
   np_clip (lit 0.45 * egs2 + lit 0.35 * eps2 + lit 0.20 * sbs2)%py (lit 0) (lit 100))
  = true.
Proof.
  intros G1 G2 P1 P2 S1 S2 Hg Hp Hs.
  destruct (index_parts egs1 eps1 sbs1 G1 P1 S1) as [_ [Fp1 [Fs1 _]]].
  destruct (index_parts egs2 eps2 sbs2 G2 P2 S2) as [Fg2 [_ [_ [Fa2 _]]]].
  refine (np_clip_le (T := float) _ _ (lit 0) (lit 100) eq_refl eq_refl _).
  cbn [mul add le PyNum_float] in *.
  apply (leb_trans _ (lit 0.45 * egs2 + lit 0.35 * eps2 + lit 0.20 * sbs1)).
  - apply add_le_l; [ exact Fs1 | ].
    apply (leb_trans _ (lit 0.45 * egs2 + lit 0.35 * eps1)).
    + apply add_le_l; [ exact Fp1 | apply mul_le; [ literal | exact Hg ] ].
    + apply add_le_r; [ exact Fg2 | apply mul_le; [ literal | exact Hp ] ].
  - apply add_le_r; [ exact Fa2 | apply mul_le; [ literal | exact Hs ] ].
Qed.

(** The clip of the index changes nothing: the weighted sum of three scores
    is a number of [[0, 100]] already. *)
Lemma index_clip (egs eps sbs : float) :
  score egs -> score eps -> score sbs ->
  np_clip (lit 0.45 * egs + lit 0.35 * eps + lit 0.20 * sbs)%py (lit 0) (lit 100) =
  (lit 0.45 * egs + lit 0.35 * eps + lit 0.20 * sbs)%py.
Proof.
  intros G P S.
  destruct (index_parts egs eps sbs G P S) as [_ [_ [_ [_ [H0 [H1 _]]]]]].
  set (raw := (lit 0.45 * egs + lit 0.35 * eps + lit 0.20 * sbs)%py) in *.
  assert (Hb : @le float PyNum_float (@lit float PyNum_float 0)
                  (@lit float PyNum_float 100) = true) by reflexivity.
  destruct (@np_clip_cases float PyNum_float PyOrd_float raw _ _ Hb)
    as [[Hc _] | [[_ [Hc _]] | [_ [_ Hc]]]]; [ exfalso | exfalso | exact Hc ].
  - pose proof (@le_lt_false float PyNum_float PyOrd_float _ _ H0) as Hf.
    discriminate (eq_trans (eq_sym Hc) Hf).
  - pose proof (@le_lt_false float PyNum_float PyOrd_float _ _ H1) as Hf.
    discriminate (eq_trans (eq_sym Hc) Hf).
Qed.

Lemma index_score (egs eps sbs : float) :
  score egs -> score eps -> score sbs ->
  score (np_clip (lit 0.45 * egs + lit 0.35 * eps + lit 0.20 * sbs)%py
                 (lit 0) (lit 100)).
Proof.
  intros G P S. rewrite (index_clip egs eps sbs G P S).
  destruct (index_parts egs eps sbs G P S) as [_ [_ [_ [_ [H0 [H1 _]]]]]].
  split; assumption.
Qed.

(** The four values of [navigator_index] on numbers are scores. *)
Lemma navigator_index_scores
    (age bmi emt_mm prog_ng_ml : float) (euploid good_grade : bool) :
  isnan age = false -> isnan bmi = false ->
  isnan emt_mm = false -> isnan prog_ng_ml = false ->
  let '(sbs, eps, egs, gni) :=
    navigator_index age bmi emt_mm prog_ng_ml euploid good_grade in
  score sbs /\ score eps /\ score egs /\ score gni.
Proof.
  intros Ha Hb He Hp. unfold navigator_index.
  pose proof (score_systemic_score age bmi Ha Hb) as Hs.
  pose proof (score_endometrial_score emt_mm prog_ng_ml He Hp) as Hen.
  pose proof (score_embryo_score euploid good_grade) as Hem.
  split; [ exact Hs | split; [ exact Hen | split; [ exact Hem | ] ] ].
  apply index_score; assumption.
Qed.

End Scores.

(** ** Binary64: the index against the scores it weighs *)

Module Index.

Import Binary64 Rounding Arithmetic Scores.

Local Open Scope float_scope.






End Index.

(** ** The range of the scores, the limiting domain and the buckets *)

(** C1. For all [age], [bmi], [emt_mm], [prog_ng_ml] and all booleans
    [euploid], [good_grade], each of the four values [navigator_index]
    returns (SBS, EPS, EGS, GNI) lies in the closed interval [[0, 100]]:
    for all rational inputs in exact arithmetic, and for all binary64 inputs
    that are numbers (infinities included, NaN excluded) in binary64. *)
Theorem navigator_index_range :
  (forall (age bmi emt_mm prog_ng_ml : Q) (euploid good_grade : bool),
      let '(sbs, eps, egs, gni) :=
        navigator_index age bmi emt_mm prog_ng_ml euploid good_grade in
      (0 <= sbs <= 100) /\ (0 <= eps <= 100) /\
      (0 <= egs <= 100) /\ (0 <= gni <= 100))%Q /\
  (forall (age bmi emt_mm prog_ng_ml : float) (euploid good_grade : bool),
      isnan age = false -> isnan bmi = false ->
      isnan emt_mm = false -> isnan prog_ng_ml = false ->
      let '(sbs, eps, egs, gni) :=
        navigator_index age bmi emt_mm prog_ng_ml euploid good_grade in
      ((0 <=? sbs) = true /\ (sbs <=? 100) = true) /\
      ((0 <=? eps) = true /\ (eps <=? 100) = true) /\
      ((0 <=? egs) = true /\ (egs <=? 100) = true) /\
      ((0 <=? gni) = true /\ (gni <=? 100) = true))%float.
Proof.
  split.
  - exact Exact.navigator_index_range_exact.
  - intros age bmi emt_mm prog_ng_ml euploid good_grade Ha Hb He Hp.
    exact (Scores.navigator_index_scores
             age bmi emt_mm prog_ng_ml euploid good_grade Ha Hb He Hp).
Qed.

(** The binary64 range at age 34, BMI 25, EMT 9 mm, progesterone 10.5 ng/mL
    and a euploid embryo of good grade. *)
Lemma navigator_index_range_witness :
  (let '(sbs, eps, egs, gni) := navigator_index 34 25 9 10.5 true true in
   ((0 <=? sbs) = true /\ (sbs <=? 100) = true) /\
   ((0 <=? eps) = true /\ (eps <=? 100) = true) /\
   ((0 <=? egs) = true /\ (egs <=? 100) = true) /\
   ((0 <=? gni) = true /\ (gni <=? 100) = true))%float.
Proof.
  destruct navigator_index_range as [_ HF].
  apply (HF 34 25 9 10.5 true true)%float; reflexivity.
Defined.

(** C2. For all scores [sbs], [eps], [egs], [primary_limiting_domain]
    returns the name of a domain whose score is the numerical maximum of the
    three, and among tied maxima the first in the scan order Embryo,
    Endometrium, Systemic: Embryo whenever its score is a maximum,
    Endometrium when its score is a maximum and exceeds Embryo's, Systemic
    only when its score exceeds both others. Stated for rational scores,
    and for binary64 scores that are numbers with the code's own [<] and
    [<=]. *)
Theorem primary_limiting_domain_first_max :
  (forall sbs eps egs : Q,
      let dom := primary_limiting_domain sbs eps egs in
      let top := Qmax (Qmax egs eps) sbs in
      ((dom = "Embryo" /\ egs == top) \/
       (dom = "Endometrium" /\ eps == top) \/
       (dom = "Systemic" /\ sbs == top)) /\
      (dom = "Embryo" <-> eps <= egs /\ sbs <= egs) /\
      (dom = "Endometrium" <-> egs < eps /\ sbs <= eps) /\
      (dom = "Systemic" <-> egs < sbs /\ eps < sbs))%Q /\
  (forall sbs eps egs : float,
      isnan sbs = false -> isnan eps = false -> isnan egs = false ->
      let dom := primary_limiting_domain sbs eps egs in
      (dom = "Embryo" /\ (eps <=? egs) = true /\ (sbs <=? egs) = true) \/
      (dom = "Endometrium" /\ (egs <? eps) = true /\ (sbs <=? eps) = true) \/
      (dom = "Systemic" /\ (egs <? sbs) = true /\ (eps <? sbs) = true))%float.
Proof.
  split.
  - exact Exact.primary_limiting_domain_exact.
  - exact (primary_limiting_domain_max (T := float)).
Qed.

(** The scan at the binary64 scores 20, 50 and 50: Endometrium and Embryo
    tie at the maximum and Embryo is returned. *)
Lemma primary_limiting_domain_first_max_witness :
  (primary_limiting_domain 20 50 50 = "Embryo" /\
   (50 <=? 50) = true /\ (20 <=? 50) = true)%float.
Proof.
  destruct primary_limiting_domain_first_max as [_ HF].
  destruct (HF 20 50 50 eq_refl eq_refl eq_refl)%float
    as [Hd | [[Hd _] | [Hd _]]].
  - exact Hd.
  - discriminate Hd.
  - discriminate Hd.
Defined.

(** C3. For every score [s], [bucket s] is Low iff [s < 30], Moderate iff
    [30 <= s < 60] and High iff [s >= 60], for rational scores and for
    binary64 scores that are numbers; every score is classified; and
    bucket(29.999) = Low, bucket(30.0) = Moderate, bucket(59.999) = Moderate,
    bucket(60.0) = High, in exact arithmetic and in binary64. *)
Theorem bucket_thresholds :
  (forall s : Q,
      (bucket s = "Low" <-> s < 30) /\
      (bucket s = "Moderate" <-> 30 <= s /\ s < 60) /\
      (bucket s = "High" <-> 60 <= s))%Q /\
  (forall s : float,
      isnan s = false ->
      (bucket s = "Low" <-> (s <? 30) = true) /\
      (bucket s = "Moderate" <-> (30 <=? s) = true /\ (s <? 60) = true) /\
      (bucket s = "High" <-> (60 <=? s) = true))%float /\
  (forall (T : Type) (N : PyNum T) (s : T),
      bucket s = "Low" \/ bucket s = "Moderate" \/ bucket s = "High") /\
  (bucket 29.999%Q = "Low" /\ bucket 30.0%Q = "Moderate" /\
   bucket 59.999%Q = "Moderate" /\ bucket 60.0%Q = "High") /\
  (bucket 29.999%float = "Low" /\ bucket 30.0%float = "Moderate" /\
   bucket 59.999%float = "Moderate" /\ bucket 60.0%float = "High").
Proof.
  split; [ | split; [ | split; [ | split; [ repeat split | repeat split ] ] ] ].
  - intro s. unfold bucket. cbn [lt lit PyNum_Q].
    Exact.py_cases;
      repeat split; intros;
      repeat match goal with Hc : (_ /\ _)%Q |- _ => destruct Hc end;
      first [ discriminate | reflexivity | lra | exfalso; lra ].
  - intros s Hs. exact (bucket_bands s Hs eq_refl).
  - intros T N s. unfold bucket.
    destruct (lt s (lit 30)); [ left; reflexivity | ].
    destruct (lt s (lit 60)); [ right; left | right; right ]; reflexivity.
Qed.

(** The bands at the binary64 score 45.5. *)
Lemma bucket_thresholds_witness :
  (bucket 45.5 = "Moderate" <-> (30 <=? 45.5) = true /\ (45.5 <? 60) = true)%float.
Proof.
  destruct bucket_thresholds as [_ [HF _]].
  apply (HF 45.5%float eq_refl).
Defined.

(** C4. For all inputs, the GNI that [navigator_index] returns is
    0.45 * EGS + 0.35 * EPS + 0.20 * SBS clamped to [[0, 100]], where SBS,
    EPS, EGS are the three domain scores of those inputs (at any number
    type, and in exact arithmetic with the clamp as the nearest point of the
    interval); when the domain scores are SBS = 0, EPS = 0, EGS = 100 the
    GNI is exactly 45, and when all three are 100 it is exactly 100, in
    exact arithmetic and in binary64. *)
Theorem navigator_index_weighted :
  (forall (T : Type) (N : PyNum T) (age bmi emt_mm prog_ng_ml : T)
          (euploid good_grade : bool),
      let sbs := score_systemic age bmi in
      let eps := score_endometrial emt_mm prog_ng_ml in
      let egs := score_embryo euploid good_grade in
      navigator_index age bmi emt_mm prog_ng_ml euploid good_grade =
      (sbs, eps, egs,
       np_clip (lit 0.45 * egs + lit 0.35 * eps + lit 0.20 * sbs)%py
               (lit 0) (lit 100))) /\
  (forall (age bmi emt_mm prog_ng_ml : Q) (euploid good_grade : bool),
      let sbs := score_systemic age bmi in
      let eps := score_endometrial emt_mm prog_ng_ml in
      let egs := score_embryo euploid good_grade in
      let gni :=
        snd (navigator_index age bmi emt_mm prog_ng_ml euploid good_grade) in
      gni == clamped (0.45 * egs + 0.35 * eps + 0.20 * sbs) 0 100 /\
      (sbs == 0 -> eps == 0 -> egs == 100 -> gni == 45) /\
      (sbs == 100 -> eps == 100 -> egs == 100 -> gni == 100))%Q /\
  (forall (age bmi emt_mm prog_ng_ml : float) (euploid good_grade : bool),
      let sbs := score_systemic age bmi in
      let eps := score_endometrial emt_mm prog_ng_ml in
      let egs := score_embryo euploid good_grade in
      let gni :=
        snd (navigator_index age bmi emt_mm prog_ng_ml euploid good_grade) in
      (sbs = 0 -> eps = 0 -> egs = 100 -> gni = 45) /\
      (sbs = 100 -> eps = 100 -> egs = 100 -> gni = 100))%float.
Proof.
  split; [ reflexivity | split ].
  - intros age bmi emt_mm prog_ng_ml euploid good_grade sbs eps egs gni.
    subst gni. unfold navigator_index. cbn [snd].
    fold sbs eps egs. cbn [add mul lit PyNum_Q].
    pose proof (Exact.np_clip_clamped
                  (0.45 * egs + 0.35 * eps + 0.20 * sbs) 0 100)%Q as Hc.
    split; [ apply Hc; discriminate | ].
    assert (Hle : (0 <= 100)%Q) by discriminate.
    split; intros Hs Hp He.
    + rewrite Exact.np_clip_id; lra.
    + rewrite Exact.np_clip_id; lra.
  - intros age bmi emt_mm prog_ng_ml euploid good_grade sbs eps egs gni.
    subst gni. unfold navigator_index. cbn [snd]. fold sbs eps egs.
    split; intros Hs Hp He; rewrite Hs, Hp, He; reflexivity.
Qed.

(** The aggregate at age 30, BMI 22, EMT 7 mm, progesterone 9.5 ng/mL and a
    non-euploid embryo of poor grade: domain scores 0, 0, 100 and GNI 45. *)
Lemma navigator_index_weighted_witness :
  (snd (navigator_index 30 22 7 9.5 false false) == 45)%Q /\
  (snd (navigator_index 30 22 7 9.5 false false) = 45)%float.
Proof.
  destruct navigator_index_weighted as [_ [HQ HF]].
  split.
  - apply (HQ 30 22 7 9.5 false false)%Q; reflexivity.
  - apply (HF 30 22 7 9.5 false false)%float; reflexivity.
Defined.

(** C5, as stated, fails in binary64: for a euploid embryo of poor grade
    the source computes 100.0 * (1.0 - 0.7), and 1.0 - 0.7 is the binary64
    value 0.30000000000000004, so the score is not 30. *)
Lemma score_embryo_euploid_poor_not_30 :
  score_embryo (T := float) true false <> 30%float /\
  PrimFloat.eqb (score_embryo true false) 30 = false.
Proof.
  split; [ | reflexivity ].
  apply Binary64.float_neq. vm_compute. discriminate.
Qed.

(** C5, amended. [score_embryo] takes four values, one per boolean
    combination. In binary64 they are 0 for (True, True),
    30.000000000000004 for (True, False), 70 for (False, True) and 100 for
    (False, False), and the value for (True, False) reads 30.0 once rounded
    to one decimal, as the display of the scores does, and 30.00 once
    rounded to two; in exact arithmetic the four values are 0, 30, 70 and
    100. *)
Theorem score_embryo_values :
  (score_embryo true true = 0 /\
   score_embryo true false = 30.000000000000004 /\
   score_embryo false true = 70 /\
   score_embryo false false = 100)%float /\
  (format_f 1 (score_embryo (T := float) true false) = "30.0" /\
   format_f 2 (score_embryo (T := float) true false) = "30.00") /\
  (score_embryo true true == 0 /\
   score_embryo true false == 30 /\
   score_embryo false true == 70 /\
   score_embryo false false == 100)%Q.
Proof.
  repeat split.
Qed.

(** C8. At age 34, BMI 25.0, EMT 9.0 mm, progesterone 10.5 ng/mL and a
    euploid embryo of good grade, [navigator_index] yields SBS = 22.17 and
    GNI = 4.43 to two decimals, EPS = 0 and EGS = 0; the
    GNI bucket is Low and the primary limiting domain is Systemic. The
    scores behind the two decimals are 133/6 and 133/30 in exact arithmetic,
    22.166666666666668 and 4.433333333333334 in binary64. *)
Theorem navigator_index_example :
  (let '(sbs, eps, egs, gni) := navigator_index 34 25.0 9.0 10.5 true true in
   sbs == 133 # 6 /\ eps == 0 /\ egs == 0 /\ gni == 133 # 30 /\
   format_f 2 sbs = "22.17" /\ format_f 2 gni = "4.43" /\
   bucket gni = "Low" /\
   primary_limiting_domain sbs eps egs = "Systemic")%Q /\
  (let '(sbs, eps, egs, gni) := navigator_index 34 25.0 9.0 10.5 true true in
   sbs = 22.166666666666668 /\ eps = 0 /\ egs = 0 /\
   gni = 4.433333333333334 /\
   format_f 2 sbs = "22.17" /\ format_f 2 gni = "4.43" /\
   bucket gni = "Low" /\
   primary_limiting_domain sbs eps egs = "Systemic")%float.
Proof.
  split; vm_compute; repeat split.
Qed.




(** ** Monotonicity of the two measured scores *)

(** C6. [score_systemic] is non-decreasing in [age] (for every fixed [bmi])
    and non-decreasing in [bmi] (for every fixed [age]);
    [score_endometrial] is non-increasing in [emt_mm] (for every fixed
    [prog_ng_ml]) and non-increasing in [prog_ng_ml] (for every fixed
    [emt_mm]): for all rational inputs in exact arithmetic, and in binary64
    for all inputs that are numbers, infinities included, with the code's
    own [<=]. *)
Theorem scores_monotone :
  ((forall bmi age1 age2 : Q,
       age1 <= age2 -> score_systemic age1 bmi <= score_systemic age2 bmi) /\
   (forall age bmi1 bmi2 : Q,
       bmi1 <= bmi2 -> score_systemic age bmi1 <= score_systemic age bmi2) /\
   (forall prog_ng_ml emt1 emt2 : Q,
       emt1 <= emt2 ->
       score_endometrial emt2 prog_ng_ml <= score_endometrial emt1 prog_ng_ml) /\
   (forall emt_mm prog1 prog2 : Q,
       prog1 <= prog2 ->
       score_endometrial emt_mm prog2 <= score_endometrial emt_mm prog1))%Q /\
  ((forall bmi age1 age2 : float,
       isnan bmi = false -> (age1 <=? age2) = true ->
       (score_systemic age1 bmi <=? score_systemic age2 bmi) = true) /\
   (forall age bmi1 bmi2 : float,
       isnan age = false -> (bmi1 <=? bmi2) = true ->
       (score_systemic age bmi1 <=? score_systemic age bmi2) = true) /\
   (forall prog_ng_ml emt1 emt2 : float,
       isnan prog_ng_ml = false -> (emt1 <=? emt2) = true ->
       (score_endometrial emt2 prog_ng_ml <=? score_endometrial emt1 prog_ng_ml)
       = true) /\
   (forall emt_mm prog1 prog2 : float,
       isnan emt_mm = false -> (prog1 <=? prog2) = true ->
       (score_endometrial emt_mm prog2 <=? score_endometrial emt_mm prog1)
       = true))%float.
Proof.
  split; repeat split; intros.
  - apply Exact.score_systemic_mono; [ assumption | apply Qle_refl ].
  - apply Exact.score_systemic_mono; [ apply Qle_refl | assumption ].
  - apply Exact.score_endometrial_anti; [ assumption | apply Qle_refl ].
  - apply Exact.score_endometrial_anti; [ apply Qle_refl | assumption ].
  - apply Scores.score_systemic_le;
      [ assumption | apply Arithmetic.leb_refl; assumption ].
  - apply Scores.score_systemic_le;
      [ apply Arithmetic.leb_refl; assumption | assumption ].
  - apply Scores.score_endometrial_le;
      [ assumption | apply Arithmetic.leb_refl; assumption ].
  - apply Scores.score_endometrial_le;
      [ apply Arithmetic.leb_refl; assumption | assumption ].
Qed.

(** The four monotonicity statements in binary64 at ages 34 and 40, BMIs 25
    and 31, thicknesses 6 and 9 mm, progesterone 5 and 10.5 ng/mL. *)
Lemma scores_monotone_witness :
  ((score_systemic 34 25 <=? score_systemic 40 25) = true /\
   (score_systemic 34 25 <=? score_systemic 34 31) = true /\
   (score_endometrial 9 5 <=? score_endometrial 6 5) = true /\
   (score_endometrial 6 10.5 <=? score_endometrial 6 5) = true)%float.
Proof.
  destruct scores_monotone as [_ [Hage [Hbmi [Hemt Hprog]]]].
  split; [ apply Hage; reflexivity | ].
  split; [ apply Hbmi; reflexivity | ].
  split; [ apply Hemt; reflexivity | apply Hprog; reflexivity ].
Defined.

(** ** The suggested path *)

Section Path.

Context {T : Type} `{PyNum T}.
Local Open Scope py_scope.

Variables age bmi emt_mm prog_ng_ml : T.
Variables euploid good_grade : bool.
Variables sbs eps egs gni : T.

(** C7. For every input, the first section that [suggest_path] returns is
    the embryo gate: when [euploid] is false its title is exactly
    "Primary focus: Embryo competence" and it has exactly 3 bullets; when
    [euploid] is true its title is "Embryo gate passed (euploid = Yes)" and
    it has exactly 1 bullet. *)
Theorem suggest_path_embryo_gate :
  exists title bullets rest,
    suggest_path age bmi emt_mm prog_ng_ml euploid good_grade sbs eps egs gni
    = (title, bullets) :: rest /\
    if euploid
    then title = "Embryo gate passed (euploid = Yes)" /\ List.length bullets = 1%nat
    else title = "Primary focus: Embryo competence" /\ List.length bullets = 3%nat.
Proof.
  unfold suggest_path, append, embryo_gate. cbn [app].
  destruct euploid; cbn [negb];
    do 3 eexists; (split; [ reflexivity | split; reflexivity ]).
Qed.

Lemma endo_actions_length :
  List.length (endo_actions emt_mm prog_ng_ml) =
  match emt_mm <? lit 7.0, prog_ng_ml <? lit 9.5 with
  | true, true => 3%nat
  | true, false => 2%nat
  | false, _ => 1%nat
  end.
Proof.
  unfold endo_actions, append.
  destruct (emt_mm <? lit 7.0), (prog_ng_ml <? lit 9.5); reflexivity.
Qed.

Lemma sys_actions_length :
  List.length (sys_actions age bmi) =
  match (bmi >=? lit 30) || (bmi >=? lit 27), age >=? lit 38 with
  | true, true => 2%nat
  | _, _ => 1%nat
  end.
Proof.
  unfold sys_actions, append.
  destruct (bmi >=? lit 30), (bmi >=? lit 27), (age >=? lit 38); reflexivity.
Qed.

(** C9. For every input, [suggest_path] returns exactly 4 sections, in the
    order embryo gate, "Endometrial phenotype actions", "Systemic biology
    actions", "NAVIGATOR summary path"; every section has at least one and
    at most 3 bullets; the endometrial section has 3 bullets exactly when
    [emt_mm < 7.0] and [prog_ng_ml < 9.5], the systemic section has at most
    2, and the summary section has exactly 3. *)
Theorem suggest_path_sections :
  exists gate endo sys summ,
    suggest_path age bmi emt_mm prog_ng_ml euploid good_grade sbs eps egs gni
    = [ gate;
        ("Endometrial phenotype actions", endo);
        ("Systemic biology actions", sys);
        ("NAVIGATOR summary path", summ) ] /\
    fst gate = (if euploid then "Embryo gate passed (euploid = Yes)"
                else "Primary focus: Embryo competence") /\
    (1 <= List.length (snd gate) <= 3)%nat /\
    (1 <= List.length endo <= 3)%nat /\
    (List.length endo = 3%nat <->
     (emt_mm <? lit 7.0) = true /\ (prog_ng_ml <? lit 9.5) = true) /\
    (1 <= List.length sys <= 2)%nat /\
    List.length summ = 3%nat.
Proof.
  exists (embryo_gate euploid), (endo_actions emt_mm prog_ng_ml),
         (sys_actions age bmi), (snd (summary sbs eps egs gni)).
  split; [ reflexivity | ].
  rewrite endo_actions_length, sys_actions_length.
  split; [ destruct euploid; reflexivity | ].
  split; [ destruct euploid; cbn; lia | ].
  destruct (emt_mm <? lit 7.0), (prog_ng_ml <? lit 9.5),
           ((bmi >=? lit 30) || (bmi >=? lit 27)), (age >=? lit 38);
    repeat split; intros; try lia; try reflexivity; try discriminate;
    match goal with Hc : _ /\ _ |- _ => destruct Hc; discriminate end.
Qed.

End Path.

(** * Further properties of the engine *)

(** ** At any number type that keeps the order laws *)

Section OrderedMore.

Context {T : Type} `{PyOrd T}.

(** A NaN score neither displaces the running maximum nor is displaced. *)
Lemma nan_scan (sbs eps egs : T) :
  (isnan egs = true -> primary_limiting_domain sbs eps egs = "Embryo") /\
  (isnan eps = true -> primary_limiting_domain sbs eps egs <> "Endometrium") /\
  (isnan sbs = true -> primary_limiting_domain sbs eps egs <> "Systemic").
Proof.
  rewrite primary_limiting_domain_scan.
  repeat split; intro Hn.
  - destruct (nan_lt_false egs eps Hn) as [-> _].
    destruct (nan_lt_false egs sbs Hn) as [-> _]. reflexivity.
  - destruct (nan_lt_false eps egs Hn) as [_ ->].
    destruct (lt egs sbs); discriminate.
  - destruct (nan_lt_false sbs eps Hn) as [_ ->].
    destruct (nan_lt_false sbs egs Hn) as [_ ->].
    destruct (lt egs eps); discriminate.
Qed.

(** X3. In the scan of [primary_limiting_domain] a NaN score never displaces
    the running maximum and is never displaced: a NaN embryo score (the
    first scanned) makes the result Embryo, and a NaN endometrial or
    systemic score is never the one reported. *)
Theorem primary_limiting_domain_nan (sbs eps egs : T) :
  (isnan egs = true -> primary_limiting_domain sbs eps egs = "Embryo") /\
  (isnan eps = true -> primary_limiting_domain sbs eps egs <> "Endometrium") /\
  (isnan sbs = true -> primary_limiting_domain sbs eps egs <> "Systemic").
Proof.
  exact (nan_scan sbs eps egs).
Qed.

(** X13. [np.clip] with bounds that are numbers is idempotent, whatever the
    order of the bounds and also on a NaN: clipping a clipped value changes
    nothing. *)
Theorem np_clip_idempotent (x lo hi : T) :
  isnan lo = false -> isnan hi = false ->
  np_clip (np_clip x lo hi) lo hi = np_clip x lo hi.
Proof.
  intros Hlo Hhi. unfold np_clip, np_maximum, np_minimum.
  destruct (lt x lo) eqn:E1.
  - destruct (lt hi lo) eqn:E2.
    + rewrite E2, E2. reflexivity.
    + rewrite (num_lt_irrefl lo), E2. reflexivity.
  - destruct (lt hi x) eqn:E2.
    + destruct (lt hi lo) eqn:E3.
      * rewrite E3. reflexivity.
      * rewrite (num_lt_irrefl hi). reflexivity.
    + rewrite E1, E2. reflexivity.
Qed.

(** The bucket of a NaN is High: both tests of [bucket] fail. *)
Lemma bucket_nan (s : T) : isnan s = true -> bucket s = "High".
Proof.
  intro Hs. unfold bucket.
  destruct (nan_lt_false s (lit 30) Hs) as [-> _].
  destruct (nan_lt_false s (lit 60) Hs) as [-> _]. reflexivity.
Qed.

(** A greater score is never in a lower bucket. *)
Lemma bucket_rank_mono (s t : T) :
  lt (lit 30) (lit 60) = true -> le s t = true ->
  (bucket_rank (bucket s) <= bucket_rank (bucket t))%nat.
Proof.
  intros Hlit Hst. unfold bucket.
  destruct (lt t (lit 30)) eqn:E1.
  - rewrite (le_lt_trans _ _ _ Hst E1). apply Nat.le_refl.
  - destruct (lt t (lit 60)) eqn:E2.
    + rewrite (le_lt_trans _ _ _ Hst E2).
      destruct (lt s (lit 30)); cbn; lia.
    + destruct (lt s (lit 30)); [ | destruct (lt s (lit 60)) ]; cbn; lia.
Qed.

End OrderedMore.

(** [np.clip] twice on the binary64 value 150 with the bounds of a score. *)
Lemma np_clip_idempotent_witness :
  np_clip (np_clip 150%float 0%float 100%float) 0%float 100%float =
  np_clip 150%float 0%float 100%float.
Proof.
  apply (np_clip_idempotent (T := float)); reflexivity.
Defined.

(** The scan with a NaN systemic score in binary64. *)
Lemma primary_limiting_domain_nan_witness :
  primary_limiting_domain nan 20%float 0%float <> "Systemic".
Proof.
  apply (primary_limiting_domain_nan (T := float) nan 20%float 0%float).
  reflexivity.
Defined.

(** ** At any number type at all *)

Section PathMore.

Context {T : Type} `{PyNum T}.
Local Open Scope py_scope.

(** X15. The systemic section carries at most one BMI bullet, at any number
    type: exactly one when [bmi >= 30] or [bmi >= 27] holds, none otherwise;
    the two BMI bullets never appear together. *)
Theorem sys_actions_one_bmi_bullet (age bmi : T) :
  count_bmi_bullets (sys_actions age bmi) =
  if (bmi >=? lit 30) || (bmi >=? lit 27) then 1%nat else 0%nat.
Proof.
  unfold sys_actions, append, count_bmi_bullets.
  destruct (bmi >=? lit 30), (bmi >=? lit 27), (age >=? lit 38); reflexivity.
Qed.

End PathMore.

(** ** In exact arithmetic *)

Module ExactMore.

Import Exact.
Local Open Scope Q_scope.

Ltac py_score :=
  unfold score_systemic, score_endometrial, score_embryo, clamp01;
  py_unfold; py_cases.

Ltac py_solve := split; intros; split_hyps; try split; qlra.

Lemma score_systemic_zero_iff (age bmi : Q) :
  score_systemic age bmi == 0 <-> age <= 30 /\ bmi <= 22.
Proof. py_score; py_solve. Qed.

Lemma score_systemic_full_iff (age bmi : Q) :
  score_systemic age bmi == 100 <-> 45 <= age /\ 40 <= bmi.
Proof. py_score; py_solve. Qed.

Lemma score_endometrial_zero_iff (emt_mm prog_ng_ml : Q) :
  score_endometrial emt_mm prog_ng_ml == 0 <-> 7 <= emt_mm /\ 9.5 <= prog_ng_ml.
Proof. py_score; py_solve. Qed.

Lemma score_endometrial_full_iff (emt_mm prog_ng_ml : Q) :
  score_endometrial emt_mm prog_ng_ml == 100 <->
  emt_mm <= 4 /\ prog_ng_ml <= 3.5.
Proof. py_score; py_solve. Qed.

Lemma score_systemic_saturation_exact (age bmi : Q) :
  (score_systemic age bmi == 0 <-> age <= 30 /\ bmi <= 22) /\
  (45 <= age -> 40 <= bmi -> score_systemic age bmi == 100) /\
  (score_systemic 30 22 = 0 /\ score_systemic 45 40 = 100)%float.
Proof.
  split; [ apply score_systemic_zero_iff | split; [ | split; reflexivity ] ].
  intros Ha Hb. apply score_systemic_full_iff. split; assumption.
Qed.

Lemma score_endometrial_saturation_exact (emt_mm prog_ng_ml : Q) :
  (score_endometrial emt_mm prog_ng_ml == 0 <->
   7 <= emt_mm /\ 9.5 <= prog_ng_ml) /\
  (emt_mm <= 4 -> prog_ng_ml <= 3.5 ->
   score_endometrial emt_mm prog_ng_ml == 100) /\
  (score_endometrial 7 9.5 = 0 /\ score_endometrial 4 3.5 = 100)%float.
Proof.
  split; [ apply score_endometrial_zero_iff | split; [ | split; reflexivity ] ].
  intros Ha Hb. apply score_endometrial_full_iff. split; assumption.
Qed.

Lemma bucket_high_iff (s : Q) : bucket s = "High" <-> 60 <= s.
Proof.
  unfold bucket. cbn [lt lit PyNum_Q].
  py_cases; split; intros; first [ discriminate | reflexivity | lra ].
Qed.

Lemma bucket_low_iff (s : Q) : bucket s = "Low" <-> s < 30.
Proof.
  unfold bucket. cbn [lt lit PyNum_Q].
  py_cases; split; intros; first [ discriminate | reflexivity | lra ].
Qed.

(** The score of one factor alone. *)
Lemma score_systemic_one_factor (age bmi : Q) :
  age <= 30 \/ bmi <= 22 -> score_systemic age bmi <= 55.
Proof. intros [Hc | Hc]; py_score; qlra. Qed.

Lemma score_endometrial_thick (emt_mm prog_ng_ml : Q) :
  7 <= emt_mm -> score_endometrial emt_mm prog_ng_ml <= 40.
Proof. intro Hc; py_score; qlra. Qed.

Lemma score_endometrial_progesterone_ok (emt_mm prog_ng_ml : Q) :
  9.5 <= prog_ng_ml ->
  (60 <= score_endometrial emt_mm prog_ng_ml <-> emt_mm <= 4).
Proof. intro Hc; py_score; split; intros; qlra. Qed.

Lemma single_factor_buckets_exact (age bmi emt_mm prog_ng_ml : Q) :
  (age <= 30 \/ bmi <= 22 -> bucket (score_systemic age bmi) <> "High") /\
  (7 <= emt_mm -> bucket (score_endometrial emt_mm prog_ng_ml) <> "High") /\
  (9.5 <= prog_ng_ml ->
   (bucket (score_endometrial emt_mm prog_ng_ml) = "High" <-> emt_mm <= 4)).
Proof.
  repeat split.
  - intros Hc Hb. apply bucket_high_iff in Hb.
    pose proof (score_systemic_one_factor age bmi Hc). lra.
  - intros Hc Hb. apply bucket_high_iff in Hb.
    pose proof (score_endometrial_thick emt_mm prog_ng_ml Hc). lra.
  - intro Hb. apply bucket_high_iff in Hb.
    apply (score_endometrial_progesterone_ok emt_mm prog_ng_ml); assumption.
  - intro He. apply bucket_high_iff.
    apply (score_endometrial_progesterone_ok emt_mm prog_ng_ml); assumption.
Qed.

(** The index over the three scores. *)
Lemma gni_exact (age bmi emt_mm prog_ng_ml : Q) (euploid good_grade : bool) :
  snd (navigator_index age bmi emt_mm prog_ng_ml euploid good_grade) ==
  0.45 * score_embryo euploid good_grade
  + 0.35 * score_endometrial emt_mm prog_ng_ml
  + 0.20 * score_systemic age bmi.
Proof.
  unfold navigator_index. cbn [snd add mul lit PyNum_Q].
  apply np_clip_id, weighted_between.
  - apply score_systemic_range.
  - apply score_endometrial_range.
  - apply score_embryo_range.
Qed.

Lemma score_embryo_exact (euploid good_grade : bool) :
  score_embryo euploid good_grade ==
  match euploid, good_grade with
  | true, true => 0
  | true, false => 30
  | false, true => 70
  | false, false => 100
  end.
Proof. destruct euploid, good_grade; reflexivity. Qed.

Lemma embryo_bounds_index_exact
    (age bmi emt_mm prog_ng_ml : Q) (good_grade : bool) :
  let poor := snd (navigator_index age bmi emt_mm prog_ng_ml false good_grade) in
  let best := snd (navigator_index age bmi emt_mm prog_ng_ml true true) in
  (31.5 <= poor /\ bucket poor <> "Low") /\
  (best <= 55 /\ bucket best <> "High").
Proof.
  intros poor best. subst poor best.
  pose proof (gni_exact age bmi emt_mm prog_ng_ml false good_grade) as Hp.
  pose proof (gni_exact age bmi emt_mm prog_ng_ml true true) as Hb.
  pose proof (score_systemic_range age bmi).
  pose proof (score_endometrial_range emt_mm prog_ng_ml).
  rewrite score_embryo_exact in Hp, Hb.
  assert (H1 : 31.5 <= snd (navigator_index age bmi emt_mm prog_ng_ml
                              false good_grade))
    by (destruct good_grade; lra).
  assert (H2 : snd (navigator_index age bmi emt_mm prog_ng_ml true true) <= 55)
    by lra.
  repeat split; try assumption.
  - intro Hl. apply bucket_low_iff in Hl. lra.
  - intro Hh. apply bucket_high_iff in Hh. lra.
Qed.

Lemma index_monotone_exact
    (age1 age2 bmi1 bmi2 emt1 emt2 prog1 prog2 : Q)
    (euploid1 euploid2 good1 good2 : bool) :
  age1 <= age2 -> bmi1 <= bmi2 -> emt2 <= emt1 -> prog2 <= prog1 ->
  Bool.le euploid2 euploid1 -> Bool.le good2 good1 ->
  snd (navigator_index age1 bmi1 emt1 prog1 euploid1 good1) <=
  snd (navigator_index age2 bmi2 emt2 prog2 euploid2 good2).
Proof.
  intros Ha Hb He Hp Heu Hg.
  rewrite !gni_exact, !score_embryo_exact.
  pose proof (score_systemic_mono age1 age2 bmi1 bmi2 Ha Hb).
  pose proof (score_endometrial_anti emt2 emt1 prog2 prog1 He Hp).
  destruct euploid1, euploid2, good1, good2; simpl in Heu, Hg;
    try contradiction; try discriminate; lra.
Qed.

Lemma final_clips_redundant_exact
    (age bmi emt_mm prog_ng_ml : Q) (euploid good_grade : bool) :
  score_systemic age bmi ==
    100.0 * (0.55 * clamp01 ((age - 30.0) / 15.0)
             + 0.45 * clamp01 ((bmi - 22.0) / 18.0)) /\
  score_endometrial emt_mm prog_ng_ml ==
    100.0 * (0.60 * clamp01 ((7.0 - emt_mm) / 3.0)
             + 0.40 * clamp01 ((9.5 - prog_ng_ml) / 6.0)) /\
  score_embryo euploid good_grade ==
    100.0 * (1.0 - clamp01 (0.70 * (if euploid then 1.0 else 0.0)
                            + 0.30 * (if good_grade then 1.0 else 0.0))) /\
  snd (navigator_index age bmi emt_mm prog_ng_ml euploid good_grade) ==
    0.45 * score_embryo euploid good_grade
    + 0.35 * score_endometrial emt_mm prog_ng_ml
    + 0.20 * score_systemic age bmi.
Proof.
  pose proof (clamp01_bounds ((age - 30.0) / 15.0)).
  pose proof (clamp01_bounds ((bmi - 22.0) / 18.0)).
  pose proof (clamp01_bounds ((7.0 - emt_mm) / 3.0)).
  pose proof (clamp01_bounds ((9.5 - prog_ng_ml) / 6.0)).
  pose proof (clamp01_bounds (0.70 * (if euploid then 1.0 else 0.0)
                              + 0.30 * (if good_grade then 1.0 else 0.0))).
  split; [ | split; [ | split ] ].
  - unfold score_systemic. cbn [add sub mul div lit PyNum_Q].
    apply np_clip_id. lra.
  - unfold score_endometrial. cbn [add sub mul div lit PyNum_Q].
    apply np_clip_id. lra.
  - unfold score_embryo. cbn [add sub mul div lit PyNum_Q].
    apply np_clip_id. lra.
  - apply gni_exact.
Qed.

Lemma bucket_cases (s : Q) :
  (bucket s = "Low" /\ s < 30) \/
  (bucket s = "Moderate" /\ 30 <= s /\ s < 60) \/
  (bucket s = "High" /\ 60 <= s).
Proof.
  unfold bucket. cbn [lt lit PyNum_Q]. py_cases; auto.
Qed.

Lemma index_in_common_bucket_exact
    (age bmi emt_mm prog_ng_ml : Q) (euploid good_grade : bool) (b : string) :
  let sbs := score_systemic age bmi in
  let eps := score_endometrial emt_mm prog_ng_ml in
  let egs := score_embryo (T := Q) euploid good_grade in
  let gni :=
    snd (navigator_index age bmi emt_mm prog_ng_ml euploid good_grade) in
  bucket sbs = b -> bucket eps = b -> bucket egs = b -> bucket gni = b.
Proof.
  intros sbs eps egs gni Hs Hp He.
  pose proof (gni_exact age bmi emt_mm prog_ng_ml euploid good_grade) as Hg.
  fold sbs eps egs gni in Hg.
  destruct (bucket_cases sbs) as [[Bs ?] | [[Bs ?] | [Bs ?]]];
  destruct (bucket_cases eps) as [[Bp ?] | [[Bp ?] | [Bp ?]]];
  destruct (bucket_cases egs) as [[Be ?] | [[Be ?] | [Be ?]]];
  try congruence;
  destruct (bucket_cases gni) as [[Bg ?] | [[Bg ?] | [Bg ?]]];
  split_hyps; first [ congruence | exfalso; lra ].
Qed.

(** *** The actions against the scores *)

Lemma endo_actions_fallback_iff (emt_mm prog_ng_ml : Q) :
  endo_actions emt_mm prog_ng_ml =
    [ "Endometrial readiness markers (EMT and progesterone) look acceptable for proceeding within standard workflows." ]
  <-> 7 <= emt_mm /\ 9.5 <= prog_ng_ml.
Proof.
  unfold endo_actions, append. cbn [lt lit PyNum_Q].
  py_cases; cbn; split; intros; split_hyps;
    first [ discriminate | reflexivity | lra | split; lra ].
Qed.

Lemma endo_fallback_iff_score_zero_exact (emt_mm prog_ng_ml : Q) :
  endo_actions emt_mm prog_ng_ml =
    [ "Endometrial readiness markers (EMT and progesterone) look acceptable for proceeding within standard workflows." ]
  <-> score_endometrial emt_mm prog_ng_ml == 0.
Proof.
  rewrite endo_actions_fallback_iff, score_endometrial_zero_iff. reflexivity.
Qed.

Lemma sys_actions_fallback_iff (age bmi : Q) :
  sys_actions age bmi =
    [ "Systemic risk signals (age/BMI) are not strongly elevated; proceed with standard preparation." ]
  <-> bmi < 27 /\ age < 38.
Proof.
  unfold sys_actions, append. cbn [le lit PyNum_Q].
  py_cases; cbn; split; intros; split_hyps;
    first [ discriminate | reflexivity | lra | split; lra ].
Qed.

Lemma sys_fallback_score_exact (age bmi : Q) :
  (sys_actions age bmi =
     [ "Systemic risk signals (age/BMI) are not strongly elevated; proceed with standard preparation." ]
   <-> bmi < 27 /\ age < 38) /\
  (bmi < 27 -> age < 38 ->
   score_systemic age bmi < 42 /\ bucket (score_systemic age bmi) <> "High") /\
  bucket (score_systemic 37 26) = "Moderate".
Proof.
  split; [ apply sys_actions_fallback_iff | split; [ | reflexivity ] ].
  intros Hb Ha.
  assert (Hs : score_systemic age bmi < 42) by (py_score; qlra).
  split; [ exact Hs | ].
  intro Hh. apply bucket_high_iff in Hh. lra.
Qed.

End ExactMore.

(** ** In binary64 *)

Module Binary64More.

Import Binary64 Arithmetic Scores.
Local Open Scope float_scope.

Lemma format_f_nan {T : Type} `{PyNum T} (digits : nat) (x : T) :
  isnan x = true -> format_f digits x = "nan"%string.
Proof.
  unfold isnan, format_f. destruct (shape_of x); try discriminate. reflexivity.
Qed.

Ltac nan_cases :=
  destruct (Prim2SF _), (Prim2SF _); simpl; intros [Hn | Hn];
  try discriminate; reflexivity.

Lemma sub_nan (x y : float) :
  isnan x = true \/ isnan y = true -> isnan (x - y) = true.
Proof. rewrite !isnan_float, sub_spec. nan_cases. Qed.

Lemma div_nan (x y : float) :
  isnan x = true \/ isnan y = true -> isnan (x / y) = true.
Proof. rewrite !isnan_float, div_spec. nan_cases. Qed.

Lemma mul_nan (x y : float) :
  isnan x = true \/ isnan y = true -> isnan (x * y) = true.
Proof. rewrite !isnan_float, mul_spec. nan_cases. Qed.

Lemma add_nan (x y : float) :
  isnan x = true \/ isnan y = true -> isnan (x + y) = true.
Proof. rewrite !isnan_float, add_spec. nan_cases. Qed.

Lemma clamp01_nan (x : float) : isnan x = true -> isnan (clamp01 x) = true.
Proof.
  intro Hx. unfold clamp01. rewrite (np_clip_nan (T := float)); assumption.
Qed.

Lemma score_systemic_isnan (age bmi : float) :
  isnan (score_systemic age bmi) = isnan age || isnan bmi.
Proof.
  destruct (isnan age) eqn:Ha; [ | destruct (isnan bmi) eqn:Hb ]; cbn [orb].
  - unfold score_systemic.
    rewrite (np_clip_nan (T := float)); cbn [add sub mul div PyNum_float];
      apply mul_nan; right; apply add_nan; left; apply mul_nan; right;
      apply clamp01_nan, div_nan; left; apply sub_nan; left; exact Ha.
  - unfold score_systemic.
    rewrite (np_clip_nan (T := float)); cbn [add sub mul div PyNum_float];
      apply mul_nan; right; apply add_nan; right; apply mul_nan; right;
      apply clamp01_nan, div_nan; left; apply sub_nan; left; exact Hb.
  - apply score_number, score_systemic_score; assumption.
Qed.

Lemma score_endometrial_isnan (emt_mm prog_ng_ml : float) :
  isnan (score_endometrial emt_mm prog_ng_ml) =
  isnan emt_mm || isnan prog_ng_ml.
Proof.
  destruct (isnan emt_mm) eqn:Ha; [ | destruct (isnan prog_ng_ml) eqn:Hb ];
    cbn [orb].
  - unfold score_endometrial.
    rewrite (np_clip_nan (T := float)); cbn [add sub mul div PyNum_float];
      apply mul_nan; right; apply add_nan; left; apply mul_nan; right;
      apply clamp01_nan, div_nan; left; apply sub_nan; right; exact Ha.
  - unfold score_endometrial.
    rewrite (np_clip_nan (T := float)); cbn [add sub mul div PyNum_float];
      apply mul_nan; right; apply add_nan; right; apply mul_nan; right;
      apply clamp01_nan, div_nan; left; apply sub_nan; right; exact Hb.
  - apply score_number, score_endometrial_score; assumption.
Qed.

(** A score or a NaN. *)
Lemma score_or_nan_systemic (age bmi : float) :
  isnan (score_systemic age bmi) = true \/ score (score_systemic age bmi).
Proof.
  pose proof (score_systemic_isnan age bmi) as Hs.
  destruct (isnan age) eqn:Ha; [ left; exact Hs | ].
  destruct (isnan bmi) eqn:Hb; [ left; exact Hs | ].
  right. apply score_systemic_score; assumption.
Qed.

Lemma score_or_nan_endometrial (emt_mm prog_ng_ml : float) :
  isnan (score_endometrial emt_mm prog_ng_ml) = true \/
  score (score_endometrial emt_mm prog_ng_ml).
Proof.
  pose proof (score_endometrial_isnan emt_mm prog_ng_ml) as Hs.
  destruct (isnan emt_mm) eqn:Ha; [ left; exact Hs | ].
  destruct (isnan prog_ng_ml) eqn:Hb; [ left; exact Hs | ].
  right. apply score_endometrial_score; assumption.
Qed.

(** The index of three values that are scores or NaN. *)
Lemma weighted_isnan (sbs eps egs : float) :
  isnan sbs = true \/ score sbs -> isnan eps = true \/ score eps ->
  score egs ->
  isnan (np_clip (lit 0.45 * egs + lit 0.35 * eps + lit 0.20 * sbs)%py
                 (lit 0) (lit 100)) = isnan sbs || isnan eps.
Proof.
  intros [Hs | Hs] Hp Hg.
  - rewrite Hs. cbn [orb].
    rewrite (np_clip_nan (T := float)); cbn [add mul PyNum_float];
      apply add_nan; right; apply mul_nan; right; exact Hs.
  - rewrite (score_number sbs Hs). cbn [orb].
    destruct Hp as [Hp | Hp].
    + rewrite Hp.
      rewrite (np_clip_nan (T := float)); cbn [add mul PyNum_float];
        apply add_nan; left; apply add_nan; right; apply mul_nan; right;
        exact Hp.
    + rewrite (score_number eps Hp).
      apply score_number, index_score; assumption.
Qed.

(** X1. In binary64 a score is a NaN exactly when one of its inputs is: SBS
    when [age] or [bmi] is a NaN, EPS when [emt_mm] or [prog_ng_ml] is, GNI
    when any of the four is, and EGS never. The clips of the engine let a
    NaN through; nothing else produces one, infinite inputs included. *)
Theorem navigator_index_isnan
    (age bmi emt_mm prog_ng_ml : float) (euploid good_grade : bool) :
  let '(sbs, eps, egs, gni) :=
    navigator_index age bmi emt_mm prog_ng_ml euploid good_grade in
  isnan sbs = isnan age || isnan bmi /\
  isnan eps = isnan emt_mm || isnan prog_ng_ml /\
  isnan egs = false /\
  isnan gni = isnan age || isnan bmi || isnan emt_mm || isnan prog_ng_ml.
Proof.
  unfold navigator_index.
  split; [ apply score_systemic_isnan | ].
  split; [ apply score_endometrial_isnan | ].
  split; [ apply score_number, score_embryo_score | ].
  rewrite weighted_isnan.
  - rewrite score_systemic_isnan, score_endometrial_isnan.
    rewrite orb_assoc. reflexivity.
  - apply score_or_nan_systemic.
  - apply score_or_nan_endometrial.
  - apply score_embryo_score.
Qed.

(** X2. In binary64, when any of the four measurements is a NaN, the
    script still returns its four sections and the summary reads
    "... nan → High overall risk": the NaN index falls in the High bucket.
    The limiting domain it names is one whose score is a number. *)
Theorem run_nan_summary
    (age bmi emt_mm prog_ng_ml : float) (euploid good_grade : bool) :
  isnan age || isnan bmi || isnan emt_mm || isnan prog_ng_ml = true ->
  exists dom : string,
    nth_error (run age bmi emt_mm prog_ng_ml euploid good_grade) 3 =
    Some ("NAVIGATOR summary path"%string,
          [ "Global NAVIGATOR Index (0–100): nan → High overall risk"%string;
            ("Primary limiting domain: " ++ dom)%string;
            "Suggested sequence: Address the primary limiting domain first, then re-check readiness and proceed to transfer."%string ]) /\
    (dom = "Embryo"%string \/
     (dom = "Endometrium"%string /\ isnan emt_mm || isnan prog_ng_ml = false) \/
     (dom = "Systemic"%string /\ isnan age || isnan bmi = false)).
Proof.
  intro Hnan.
  pose proof (score_systemic_isnan age bmi) as Hs.
  pose proof (score_endometrial_isnan emt_mm prog_ng_ml) as He.
  pose proof (weighted_isnan _ _ _ (score_or_nan_systemic age bmi)
                (score_or_nan_endometrial emt_mm prog_ng_ml)
                (score_embryo_score euploid good_grade)) as Hg.
  rewrite Hs, He, orb_assoc, Hnan in Hg.
  unfold run, navigator_index.
  set (sbs := score_systemic age bmi) in *.
  set (eps := score_endometrial emt_mm prog_ng_ml) in *.
  set (egs := score_embryo euploid good_grade) in *.
  set (gni := np_clip _ _ _) in *.
  exists (primary_limiting_domain sbs eps egs).
  split.
  - unfold suggest_path, append, summary. cbn [app nth_error].
    rewrite (format_f_nan 1 gni Hg), (bucket_nan gni Hg). reflexivity.
  - destruct (nan_scan sbs eps egs) as [_ [Hp Hy]].
    rewrite <- He, <- Hs.
    assert (Hd : primary_limiting_domain sbs eps egs = "Embryo"%string \/
                 primary_limiting_domain sbs eps egs = "Endometrium"%string \/
                 primary_limiting_domain sbs eps egs = "Systemic"%string).
    { rewrite primary_limiting_domain_scan.
      destruct (lt egs eps), (lt eps sbs), (lt egs sbs); auto. }
    destruct Hd as [Hd | [Hd | Hd]].
    + left. exact Hd.
    + right; left. split; [ exact Hd | ].
      destruct (isnan eps); [ exfalso; apply Hp; auto | reflexivity ].
    + right; right. split; [ exact Hd | ].
      destruct (isnan sbs); [ exfalso; apply Hy; auto | reflexivity ].
Qed.

(** The script at a NaN age, BMI 25, EMT 9 mm, progesterone 10.5 ng/mL and a
    euploid embryo of good grade. *)
Lemma run_nan_summary_witness :
  exists dom : string,
    nth_error (run nan 25 9 10.5 true true) 3 =
    Some ("NAVIGATOR summary path"%string,
          [ "Global NAVIGATOR Index (0–100): nan → High overall risk"%string;
            ("Primary limiting domain: " ++ dom)%string;
            "Suggested sequence: Address the primary limiting domain first, then re-check readiness and proceed to transfer."%string ]) /\
    (dom = "Embryo"%string \/
     (dom = "Endometrium"%string /\ isnan 9 || isnan 10.5 = false) \/
     (dom = "Systemic"%string /\ isnan nan || isnan 25 = false)).
Proof.
  apply (run_nan_summary nan 25 9 10.5 true true). reflexivity.
Defined.

(** The embryo score of a non-euploid embryo of poor grade is 100, and no
    binary64 score or NaN compares above it. *)
Lemma worst_embryo_limits
    (age bmi emt_mm prog_ng_ml : float) :
  let '(sbs, eps, egs, gni) :=
    navigator_index age bmi emt_mm prog_ng_ml false false in
  primary_limiting_domain sbs eps egs = "Embryo"%string.
Proof.
  unfold navigator_index. rewrite primary_limiting_domain_scan.
  change (score_embryo false false) with 100.
  assert (Hall : forall s : float,
             isnan s = true \/ score s -> lt 100 s = false).
  { intros s [Hn | [_ Hle]].
    - exact (proj2 (@nan_lt_false float PyNum_float PyOrd_float s 100 Hn)).
    - exact (@le_lt_false float PyNum_float PyOrd_float s 100 Hle). }
  rewrite (Hall (score_endometrial emt_mm prog_ng_ml)),
          (Hall (score_systemic age bmi)); [ reflexivity | | ].
  - apply score_or_nan_systemic.
  - apply score_or_nan_endometrial.
Qed.

(** The clamp of a number, and of a NaN. *)
Lemma clamp01_float (x : float) :
  (isnan x = false -> (0 <=? clamp01 x) = true /\ (clamp01 x <=? 1) = true) /\
  (isnan x = true -> isnan (clamp01 x) = true).
Proof.
  split; [ intro Hx | apply clamp01_nan ].
  exact (np_clip_between x (lit 0.0) (lit 1.0) Hx eq_refl).
Qed.

End Binary64More.

(** ** In both readings *)

(** X16. With a non-euploid embryo of poor grade the primary limiting
    domain of the scores that [navigator_index] returns is always Embryo:
    its score is 100 and no other score exceeds it. In exact arithmetic for
    all inputs, and in binary64 for all inputs, NaN included. *)
Theorem worst_embryo_is_limiting :
  (forall age bmi emt_mm prog_ng_ml : Q,
      let '(sbs, eps, egs, gni) :=
        navigator_index age bmi emt_mm prog_ng_ml false false in
      primary_limiting_domain sbs eps egs = "Embryo") /\
  (forall age bmi emt_mm prog_ng_ml : float,
      let '(sbs, eps, egs, gni) :=
        navigator_index age bmi emt_mm prog_ng_ml false false in
      primary_limiting_domain sbs eps egs = "Embryo").
Proof.
  split.
  - intros age bmi emt_mm prog_ng_ml. unfold navigator_index.
    rewrite primary_limiting_domain_scan. cbn [lt PyNum_Q].
    pose proof (Exact.score_systemic_range age bmi).
    pose proof (Exact.score_endometrial_range emt_mm prog_ng_ml).
    pose proof (ExactMore.score_embryo_exact false false) as He.
    cbv beta iota in He.
    Exact.py_cases; first [ reflexivity | exfalso; lra ].
  - exact Binary64More.worst_embryo_limits.
Qed.

(** X9. The embryo score never rises with a better embryo: a good grade
    scores at most what a poor grade does, and a euploid embryo at most what
    a non-euploid one does, in exact arithmetic and in binary64. *)
Theorem score_embryo_ordered (euploid good_grade : bool) :
  (score_embryo euploid true <= score_embryo euploid false /\
   score_embryo true good_grade <= score_embryo false good_grade)%Q /\
  ((score_embryo euploid true <=? score_embryo euploid false) = true /\
   (score_embryo true good_grade <=? score_embryo false good_grade) = true)%float.
Proof.
  destruct euploid, good_grade;
    (split;
     [ split; intro Hq; vm_compute in Hq; discriminate
     | split; reflexivity ]).
Qed.

(** X10. A greater score is never in a lower bucket: [bucket] is monotone
    from the order of the scores to Low < Moderate < High, for rational
    scores and for binary64 scores compared with [<=]. *)
Theorem bucket_monotone :
  (forall s t : Q,
      (s <= t)%Q -> (bucket_rank (bucket s) <= bucket_rank (bucket t))%nat) /\
  (forall s t : float,
      (s <=? t)%float = true ->
      (bucket_rank (bucket s) <= bucket_rank (bucket t))%nat).
Proof.
  split; intros s t Hst.
  - apply (bucket_rank_mono (T := Q)); [ reflexivity | ].
    apply Qle_bool_iff, Hst.
  - apply (bucket_rank_mono (T := float)); [ reflexivity | exact Hst ].
Qed.

(** The buckets of the binary64 scores 29.5 and 61. *)
Lemma bucket_monotone_witness :
  (bucket_rank (bucket 29.5%float) <= bucket_rank (bucket 61%float))%nat.
Proof.
  destruct bucket_monotone as [_ HF].
  apply (HF 29.5%float 61%float). reflexivity.
Defined.

(** X17. [clamp01] returns a value of [[0, 1]] on every number and returns a
    NaN on a NaN: for all rationals, and in binary64 for all values,
    infinities included. *)
Theorem clamp01_range :
  (forall x : Q, 0 <= clamp01 x <= 1)%Q /\
  (forall x : float,
      (isnan x = false ->
       (0 <=? clamp01 x) = true /\ (clamp01 x <=? 1) = true) /\
      (isnan x = true -> isnan (clamp01 x) = true))%float.
Proof.
  split; [ exact Exact.clamp01_bounds | exact Binary64More.clamp01_float ].
Qed.

(** The clamp of the binary64 values 2.5 and infinity. *)
Lemma clamp01_range_witness :
  ((0 <=? clamp01 infinity) = true /\ (clamp01 infinity <=? 1) = true)%float.
Proof.
  destruct clamp01_range as [_ HF].
  apply (HF infinity). reflexivity.
Defined.

(** ** Binary64: thresholds *)

Module Thresholds.

Import Binary64 Arithmetic Scores.

Local Open Scope float_scope.

Lemma eqb_leb (a b : float) :
  (a =? b) = true <-> (a <=? b) = true /\ (b <=? a) = true.
Proof.
  rewrite eqb_spec, !leb_spec. unfold SFeqb, SFleb.
  rewrite (SFcompare_swap (Prim2SF a) (Prim2SF b)).
  destruct (SFcompare (Prim2SF a) (Prim2SF b)) as [[ | | ]|]; cbn;
    intuition discriminate.
Qed.

Lemma lt_total (a b : float) :
  isnan a = false -> isnan b = false -> (a <=? b) = false -> (b <? a) = true.
Proof.
  intros Ha Hb Hle. destruct (b <? a) eqn:E; [ reflexivity | exfalso ].
  pose proof (num_le_total (T := float) b a Hb Ha E) as Hc.
  cbn [le PyNum_float] in Hc. congruence.
Qed.

Lemma ltb_leb (a b : float) : (a <? b) = true -> (a <=? b) = true.
Proof. exact (num_lt_le (T := float) a b). Qed.

Lemma ltb_leb_false (a b : float) : (a <? b) = true -> (b <=? a) = false.
Proof. exact (num_lt_asym (T := float) a b). Qed.

Lemma leb_ltb_false (a b : float) : (a <=? b) = true -> (b <? a) = false.
Proof. exact (le_lt_false (T := float) a b). Qed.

Lemma leb_ltb_trans (a b c : float) :
  (a <=? b) = true -> (b <? c) = true -> (a <? c) = true.
Proof. exact (le_lt_trans (T := float) a b c). Qed.

Lemma ltb_leb_trans (a b c : float) :
  (a <? b) = true -> (b <=? c) = true -> (a <? c) = true.
Proof. exact (lt_le_trans (T := float) a b c). Qed.

(** Nothing lies strictly between two neighbours. *)
Lemma gap_above (lo hi x : float) :
  neighbours lo hi = true -> (lo <? x) = true -> (hi <=? x) = true.
Proof.
  unfold neighbours. rewrite ltb_spec, leb_spec.
  destruct (Prim2SF lo) as [s|s| |[ | ] m e]; try discriminate.
  destruct (Prim2SF hi) as [s'|s'| |[ | ] m' e']; try discriminate.
  intro Hn. apply andb_true_iff in Hn. destruct Hn as [Hm He].
  apply Pos.eqb_eq in Hm. apply Z.eqb_eq in He. subst m' e'.
  unfold SFltb, SFleb, SFcompare.
  destruct (Prim2SF x) as [s''|[ | ]| |[ | ] m'' e'']; try discriminate;
    try reflexivity.
  change (Pos.compare_cont Eq) with Pos.compare.
  destruct (Z.compare_spec e e''); try discriminate; try reflexivity.
  destruct (Pos.compare_spec m m''); try discriminate.
  intros _. destruct (Pos.compare_spec (Pos.succ m) m''); try reflexivity. lia.
Qed.

Lemma gap_below (lo hi x : float) :
  neighbours lo hi = true -> (x <? hi) = true -> (x <=? lo) = true.
Proof.
  unfold neighbours. rewrite ltb_spec, leb_spec.
  destruct (Prim2SF lo) as [s|s| |[ | ] m e]; try discriminate.
  destruct (Prim2SF hi) as [s'|s'| |[ | ] m' e']; try discriminate.
  intro Hn. apply andb_true_iff in Hn. destruct Hn as [Hm He].
  apply Pos.eqb_eq in Hm. apply Z.eqb_eq in He. subst m' e'.
  unfold SFltb, SFleb, SFcompare.
  destruct (Prim2SF x) as [s''|[ | ]| |[ | ] m'' e'']; try discriminate;
    try reflexivity.
  change (Pos.compare_cont Eq) with Pos.compare.
  destruct (Z.compare_spec e'' e); try discriminate; try reflexivity.
  destruct (Pos.compare_spec m'' (Pos.succ m)); try discriminate.
  intros _. destruct (Pos.compare_spec m'' m); try reflexivity. lia.
Qed.

(** Every number lies between the infinities. *)
Lemma infinity_bounds (x : float) :
  isnan x = false ->
  (neg_infinity <=? x) = true /\ (x <=? infinity) = true.
Proof.
  rewrite isnan_float, !leb_spec.
  change (Prim2SF neg_infinity) with (S754_infinity true).
  change (Prim2SF infinity) with (S754_infinity false).
  destruct (Prim2SF x) as [s|[ | ]| |[ | ] m e]; try discriminate;
    intros _; split; reflexivity.
Qed.

(** The buckets of a binary64 number. *)
Lemma bucket_float (s : float) :
  isnan s = false ->
  (bucket s = "Low"%string <-> (s <? 30) = true) /\
  (bucket s = "Moderate"%string <-> (30 <=? s) = true /\ (s <? 60) = true) /\
  (bucket s = "High"%string <-> (60 <=? s) = true).
Proof.
  intro Hs. exact (bucket_bands s Hs eq_refl).
Qed.

Lemma bucket_not_high (s : float) :
  (s <? 60) = true -> bucket s <> "High"%string.
Proof.
  intros Hlt Hb.
  assert (Hs : isnan s = false).
  { apply (num_le_number (T := float) s 60), (num_lt_le (T := float)), Hlt. }
  apply (bucket_float s Hs) in Hb.
  pose proof (ltb_leb_false _ _ Hlt). congruence.
Qed.

Lemma bucket_not_low (s : float) :
  (30 <=? s) = true -> bucket s <> "Low"%string.
Proof.
  intros Hle Hb.
  destruct (leb_number _ _ Hle) as [_ Hs].
  apply (bucket_float s Hs) in Hb.
  pose proof (leb_ltb_false _ _ Hle). congruence.
Qed.

End Thresholds.

(** ** In both readings: thresholds, bounds and monotonicity *)

Import Binary64 Arithmetic Scores Thresholds.

Local Open Scope float_scope.

(** A chain [a <= b <= c] of binary64 comparisons whose ends are known
    values in the wrong order. *)
Ltac absurd_chain H1 H2 :=
  let Hf := fresh "Hf" in
  pose proof (leb_trans _ _ _ H1 H2) as Hf; vm_compute in Hf; discriminate.

Ltac evaluated := vm_compute; reflexivity.

(** The systemic score against its thresholds, in binary64. *)
Lemma score_systemic_saturation_float (age bmi : float) :
  isnan age = false -> isnan bmi = false ->
  ((score_systemic age bmi =? 0) = true <->
   (age <=? 30) = true /\ (bmi <=? 22) = true) /\
  ((score_systemic age bmi =? 100) = true <->
   (45 <=? age) = true /\ (40 <=? bmi) = true).
Proof.
  intros Ha Hb.
  destruct (score_systemic_score age bmi Ha Hb) as [S0 S1].
  destruct (infinity_bounds age Ha) as [An Ap].
  destruct (infinity_bounds bmi Hb) as [Bn Bp].
  split; split.
  + intro Hz. apply eqb_leb in Hz. destruct Hz as [Hz _]. split.
    * destruct (PrimFloat.leb age 30) eqn:E; [ reflexivity | exfalso ].
      pose proof (lt_total age 30 Ha eq_refl E) as Hlt.
      apply (gap_above 30 (next_up 30)) in Hlt; [ | evaluated ].
      pose proof (score_systemic_le _ _ _ _ Hlt Bn) as Hc.
      absurd_chain Hc Hz.
    * destruct (PrimFloat.leb bmi 22) eqn:E; [ reflexivity | exfalso ].
      pose proof (lt_total bmi 22 Hb eq_refl E) as Hlt.
      apply (gap_above 22 (next_up 22)) in Hlt; [ | evaluated ].
      pose proof (score_systemic_le _ _ _ _ An Hlt) as Hc.
      absurd_chain Hc Hz.
  + intros [H1 H2]. apply eqb_leb. split; [ | exact S0 ].
    exact (score_systemic_le age 30 bmi 22 H1 H2).
  + intro Hz. apply eqb_leb in Hz. destruct Hz as [_ Hz]. split.
    * destruct (PrimFloat.leb 45 age) eqn:E; [ reflexivity | exfalso ].
      pose proof (lt_total 45 age eq_refl Ha E) as Hlt.
      apply (gap_below (next_down 45) 45) in Hlt; [ | evaluated ].
      pose proof (score_systemic_le _ _ _ _ Hlt Bp) as Hc.
      absurd_chain Hz Hc.
    * destruct (PrimFloat.leb 40 bmi) eqn:E; [ reflexivity | exfalso ].
      pose proof (lt_total 40 bmi eq_refl Hb E) as Hlt.
      apply (gap_below (next_down 40) 40) in Hlt; [ | evaluated ].
      pose proof (score_systemic_le _ _ _ _ Ap Hlt) as Hc.
      absurd_chain Hz Hc.
  + intros [H1 H2]. apply eqb_leb. split; [ exact S1 | ].
    exact (score_systemic_le 45 age 40 bmi H1 H2).
Qed.

(** X4. [score_systemic] is 0 exactly when [age <= 30] and [bmi <= 22], and
    100 exactly when [age >= 45] and [bmi >= 40]: for all rationals in exact
    arithmetic, and in binary64 for all inputs that are numbers, where one
    step past a threshold (30.000000000000004 years, or BMI
    39.99999999999999) already moves the score off 0 or 100. *)
Theorem score_systemic_saturation :
  (forall age bmi : Q,
      (score_systemic age bmi == 0 <-> age <= 30 /\ bmi <= 22) /\
      (score_systemic age bmi == 100 <-> 45 <= age /\ 40 <= bmi))%Q /\
  (forall age bmi : float,
      isnan age = false -> isnan bmi = false ->
      ((score_systemic age bmi =? 0) = true <->
       (age <=? 30) = true /\ (bmi <=? 22) = true) /\
      ((score_systemic age bmi =? 100) = true <->
       (45 <=? age) = true /\ (40 <=? bmi) = true))%float.
Proof.
  split.
  - intros age bmi. split;
      [ apply ExactMore.score_systemic_zero_iff
      | apply ExactMore.score_systemic_full_iff ].
  - exact score_systemic_saturation_float.
Qed.

(** The binary64 systemic score at age 50 and BMI 41. *)
Lemma score_systemic_saturation_witness :
  ((score_systemic 50 41 =? 100) = true <->
   (45 <=? 50) = true /\ (40 <=? 41) = true)%float.
Proof.
  destruct score_systemic_saturation as [_ HF].
  apply (HF 50 41)%float; reflexivity.
Defined.

(** The endometrial score against its thresholds, in binary64. *)
Lemma score_endometrial_saturation_float (emt prog : float) :
  isnan emt = false -> isnan prog = false ->
  ((score_endometrial emt prog =? 0) = true <->
   (7 <=? emt) = true /\ (9.5 <=? prog) = true) /\
  ((emt <=? 4) = true -> (prog <=? 3.5) = true ->
   (score_endometrial emt prog =? 100) = true).
Proof.
  intros Ha Hb.
  destruct (score_endometrial_score emt prog Ha Hb) as [S0 S1].
  destruct (infinity_bounds emt Ha) as [An Ap].
  destruct (infinity_bounds prog Hb) as [Bn Bp].
  split; [ split | ].
  + intro Hz. apply eqb_leb in Hz. destruct Hz as [Hz _]. split.
    * destruct (PrimFloat.leb 7 emt) eqn:E; [ reflexivity | exfalso ].
      pose proof (lt_total 7 emt eq_refl Ha E) as Hlt.
      apply (gap_below (next_down 7) 7) in Hlt; [ | evaluated ].
      pose proof (score_endometrial_le _ _ _ _ Hlt Bp) as Hc.
      absurd_chain Hc Hz.
    * destruct (PrimFloat.leb 9.5 prog) eqn:E; [ reflexivity | exfalso ].
      pose proof (lt_total 9.5 prog eq_refl Hb E) as Hlt.
      apply (gap_below (next_down 9.5) 9.5) in Hlt; [ | evaluated ].
      pose proof (score_endometrial_le _ _ _ _ Ap Hlt) as Hc.
      absurd_chain Hc Hz.
  + intros [H1 H2]. apply eqb_leb. split; [ | exact S0 ].
    exact (score_endometrial_le 7 emt 9.5 prog H1 H2).
  + intros H1 H2. apply eqb_leb. split; [ exact S1 | ].
    exact (score_endometrial_le emt 4 prog 3.5 H1 H2).
Qed.

(** X5. [score_endometrial] is 0 exactly when [emt_mm >= 7] and
    [prog_ng_ml >= 9.5], and it is 100 as soon as [emt_mm <= 4] and
    [prog_ng_ml <= 3.5]: for all rationals in exact arithmetic, where 100 is
    reached only there, and in binary64 for all inputs that are numbers,
    where the score is still 100.0 at 3.5000000000000004 ng/mL. *)
Theorem score_endometrial_saturation :
  (forall emt_mm prog_ng_ml : Q,
      (score_endometrial emt_mm prog_ng_ml == 0 <->
       7 <= emt_mm /\ 9.5 <= prog_ng_ml) /\
      (score_endometrial emt_mm prog_ng_ml == 100 <->
       emt_mm <= 4 /\ prog_ng_ml <= 3.5))%Q /\
  (forall emt_mm prog_ng_ml : float,
      isnan emt_mm = false -> isnan prog_ng_ml = false ->
      ((score_endometrial emt_mm prog_ng_ml =? 0) = true <->
       (7 <=? emt_mm) = true /\ (9.5 <=? prog_ng_ml) = true) /\
      ((emt_mm <=? 4) = true -> (prog_ng_ml <=? 3.5) = true ->
       (score_endometrial emt_mm prog_ng_ml =? 100) = true))%float /\
  (score_endometrial 0 3.5000000000000004 = 100)%float.
Proof.
  split; [ | split; [ | evaluated ] ].
  - intros emt_mm prog_ng_ml. split;
      [ apply ExactMore.score_endometrial_zero_iff
      | apply ExactMore.score_endometrial_full_iff ].
  - exact score_endometrial_saturation_float.
Qed.

(** The binary64 endometrial score at 3.5 mm and 2 ng/mL. *)
Lemma score_endometrial_saturation_witness :
  ((score_endometrial 3.5 2 =? 100) = true)%float.
Proof.
  destruct score_endometrial_saturation as [_ [HF _]].
  apply (HF 3.5 2)%float; reflexivity.
Defined.

(** X6. One risk factor alone does not make a High score, except a thin
    endometrium: with [age <= 30] or [bmi <= 22] the systemic score is never
    in the High bucket; with [emt_mm >= 7] the endometrial score is never
    High; with [prog_ng_ml >= 9.5] it is High exactly when [emt_mm <= 4].
    For all rationals in exact arithmetic, and in binary64 for all inputs
    that are numbers. *)
Theorem single_factor_buckets :
  (forall age bmi emt_mm prog_ng_ml : Q,
      (age <= 30 \/ bmi <= 22 -> bucket (score_systemic age bmi) <> "High") /\
      (7 <= emt_mm -> bucket (score_endometrial emt_mm prog_ng_ml) <> "High") /\
      (9.5 <= prog_ng_ml ->
       (bucket (score_endometrial emt_mm prog_ng_ml) = "High" <->
        emt_mm <= 4)))%Q /\
  (forall age bmi emt_mm prog_ng_ml : float,
      isnan age = false -> isnan bmi = false ->
      isnan emt_mm = false -> isnan prog_ng_ml = false ->
      ((age <=? 30) = true \/ (bmi <=? 22) = true ->
       bucket (score_systemic age bmi) <> "High") /\
      ((7 <=? emt_mm) = true ->
       bucket (score_endometrial emt_mm prog_ng_ml) <> "High") /\
      ((9.5 <=? prog_ng_ml) = true ->
       (bucket (score_endometrial emt_mm prog_ng_ml) = "High" <->
        (emt_mm <=? 4) = true)))%float.
Proof.
  split; [ exact ExactMore.single_factor_buckets_exact | ].
  intros age bmi emt prog Ha Hb He Hp.
  destruct (infinity_bounds age Ha) as [An Ap].
  destruct (infinity_bounds bmi Hb) as [Bn Bp].
  destruct (infinity_bounds emt He) as [En Ep].
  destruct (infinity_bounds prog Hp) as [Pn Pp].
  pose proof (score_number _ (score_endometrial_score emt prog He Hp)) as Nep.
  split; [ | split ].
  - intros [H1 | H1]; apply bucket_not_high.
    + apply (leb_ltb_trans _ (score_systemic 30 infinity));
        [ exact (score_systemic_le age 30 bmi infinity H1 Bp) | evaluated ].
    + apply (leb_ltb_trans _ (score_systemic infinity 22));
        [ exact (score_systemic_le age infinity bmi 22 Ap H1) | evaluated ].
  - intro H1. apply bucket_not_high.
    apply (leb_ltb_trans _ (score_endometrial 7 neg_infinity));
      [ exact (score_endometrial_le 7 emt neg_infinity prog H1 Pn) | evaluated ].
  - intro H1. rewrite (proj2 (proj2 (bucket_float _ Nep))). split.
    + intro Hh.
      destruct (PrimFloat.leb emt 4) eqn:E; [ reflexivity | exfalso ].
      pose proof (lt_total emt 4 He eq_refl E) as Hlt.
      apply (gap_above 4 (next_up 4)) in Hlt; [ | evaluated ].
      pose proof (score_endometrial_le _ _ _ _ Hlt H1) as Hc.
      absurd_chain Hh Hc.
    + intro H2.
      apply (leb_trans _ (score_endometrial 4 infinity));
        [ evaluated | exact (score_endometrial_le emt 4 prog infinity H2 Pp) ].
Qed.

(** At age 45 and BMI 22 the binary64 systemic score is
    55.00000000000001: Moderate, not High. *)
Lemma single_factor_buckets_witness :
  bucket (score_systemic 45%float 22%float) <> "High".
Proof.
  destruct single_factor_buckets as [_ HF].
  apply (HF 45 22 0 0)%float; try reflexivity. right. reflexivity.
Defined.

(** The embryo score of a better embryo is not greater. *)
Lemma score_embryo_le (euploid1 euploid2 good1 good2 : bool) :
  Bool.le euploid2 euploid1 -> Bool.le good2 good1 ->
  (score_embryo euploid1 good1 <=? score_embryo euploid2 good2) = true.
Proof.
  destruct euploid1, euploid2, good1, good2; cbn; intros He Hg;
    try discriminate; try contradiction; evaluated.
Qed.

Lemma known_score (c : float) :
  (0 <=? c) = true -> (c <=? 100) = true -> score c.
Proof. intros H0 H1. split; assumption. Qed.

Ltac known := apply known_score; evaluated.

(** X7. The embryo decides the band of the index at both ends: without a
    euploid embryo the GNI is at least 31.5 and never in the Low bucket;
    with a euploid embryo of good grade it is at most 55 and never in the
    High bucket, whatever the four measurements. For all rationals in exact
    arithmetic, and in binary64 for all measurements that are numbers. *)
Theorem embryo_bounds_index :
  (forall (age bmi emt_mm prog_ng_ml : Q) (good_grade : bool),
      let poor :=
        snd (navigator_index age bmi emt_mm prog_ng_ml false good_grade) in
      let best := snd (navigator_index age bmi emt_mm prog_ng_ml true true) in
      (31.5 <= poor /\ bucket poor <> "Low") /\
      (best <= 55 /\ bucket best <> "High"))%Q /\
  (forall (age bmi emt_mm prog_ng_ml : float) (good_grade : bool),
      isnan age = false -> isnan bmi = false ->
      isnan emt_mm = false -> isnan prog_ng_ml = false ->
      let poor :=
        snd (navigator_index age bmi emt_mm prog_ng_ml false good_grade) in
      let best := snd (navigator_index age bmi emt_mm prog_ng_ml true true) in
      ((31.5 <=? poor) = true /\ bucket poor <> "Low") /\
      ((best <=? 55) = true /\ bucket best <> "High"))%float.
Proof.
  split; [ exact ExactMore.embryo_bounds_index_exact | ].
  intros age bmi emt prog good Ha Hb He Hp poor best. subst poor best.
  unfold navigator_index. cbn [snd].
  pose proof (score_systemic_score age bmi Ha Hb) as Ss.
  pose proof (score_endometrial_score emt prog He Hp) as Sp.
  set (sbs := score_systemic age bmi) in *.
  set (eps := score_endometrial emt prog) in *.
  assert (Z : score 0) by known. assert (C : score 100) by known.
  assert (Hpoor : (31.5 <=?
             np_clip (lit 0.45 * score_embryo false good + lit 0.35 * eps
                      + lit 0.20 * sbs)%py (lit 0) (lit 100)) = true).
  { apply (leb_trans _ (np_clip (lit 0.45 * 70 + lit 0.35 * 0 + lit 0.20 * 0)%py
                          (lit 0) (lit 100))); [ evaluated | ].
    apply index_le; try assumption; try known;
      try apply score_embryo_score; try apply Ss; try apply Sp;
      destruct good; evaluated. }
  assert (Hbest : (np_clip (lit 0.45 * score_embryo true true + lit 0.35 * eps
                            + lit 0.20 * sbs)%py (lit 0) (lit 100) <=? 55) = true).
  { apply (leb_trans _ (np_clip (lit 0.45 * 0 + lit 0.35 * 100 + lit 0.20 * 100)%py
                          (lit 0) (lit 100))); [ | evaluated ].
    apply index_le; try assumption; try known;
      try apply score_embryo_score; try apply Ss; try apply Sp;
      evaluated. }
  split; split; try assumption.
  - apply bucket_not_low. exact (leb_trans 30 31.5 _ eq_refl Hpoor).
  - apply bucket_not_high. exact (leb_ltb_trans _ 55 60 Hbest eq_refl).
Qed.

(** The binary64 index of a non-euploid embryo at age 34, BMI 25, EMT 9 mm
    and progesterone 10.5 ng/mL. *)
Lemma embryo_bounds_index_witness :
  ((31.5 <=? snd (navigator_index 34 25 9 10.5 false true)) = true /\
   bucket (snd (navigator_index 34 25 9 10.5 false true)) <> "Low")%float.
Proof.
  destruct embryo_bounds_index as [_ HF].
  apply (HF 34 25 9 10.5 true)%float; reflexivity.
Defined.

(** X8. The index never rises when an input improves: the GNI is
    non-decreasing in [age] and [bmi], non-increasing in [emt_mm] and
    [prog_ng_ml], and a euploid embryo or a good grade never gives a higher
    GNI than its absence. For all rationals in exact arithmetic, and in
    binary64 for all measurements that are numbers. *)
Theorem index_monotone :
  (forall (age1 age2 bmi1 bmi2 emt1 emt2 prog1 prog2 : Q)
          (euploid1 euploid2 good1 good2 : bool),
      age1 <= age2 -> bmi1 <= bmi2 -> emt2 <= emt1 -> prog2 <= prog1 ->
      Bool.le euploid2 euploid1 -> Bool.le good2 good1 ->
      snd (navigator_index age1 bmi1 emt1 prog1 euploid1 good1) <=
      snd (navigator_index age2 bmi2 emt2 prog2 euploid2 good2))%Q /\
  (forall (age1 age2 bmi1 bmi2 emt1 emt2 prog1 prog2 : float)
          (euploid1 euploid2 good1 good2 : bool),
      (age1 <=? age2) = true -> (bmi1 <=? bmi2) = true ->
      (emt2 <=? emt1) = true -> (prog2 <=? prog1) = true ->
      Bool.le euploid2 euploid1 -> Bool.le good2 good1 ->
      (snd (navigator_index age1 bmi1 emt1 prog1 euploid1 good1) <=?
       snd (navigator_index age2 bmi2 emt2 prog2 euploid2 good2)) = true)%float.
Proof.
  split; [ exact ExactMore.index_monotone_exact | ].
  intros age1 age2 bmi1 bmi2 emt1 emt2 prog1 prog2 e1 e2 g1 g2
         Ha Hb He Hp Heu Hg.
  destruct (leb_number _ _ Ha) as [Na1 Na2].
  destruct (leb_number _ _ Hb) as [Nb1 Nb2].
  destruct (leb_number _ _ He) as [Ne2 Ne1].
  destruct (leb_number _ _ Hp) as [Np2 Np1].
  unfold navigator_index. cbn [snd].
  apply index_le.
  - apply score_embryo_score.
  - apply score_embryo_score.
  - apply score_endometrial_score; assumption.
  - apply score_endometrial_score; assumption.
  - apply score_systemic_score; assumption.
  - apply score_systemic_score; assumption.
  - apply score_embryo_le; assumption.
  - apply score_endometrial_le; assumption.
  - apply score_systemic_le; assumption.
Qed.

(** The binary64 index at age 34 against age 40, other inputs equal. *)
Lemma index_monotone_witness :
  ((snd (navigator_index 34 25 9 10.5 true true) <=?
    snd (navigator_index 40 25 9 10.5 true true)) = true)%float.
Proof.
  destruct index_monotone as [_ HF].
  apply (HF 34 40 25 25 9 9 10.5 10.5 true true true true)%float;
    reflexivity.
Defined.

(** The fall-back bullets of the two action sections, at any number type:
    each is shown alone exactly when every test of its section fails. *)
Lemma endo_actions_fallback {T : Type} `{PyNum T} (emt_mm prog_ng_ml : T) :
  endo_actions emt_mm prog_ng_ml =
    [ "Endometrial readiness markers (EMT and progesterone) look acceptable for proceeding within standard workflows."%string ]
  <-> lt emt_mm (lit 7.0) = false /\ lt prog_ng_ml (lit 9.5) = false.
Proof.
  unfold endo_actions, append.
  destruct (lt emt_mm (lit 7.0)), (lt prog_ng_ml (lit 9.5)); cbn;
    (split; [ intros Hc | intros [H1 H2] ]);
    first [ discriminate | split; reflexivity | reflexivity ].
Qed.

Lemma sys_actions_fallback {T : Type} `{PyNum T} (age bmi : T) :
  sys_actions age bmi =
    [ "Systemic risk signals (age/BMI) are not strongly elevated; proceed with standard preparation."%string ]
  <-> le (lit 30) bmi = false /\ le (lit 27) bmi = false /\
      le (lit 38) age = false.
Proof.
  unfold sys_actions, append.
  destruct (le (lit 30) bmi), (le (lit 27) bmi), (le (lit 38) age); cbn;
    (split; [ intros Hc | intros [H1 [H2 H3]] ]);
    first [ discriminate | repeat split; reflexivity | reflexivity ].
Qed.

Lemma not_ltb_leb (a b : float) :
  isnan a = false -> isnan b = false ->
  ((a <? b) = false <-> (b <=? a) = true).
Proof.
  intros Ha Hb. split; intro Hc.
  - exact (num_le_total (T := float) a b Ha Hb Hc).
  - exact (leb_ltb_false _ _ Hc).
Qed.

Lemma not_leb_ltb (a b : float) :
  isnan a = false -> isnan b = false ->
  ((a <=? b) = false <-> (b <? a) = true).
Proof.
  intros Ha Hb. split; intro Hc.
  - exact (lt_total a b Ha Hb Hc).
  - exact (ltb_leb_false _ _ Hc).
Qed.

(** X11. The endometrial section is the single "look acceptable" bullet
    exactly when the endometrial score is 0: the thresholds 7.0 mm and
    9.5 ng/mL of the actions are those where the score leaves 0. For all
    rationals in exact arithmetic, and in binary64 for all measurements
    that are numbers. *)
Theorem endo_fallback_iff_score_zero :
  (forall emt_mm prog_ng_ml : Q,
      endo_actions emt_mm prog_ng_ml =
        [ "Endometrial readiness markers (EMT and progesterone) look acceptable for proceeding within standard workflows."%string ]
      <-> score_endometrial emt_mm prog_ng_ml == 0)%Q /\
  (forall emt_mm prog_ng_ml : float,
      isnan emt_mm = false -> isnan prog_ng_ml = false ->
      (endo_actions emt_mm prog_ng_ml =
         [ "Endometrial readiness markers (EMT and progesterone) look acceptable for proceeding within standard workflows."%string ]
       <-> (score_endometrial emt_mm prog_ng_ml =? 0) = true))%float.
Proof.
  split; [ exact ExactMore.endo_fallback_iff_score_zero_exact | ].
  intros emt prog He Hp.
  destruct (score_endometrial_saturation_float emt prog He Hp) as [Hz _].
  rewrite Hz, endo_actions_fallback. cbn [lt PyNum_float].
  rewrite (not_ltb_leb emt (@lit float PyNum_float 7.0) He eq_refl).
  rewrite (not_ltb_leb prog (@lit float PyNum_float 9.5) Hp eq_refl).
  reflexivity.
Qed.

(** The endometrial section in binary64 at 9 mm and 10.5 ng/mL. *)
Lemma endo_fallback_iff_score_zero_witness :
  (endo_actions 9 10.5 =
     [ "Endometrial readiness markers (EMT and progesterone) look acceptable for proceeding within standard workflows."%string ]
   <-> (score_endometrial 9 10.5 =? 0) = true)%float.
Proof.
  destruct endo_fallback_iff_score_zero as [_ HF].
  apply (HF 9 10.5)%float; reflexivity.
Defined.

(** X12. The systemic actions are weaker signals than the score: the section
    is the single "not strongly elevated" bullet exactly when [bmi < 27] and
    [age < 38], and then the systemic score is below 42, never in the High
    bucket, though it can be Moderate (age 37, BMI 26). For all rationals
    in exact arithmetic, and in binary64 for all inputs that are numbers. *)
Theorem sys_fallback_score :
  (forall age bmi : Q,
      (sys_actions age bmi =
         [ "Systemic risk signals (age/BMI) are not strongly elevated; proceed with standard preparation."%string ]
       <-> bmi < 27 /\ age < 38) /\
      (bmi < 27 -> age < 38 ->
       score_systemic age bmi < 42 /\ bucket (score_systemic age bmi) <> "High") /\
      bucket (score_systemic 37 26) = "Moderate")%Q /\
  (forall age bmi : float,
      isnan age = false -> isnan bmi = false ->
      (sys_actions age bmi =
         [ "Systemic risk signals (age/BMI) are not strongly elevated; proceed with standard preparation."%string ]
       <-> (bmi <? 27) = true /\ (age <? 38) = true) /\
      ((bmi <? 27) = true -> (age <? 38) = true ->
       (score_systemic age bmi <? 42) = true /\
       bucket (score_systemic age bmi) <> "High") /\
      bucket (score_systemic 37 26) = "Moderate")%float.
Proof.
  split; [ exact ExactMore.sys_fallback_score_exact | ].
  intros age bmi Ha Hb.
  assert (Hlt : (bmi <? 27) = true -> (age <? 38) = true ->
                (score_systemic age bmi <? 42) = true).
  { intros H1 H2.
    apply (leb_ltb_trans _ (score_systemic 38 27)); [ | evaluated ].
    apply score_systemic_le; apply ltb_leb; assumption. }
  split; [ | split; [ | evaluated ] ].
  - rewrite sys_actions_fallback. cbn [le PyNum_float].
    rewrite (not_leb_ltb (@lit float PyNum_float 30) bmi eq_refl Hb).
    rewrite (not_leb_ltb (@lit float PyNum_float 27) bmi eq_refl Hb).
    rewrite (not_leb_ltb (@lit float PyNum_float 38) age eq_refl Ha).
    split.
    + intros [_ [H1 H2]]. split; assumption.
    + intros [H1 H2]. split; [ | split; assumption ].
      exact (ltb_leb_trans bmi 27 30 H1 eq_refl).
  - intros H1 H2. split; [ exact (Hlt H1 H2) | ].
    apply bucket_not_high.
    exact (ltb_leb_trans _ 42 60 (Hlt H1 H2) eq_refl).
Qed.

(** The fall-back in binary64 at age 34 and BMI 25. *)
Lemma sys_fallback_score_witness :
  ((score_systemic 34 25 <? 42) = true /\
   bucket (score_systemic 34 25) <> "High")%float.
Proof.
  destruct sys_fallback_score as [_ HF].
  apply (HF 34 25)%float; reflexivity.
Defined.

(** The final clip of the two measured scores, in binary64. *)
Lemma score_systemic_clip (age bmi : float) :
  score_systemic age bmi =
  (lit 100.0 * (lit 0.55 * clamp01 ((age - lit 30.0) / lit 15.0)
                + lit 0.45 * clamp01 ((bmi - lit 22.0) / lit 18.0)))%py.
Proof.
  unfold score_systemic.
  destruct (isnan age) eqn:Ha; [ | destruct (isnan bmi) eqn:Hb ].
  - apply (np_clip_nan (T := float)). cbn [add sub mul div PyNum_float].
    apply Binary64More.mul_nan; right. apply Binary64More.add_nan; left.
    apply Binary64More.mul_nan; right.
    apply Binary64More.clamp01_nan, Binary64More.div_nan; left.
    apply Binary64More.sub_nan; left. exact Ha.
  - apply (np_clip_nan (T := float)). cbn [add sub mul div PyNum_float].
    apply Binary64More.mul_nan; right. apply Binary64More.add_nan; right.
    apply Binary64More.mul_nan; right.
    apply Binary64More.clamp01_nan, Binary64More.div_nan; left.
    apply Binary64More.sub_nan; left. exact Hb.
  - apply scaled_weighted_clip;
      [ literal | literal | evaluated | evaluated | evaluated | evaluated
      | | ];
      cbn [sub div PyNum_float];
      (apply div_number; [ literal | ]);
      (apply sub_number_l; [ literal | assumption ]).
Qed.

Lemma score_endometrial_clip (emt_mm prog_ng_ml : float) :
  score_endometrial emt_mm prog_ng_ml =
  (lit 100.0 * (lit 0.60 * clamp01 ((lit 7.0 - emt_mm) / lit 3.0)
                + lit 0.40 * clamp01 ((lit 9.5 - prog_ng_ml) / lit 6.0)))%py.
Proof.
  unfold score_endometrial.
  destruct (isnan emt_mm) eqn:Ha; [ | destruct (isnan prog_ng_ml) eqn:Hb ].
  - apply (np_clip_nan (T := float)). cbn [add sub mul div PyNum_float].
    apply Binary64More.mul_nan; right. apply Binary64More.add_nan; left.
    apply Binary64More.mul_nan; right.
    apply Binary64More.clamp01_nan, Binary64More.div_nan; left.
    apply Binary64More.sub_nan; right. exact Ha.
  - apply (np_clip_nan (T := float)). cbn [add sub mul div PyNum_float].
    apply Binary64More.mul_nan; right. apply Binary64More.add_nan; right.
    apply Binary64More.mul_nan; right.
    apply Binary64More.clamp01_nan, Binary64More.div_nan; left.
    apply Binary64More.sub_nan; right. exact Hb.
  - apply scaled_weighted_clip;
      [ literal | literal | evaluated | evaluated | evaluated | evaluated
      | | ];
      cbn [sub div PyNum_float];
      (apply div_number; [ literal | ]);
      (apply sub_number_r; [ literal | assumption ]).
Qed.

Lemma navigator_index_clip
    (age bmi emt_mm prog_ng_ml : float) (euploid good_grade : bool) :
  snd (navigator_index age bmi emt_mm prog_ng_ml euploid good_grade) =
  (lit 0.45 * score_embryo euploid good_grade
   + lit 0.35 * score_endometrial emt_mm prog_ng_ml
   + lit 0.20 * score_systemic age bmi)%py.
Proof.
  unfold navigator_index. cbn [snd].
  destruct (Binary64More.score_or_nan_systemic age bmi) as [Hs | Hs].
  - apply (np_clip_nan (T := float)). cbn [add mul PyNum_float].
    apply Binary64More.add_nan; right. apply Binary64More.mul_nan; right.
    exact Hs.
  - destruct (Binary64More.score_or_nan_endometrial emt_mm prog_ng_ml)
      as [Hp | Hp].
    + apply (np_clip_nan (T := float)). cbn [add mul PyNum_float].
      apply Binary64More.add_nan; left. apply Binary64More.add_nan; right.
      apply Binary64More.mul_nan; right. exact Hp.
    + apply index_clip; try assumption. apply score_embryo_score.
Qed.

(** X14. The defensive clip that ends each scorer and [navigator_index]
    never changes the value: every score is already the weighted sum it
    clips. For all rationals in exact arithmetic, and in binary64 for all
    inputs, where a NaN goes through the clip as it is. *)
Theorem final_clips_redundant :
  (forall (age bmi emt_mm prog_ng_ml : Q) (euploid good_grade : bool),
      score_systemic age bmi ==
        100.0 * (0.55 * clamp01 ((age - 30.0) / 15.0)
                 + 0.45 * clamp01 ((bmi - 22.0) / 18.0)) /\
      score_endometrial emt_mm prog_ng_ml ==
        100.0 * (0.60 * clamp01 ((7.0 - emt_mm) / 3.0)
                 + 0.40 * clamp01 ((9.5 - prog_ng_ml) / 6.0)) /\
      score_embryo euploid good_grade ==
        100.0 * (1.0 - clamp01 (0.70 * (if euploid then 1.0 else 0.0)
                                + 0.30 * (if good_grade then 1.0 else 0.0))) /\
      snd (navigator_index age bmi emt_mm prog_ng_ml euploid good_grade) ==
        0.45 * score_embryo euploid good_grade
        + 0.35 * score_endometrial emt_mm prog_ng_ml
        + 0.20 * score_systemic age bmi)%Q /\
  (forall (age bmi emt_mm prog_ng_ml : float) (euploid good_grade : bool),
      score_systemic age bmi =
        100.0 * (0.55 * clamp01 ((age - 30.0) / 15.0)
                 + 0.45 * clamp01 ((bmi - 22.0) / 18.0)) /\
      score_endometrial emt_mm prog_ng_ml =
        100.0 * (0.60 * clamp01 ((7.0 - emt_mm) / 3.0)
                 + 0.40 * clamp01 ((9.5 - prog_ng_ml) / 6.0)) /\
      score_embryo euploid good_grade =
        100.0 * (1.0 - clamp01 (0.70 * (if euploid then 1.0 else 0.0)
                                + 0.30 * (if good_grade then 1.0 else 0.0))) /\
      snd (navigator_index age bmi emt_mm prog_ng_ml euploid good_grade) =
        0.45 * score_embryo euploid good_grade
        + 0.35 * score_endometrial emt_mm prog_ng_ml
        + 0.20 * score_systemic age bmi)%float.
Proof.
  split; [ exact ExactMore.final_clips_redundant_exact | ].
  intros age bmi emt_mm prog_ng_ml euploid good_grade.
  split; [ exact (score_systemic_clip age bmi) | ].
  split; [ exact (score_endometrial_clip emt_mm prog_ng_ml) | ].
  split; [ destruct euploid, good_grade; evaluated | ].
  exact (navigator_index_clip age bmi emt_mm prog_ng_ml euploid good_grade).
Qed.

(** The index over scores that share a bucket, in binary64. *)
Lemma index_low (eps sbs : float) :
  score eps -> score sbs -> (eps <? 30) = true -> (sbs <? 30) = true ->
  bucket (np_clip (lit 0.45 * score_embryo true true + lit 0.35 * eps
                   + lit 0.20 * sbs)%py (lit 0) (lit 100)) = "Low"%string.
Proof.
  intros Sp Ss Hp Hs.
  apply (gap_below (next_down 30) 30) in Hp; [ | evaluated ].
  apply (gap_below (next_down 30) 30) in Hs; [ | evaluated ].
  pose proof (index_le (score_embryo true true) (score_embryo true true)
                eps (next_down 30) sbs (next_down 30)
                (score_embryo_score _ _) (score_embryo_score _ _)
                Sp ltac:(known) Ss ltac:(known) eq_refl Hp Hs) as Hle.
  pose proof (index_score _ _ _ (score_embryo_score true true) Sp Ss) as Sg.
  apply (bucket_float _ (score_number _ Sg)).
  apply (leb_ltb_trans _ _ _ Hle). evaluated.
Qed.

Lemma index_moderate (eps sbs : float) :
  score eps -> score sbs ->
  (30 <=? eps) = true -> (eps <? 60) = true ->
  (30 <=? sbs) = true -> (sbs <? 60) = true ->
  bucket (np_clip (lit 0.45 * score_embryo true false + lit 0.35 * eps
                   + lit 0.20 * sbs)%py (lit 0) (lit 100)) = "Moderate"%string.
Proof.
  intros Sp Ss Lp Hp Ls Hs.
  apply (gap_below (next_down 60) 60) in Hp; [ | evaluated ].
  apply (gap_below (next_down 60) 60) in Hs; [ | evaluated ].
  pose proof (index_le (score_embryo true false) (score_embryo true false)
                eps (next_down 60) sbs (next_down 60)
                (score_embryo_score _ _) (score_embryo_score _ _)
                Sp ltac:(known) Ss ltac:(known) eq_refl Hp Hs) as Hhi.
  pose proof (index_le (score_embryo true false) (score_embryo true false)
                30 eps 30 sbs
                (score_embryo_score _ _) (score_embryo_score _ _)
                ltac:(known) Sp ltac:(known) Ss eq_refl Lp Ls) as Hlo.
  pose proof (index_score _ _ _ (score_embryo_score true false) Sp Ss) as Sg.
  apply (bucket_float _ (score_number _ Sg)). split.
  - refine (leb_trans 30 _ _ _ Hlo). evaluated.
  - apply (leb_ltb_trans _ _ _ Hhi). evaluated.
Qed.

Lemma index_high (good_grade : bool) (eps sbs : float) :
  score eps -> score sbs -> (60 <=? eps) = true -> (60 <=? sbs) = true ->
  bucket (np_clip (lit 0.45 * score_embryo false good_grade + lit 0.35 * eps
                   + lit 0.20 * sbs)%py (lit 0) (lit 100)) = "High"%string.
Proof.
  intros Sp Ss Lp Ls.
  pose proof (index_le 70 (score_embryo false good_grade) 60 eps 60 sbs
                ltac:(known) (score_embryo_score _ _)
                ltac:(known) Sp ltac:(known) Ss
                ltac:(destruct good_grade; evaluated) Lp Ls) as Hlo.
  pose proof (index_score _ _ _ (score_embryo_score false good_grade) Sp Ss)
    as Sg.
  apply (bucket_float _ (score_number _ Sg)).
  refine (leb_trans 60 _ _ _ Hlo). evaluated.
Qed.

(** X18. When the three domain scores fall in the same bucket, the global
    index falls in that bucket too. For all rationals in exact arithmetic,
    and in binary64 for all measurements that are numbers: the rounding of
    the weighted sum, which can take the index below the three scores, does
    not take it across 30 or 60. *)
Theorem index_in_common_bucket :
  (forall (age bmi emt_mm prog_ng_ml : Q) (euploid good_grade : bool)
          (b : string),
      let sbs := score_systemic age bmi in
      let eps := score_endometrial emt_mm prog_ng_ml in
      let egs := score_embryo (T := Q) euploid good_grade in
      let gni :=
        snd (navigator_index age bmi emt_mm prog_ng_ml euploid good_grade) in
      bucket sbs = b -> bucket eps = b -> bucket egs = b -> bucket gni = b) /\
  (forall (age bmi emt_mm prog_ng_ml : float) (euploid good_grade : bool)
          (b : string),
      isnan age = false -> isnan bmi = false ->
      isnan emt_mm = false -> isnan prog_ng_ml = false ->
      let sbs := score_systemic age bmi in
      let eps := score_endometrial emt_mm prog_ng_ml in
      let egs := score_embryo (T := float) euploid good_grade in
      let gni :=
        snd (navigator_index age bmi emt_mm prog_ng_ml euploid good_grade) in
      bucket sbs = b -> bucket eps = b -> bucket egs = b -> bucket gni = b).
Proof.
  split; [ exact ExactMore.index_in_common_bucket_exact | ].
  intros age bmi emt prog euploid good b Ha Hb He Hp sbs eps egs gni Bs Bp Bg.
  subst gni egs. unfold navigator_index. cbn [snd]. fold sbs eps.
  pose proof (score_systemic_score age bmi Ha Hb) as Ss.
  pose proof (score_endometrial_score emt prog He Hp) as Sp.
  fold sbs in Ss. fold eps in Sp.
  pose proof (bucket_float sbs (score_number _ Ss)) as [Ls [Ms Hs]].
  pose proof (bucket_float eps (score_number _ Sp)) as [Lp [Mp Hp']].
  destruct euploid, good; vm_compute in Bg; destruct Bg.
  - apply index_low; try assumption; [ apply Lp | apply Ls ]; assumption.
  - apply Mp in Bp. apply Ms in Bs. destruct Bp, Bs.
    apply index_moderate; assumption.
  - apply index_high; try assumption; [ apply Hp' | apply Hs ]; assumption.
  - apply index_high; try assumption; [ apply Hp' | apply Hs ]; assumption.
Qed.

(** Three Low scores in binary64 at age 34, BMI 25, EMT 9 mm, progesterone
    10.5 ng/mL and a euploid embryo of good grade. *)
Lemma index_in_common_bucket_witness :
  bucket (snd (navigator_index 34%float 25%float 9%float 10.5%float true true))
  = "Low"%string.
Proof.
  destruct index_in_common_bucket as [_ HF].
  apply (HF 34 25 9 10.5 true true "Low"%string)%float; reflexivity.
Defined.
